(** * Au: a shallow embedding of the grep, stats, json2au drivers and of the
      buffered byte source, with the properties of the specification.

    Sources embedded here:
    - [src/Stats.cpp]        ([commafy], [StatsDecoder::decode], [stats])
    - [src/Json2Au.cpp]      ([JsonSaxHandler], [json2au])
    - [src/GrepHandler.h]    ([Pattern], [GrepHandler], [reallyDoGrep], [doBisect])
    - [src/au/FileByteSource.h] ([FileByteSource])

    Conventions: a [size_t]/[uint64_t] is a [Z] in [0, 2^64), an [int64_t] a
    [Z] in [-2^63, 2^63); arithmetic that can leave the range is written with
    its wrap-around.  C++ exceptions are an explicit outcome. *)

From Stdlib Require Import ZArith List Bool String Ascii Lia.
From Stdlib Require PrimFloat.
Import ListNotations.
Local Open Scope string_scope.
Local Open Scope list_scope.
Local Open Scope Z_scope.

(** ** Machine integers *)

Definition wrap64 (z : Z) : Z := z mod 2 ^ 64.

(** Two's complement reading of a 64-bit pattern as an [int64_t]. *)
Definition int64_of (z : Z) : Z :=
  let u := wrap64 z in if u <? 2 ^ 63 then u else u - 2 ^ 64.

(** ** Stats.cpp : [commafy] *)

Module Commafy.

(** [std::string commafy(int64_t val)], Stats.cpp lines 14-19.

    Inside its body only the [int64_t] overload is declared (the [uint64_t]
    overload comes later in the file and built-in types have no associated
    namespace), so both calls resolve to [commafy(int64_t)] itself.  The
    recursion is run with fuel; [None] is "still recursing when the fuel ran
    out".  Unary minus on [int64_t] is taken with the usual wrap-around. *)
Fixpoint commafy_int64 (fuel : nat) (val : Z) : option string :=
  match fuel with
  | O => None
  | S fuel' =>
      if val >? 0 then commafy_int64 fuel' val
      else
        match commafy_int64 fuel' (int64_of (- val)) with
        | Some result => Some (String "-" result)
        | None => None
        end
  end.

(** The argument with which an activation of [commafy(int64_t)] calls
    [commafy(int64_t)] again (it always does, before doing anything else). *)
Definition commafy_int64_callee (val : Z) : Z :=
  if val >? 0 then val else int64_of (- val).

(** Big-step reading of the same body: [returns val s] when the call on [val]
    returns the string [s].  There is one rule per [return] statement, and each
    of them needs the inner call to have returned. *)
Inductive returns : Z -> string -> Prop :=
| ret_pos val s :
    val > 0 -> returns val s -> returns val s
| ret_neg val s :
    ~ val > 0 -> returns (int64_of (- val)) s -> returns val (String "-" s).

(** [std::string commafy(uint64_t val)], Stats.cpp lines 21-34: the digits are
    produced least significant first with a comma after every third one, then
    the buffer is reversed. *)
Definition digit_char (d : Z) : ascii := ascii_of_nat (48 + Z.to_nat d).

Fixpoint commafy_loop (fuel : nat) (val : Z) (i : Z) (buf : list ascii)
  : list ascii :=
  match fuel with
  | O => buf
  | S fuel' =>
      if val =? 0 then buf
      else
        let buf1 := if andb (i mod 3 =? 0) (negb (Nat.eqb (List.length buf) 0))
                    then buf ++ [","%char] else buf in
        let buf2 := buf1 ++ [digit_char (val mod 10)] in
        commafy_loop fuel' (val / 10) (i + 1) buf2
  end.

Definition commafy_uint64 (val : Z) : string :=
  if val =? 0 then "0"
  else string_of_list_ascii (rev (commafy_loop 32 val 0 [])).

End Commafy.

(** ** Exceptions, output channels *)

(** The two kinds of exception the sources throw: [parse_error] ([AU_THROW])
    and [std::runtime_error] ([THROW_RT]); [what] is the message. *)
Inductive Exn : Type :=
| parse_error (what : string)
| runtime_error (what : string).

Inductive Channel : Type := Cout | Cerr.

(** One [<<] chain (or one [printf]) on a stream. *)
Inductive Output : Type := Print (ch : Channel) (text : string).

Definition nl : string := String (ascii_of_nat 10) "".
Definition cat (parts : list string) : string := String.concat "" parts.

(** [%d] / [operator<<] of a non-negative integer. *)
Fixpoint decimal_loop (fuel : nat) (val : Z) (acc : string) : string :=
  match fuel with
  | O => acc
  | S fuel' =>
      let acc' := String (ascii_of_nat (48 + Z.to_nat (val mod 10))) acc in
      if val / 10 =? 0 then acc' else decimal_loop fuel' (val / 10) acc'
  end.

Definition decimal (val : Z) : string := decimal_loop 40 val "".

(** ** Stats.cpp : the [stats] driver *)

Module Stats.

(** [SmallIntValueHandler]: [intSizes] is a [std::array<size_t, 12>]. *)
Record SmallIntValueHandler := {
  intSizes : list Z;
  doubles : Z
}.

(** [SmallIntRecordHandler]; of its [Dictionary] only [size()] is observed. *)
Record SmallIntRecordHandler := {
  dictionary_size : Z;
  vh : SmallIntValueHandler;
  numRecords : Z;
  numValues : Z;
  dictClears : Z;
  dictAdds : Z;
  headers : Z
}.

(** How a call of a driver ends. [Crashes] is undefined behaviour that traps
    (an integer division by zero). *)
Inductive Completion : Type :=
| Returns (status : Z)
| Exits (status : Z)
| Throws (e : Exn)
| Crashes.

(** [cmd.parse(argc, argv)] of TCLAP: the file names, or an [ArgException]
    reaching the [catch] of [stats], or a call of [exit] from [UsageVisitor] /
    [StatsOutput::failure] after printing. *)
Inductive CmdLine : Type :=
| Parsed (fileNames : list string)
| ArgException (error argId : string)
| Exit (status : Z) (printed : list Output).

(** One run of [RecordParser(source, handler).parseStream()] on a fresh
    [FileByteSource]: the handler as the callbacks left it, what the callbacks
    printed ([dictStats] on a dictionary clear), [source.pos()] afterwards and
    the exception that ended the run, if any.  The parser is not part of these
    sources; it is taken from the environment. *)
Record ParseRun := {
  after : SmallIntRecordHandler;
  printed_by_callbacks : list Output;
  source_pos : Z;
  raised : option Exn
}.

(** [prettyBytes] (lines 36-51) scales its argument as a [double] and prints
    it with [%d] or [%.1f]; only the text it returns matters here, and it is
    left to the environment with the command line parser and the record
    parser. *)
Record Env := {
  cmd_parse : list string -> CmdLine;
  parseStream : string -> SmallIntRecordHandler -> ParseRun;
  prettyBytes : Z -> string
}.

(** [dictStats], lines 53-57. *)
Definition dictStats (dictionary_size : Z) (event : string) : Output :=
  Print Cout (cat ["Dictionary stats "; event; ":"; nl;
                   "  Total entries: "; Commafy.commafy_uint64 dictionary_size;
                   nl]).

(** [%3d]. *)
Definition pad3 (s : string) : string :=
  match String.length s with
  | 1%nat => cat ["  "; s]
  | 2%nat => cat [" "; s]
  | _ => s
  end.

(** [SmallIntValueHandler::dumpStats], lines 112-126.  The percentage divides
    by [totalInts]: with no integer counted at all the division traps. *)
Definition totalInts (v : SmallIntValueHandler) : Z :=
  fold_left (fun acc n => wrap64 (acc + n)) (intSizes v) 0.

Definition dumpStats_line (total : Z) (i : nat) (n : Z) : Output :=
  Print Cout (cat ["        "; pad3 (decimal (Z.of_nat i + 1)); ": ";
                   Commafy.commafy_uint64 n; " (";
                   decimal (wrap64 (100 * n) / total); "%)"; nl]).

Fixpoint dumpStats_lines (total : Z) (i : nat) (sizes : list Z) : list Output :=
  match sizes with
  | [] => []
  | n :: rest => dumpStats_line total i n :: dumpStats_lines total (S i) rest
  end.

Definition dumpStats (v : SmallIntValueHandler) : list Output * bool :=
  let total := totalInts v in
  let head :=
    [Print Cout (cat ["  Values:"; nl;
                      "     Doubles: "; Commafy.commafy_uint64 (doubles v); nl;
                      "     Integers: "; Commafy.commafy_uint64 total; nl]);
     Print Cout (cat ["       By length:"; nl])] in
  match intSizes v with
  | [] => (head, true)
  | _ :: _ =>
      if total =? 0 then (head, false)
      else (head ++ dumpStats_lines total 0 (intSizes v), true)
  end.

(** The report of [StatsDecoder::decode], lines 231-239. *)
Definition report (e : Env) (filename : string) (pos : Z)
  (h : SmallIntRecordHandler) : Output :=
  Print Cout (cat ["Stats for "; filename; ":"; nl;
                   "  Total read: "; prettyBytes e pos; nl;
                   "  Records: "; Commafy.commafy_uint64 (numRecords h); nl;
                   "     Version headers: "; Commafy.commafy_uint64 (headers h); nl;
                   "     Dictionary resets: ";
                   Commafy.commafy_uint64 (dictClears h); nl;
                   "     Dictionary adds: "; Commafy.commafy_uint64 (dictAdds h); nl;
                   "     Values: "; Commafy.commafy_uint64 (numValues h); nl]).

(** [StatsDecoder::decode], lines 222-240.  The result is what was printed, and
    either the handler for the next file or the way the call was cut short. *)
Definition decode (e : Env) (filename : string) (handler : SmallIntRecordHandler)
  : list Output * (SmallIntRecordHandler + Completion) :=
  let run := parseStream e filename handler in
  let h := after run in
  let tried :=
    match raised run with
    | None =>
        (* handler.onParseEnd() *)
        inl (printed_by_callbacks run
             ++ [dictStats (dictionary_size h) "at end of file"])
    | Some (parse_error what) =>
        (* catch (parse_error &e) { std::cout << e.what() << std::endl; } *)
        inl (printed_by_callbacks run ++ [Print Cout (cat [what; nl])])
    | Some other => inr (printed_by_callbacks run, other)
    end in
  match tried with
  | inr (out, exn) => (out, inr (Throws exn))
  | inl out =>
      let (lines, ok) := dumpStats (vh h) in
      (out ++ [report e filename (source_pos run) h] ++ lines,
       if ok then inl h else inr Crashes)
  end.

(** The [for] loop over the file names, lines 294-296. *)
Fixpoint decode_all (e : Env) (files : list string)
  (handler : SmallIntRecordHandler) : list Output * Completion :=
  match files with
  | [] => ([], Returns 0)
  | f :: rest =>
      match decode e f handler with
      | (out, inl handler') =>
          let (out', c) := decode_all e rest handler' in (out ++ out', c)
      | (out, inr c) => (out, c)
      end
  end.

Definition new_handler : SmallIntRecordHandler :=
  {| dictionary_size := 0;
     vh := {| intSizes := repeat 0 12; doubles := 0 |};
     numRecords := 0; numValues := 0; dictClears := 0; dictAdds := 0;
     headers := 0 |}.

(** [int stats(int argc, const char * const *argv)], lines 263-305. *)
Definition stats (e : Env) (argv : list string) : list Output * Completion :=
  match cmd_parse e argv with
  | ArgException error argId =>
      ([Print Cerr (cat ["error: "; error; " for arg "; argId; nl])], Returns 1)
  | Exit status printed => (printed, Exits status)
  | Parsed fileNames =>
      match fileNames with
      | [] => decode_all e ["-"] new_handler
      | _ :: _ => decode_all e fileNames new_handler
      end
  end.

End Stats.

(** ** au/FileByteSource.h : [FileByteSource] *)

Module FileByteSource.

Definition byte : Set := ascii.

(** [l[from, from + len)]. *)
Definition slice (l : list byte) (from len : Z) : list byte :=
  firstn (Z.to_nat len) (skipn (Z.to_nat from) l).

Definition zlength (l : list byte) : Z := Z.of_nat (List.length l).

(** *** The underlying stream ([FileByteSourceImpl] over a file descriptor) *)

Inductive Syscall : Type :=
| sys_read (offset len : Z)
| sys_lseek (abspos : Z).

(** The file behind the descriptor: its bytes, the kernel's file offset,
    whether [lseek] works on it, how many bytes [read(2)] hands over at an
    offset when asked for [len] (any number from 1 up to what is asked and what
    is left), where [read(2)] fails, and the system calls made so far (most
    recent first). *)
Record Stream := {
  data : list byte;
  offset : Z;
  seekable : bool;
  chunk : Z -> Z -> Z;
  read_fails : Z -> bool;
  syscalls : list Syscall
}.

(** [ssize_t doRead(char *buf, size_t len)]: the count returned ([-1] on
    error), the bytes stored at [buf], and the stream afterwards. *)
Definition doRead (st : Stream) (len : Z) : Z * list byte * Stream :=
  let logged (off : Z) : Stream :=
    {| data := data st; offset := off; seekable := seekable st;
       chunk := chunk st; read_fails := read_fails st;
       syscalls := sys_read (offset st) len :: syscalls st |} in
  if read_fails st (offset st) then (-1, [], logged (offset st))
  else
    let left := zlength (data st) - offset st in
    if (len <=? 0) || (left <=? 0) then (0, [], logged (offset st))
    else
      let n := Z.max 1 (Z.min (chunk st (offset st) len) (Z.min len left)) in
      (n, slice (data st) (offset st) n, logged (offset st + n)).

(** [void doSeek(size_t abspos)]: [None] when [lseek] fails ([THROW_RT]). *)
Definition doSeek (st : Stream) (abspos : Z) : option Stream :=
  let st' (off : Z) : Stream :=
    {| data := data st; offset := off; seekable := seekable st;
       chunk := chunk st; read_fails := read_fails st;
       syscalls := sys_lseek abspos :: syscalls st |} in
  if seekable st && (abspos <? 2 ^ 63) then Some (st' abspos) else None.

(** *** The buffered source *)

(** Pointers into the working buffer are offsets from [buf_]; [buf_] holds the
    bytes of [buf_, limit_), so that [limit_ - buf_] is its length. *)
Record t := {
  INIT_BUFFER_SIZE : Z;
  bufSize_ : Z;
  buf_ : list byte;
  pos_ : Z;
  cur_ : Z;
  pinPos_ : option Z;
  waitForData_ : bool;
  stream : Stream
}.

Definition limit_ (s : t) : Z := zlength (buf_ s).

Definition MIN_HIST_SIZE : Z := 1 * 1024.

(** The constructor, lines 31-37. *)
Definition new (st : Stream) (waitForData : bool) (bufferSizeInK : Z) : t :=
  {| INIT_BUFFER_SIZE := bufferSizeInK * 1024;
     bufSize_ := bufferSizeInK * 1024;
     buf_ := [];
     pos_ := 0; cur_ := 0; pinPos_ := None;
     waitForData_ := waitForData;
     stream := st |}.

(** How a member function ends: it returns, it throws, it sleeps forever
    waiting for data that does not come, or the model ran out of fuel. *)
Inductive Res (A : Type) : Type :=
| Ok (a : A) (s : t)
| Throw (e : Exn) (s : t)
| Blocked (s : t)
| NoFuel.
Arguments Ok {A} a s.
Arguments Throw {A} e s.
Arguments Blocked {A} s.
Arguments NoFuel {A}.

Definition buffFree (s : t) : Z := bufSize_ s - limit_ s.
Definition buffAvail (s : t) : Z := limit_ s - cur_ s.

Definition with_buffer (s : t) (bufSize : Z) (buf : list byte) (cur : Z)
  (st : Stream) : t :=
  {| INIT_BUFFER_SIZE := INIT_BUFFER_SIZE s; bufSize_ := bufSize; buf_ := buf;
     pos_ := pos_ s; cur_ := cur; pinPos_ := pinPos_ s;
     waitForData_ := waitForData_ s; stream := st |}.

(** [pos_ += n; cur_ += n;] *)
Definition advance (s : t) (n : Z) : t :=
  {| INIT_BUFFER_SIZE := INIT_BUFFER_SIZE s; bufSize_ := bufSize_ s;
     buf_ := buf_ s; pos_ := wrap64 (pos_ s + n); cur_ := cur_ s + n;
     pinPos_ := pinPos_ s; waitForData_ := waitForData_ s;
     stream := stream s |}.

(** The history kept by [read]: [MIN_HIST_SIZE], or more when the pin is
    further back, lines 174-179. *)
Definition histSz (s : t) : Z :=
  match pinPos_ s with
  | Some pin =>
      if pin <? pos_ s then Z.max MIN_HIST_SIZE (pos_ s - pin)
      else MIN_HIST_SIZE
  | None => MIN_HIST_SIZE
  end.

(** The [memmove] of [read], lines 180-187. *)
Definition compact (s : t) : t :=
  if cur_ s >? histSz s then
    let shift := cur_ s - histSz s in
    with_buffer s (bufSize_ s) (skipn (Z.to_nat shift) (buf_ s))
      (cur_ s - shift) (stream s)
  else s.

(** The [realloc] of [read], lines 190-202 (it is taken to succeed). *)
Definition grow (s : t) : t :=
  if buffFree s =? 0
  then with_buffer s (wrap64 (bufSize_ s + INIT_BUFFER_SIZE s)) (buf_ s)
         (cur_ s) (stream s)
  else s.

(** [bool read()], lines 171-216. *)
Definition read (s : t) : Res bool :=
  let s1 := grow (compact s) in
  let '(bytesRead, bytes, st) := doRead (stream s1) (buffFree s1) in
  let s2 := with_buffer s1 (bufSize_ s1) (buf_ s1) (cur_ s1) st in
  if bytesRead <? 0 then Throw (runtime_error "Error reading file") s2
  else if bytesRead =? 0 then
    if waitForData_ s then Blocked s2 else Ok false s2
  else Ok true (with_buffer s1 (bufSize_ s1) (buf_ s1 ++ bytes) (cur_ s1) st).

(** [while (cur_ == limit_) if (!read()) return Byte::Eof();] : [true] when a
    byte is available at [cur_], [false] at the end of the stream. *)
Fixpoint fill (fuel : nat) (s : t) : Res bool :=
  if cur_ s =? limit_ s then
    match fuel with
    | O => NoFuel
    | S fuel' =>
        match read s with
        | Ok true s' => fill fuel' s'
        | r => r
        end
    end
  else Ok true s.

Definition zero_byte : byte := ascii_of_nat 0.
Definition at_cur (s : t) : byte := nth (Z.to_nat (cur_ s)) (buf_ s) zero_byte.

(** [Byte next()]; [None] is [Byte::Eof()]. *)
Definition next (fuel : nat) (s : t) : Res (option byte) :=
  match fill fuel s with
  | Ok true s' => Ok (Some (at_cur s')) (advance s' 1)
  | Ok false s' => Ok None s'
  | Throw e s' => Throw e s'
  | Blocked s' => Blocked s'
  | NoFuel => NoFuel
  end.

(** [Byte peek()]. *)
Definition peek (fuel : nat) (s : t) : Res (option byte) :=
  match fill fuel s with
  | Ok true s' => Ok (Some (at_cur s')) s'
  | Ok false s' => Ok None s'
  | Throw e s' => Throw e s'
  | Blocked s' => Blocked s'
  | NoFuel => NoFuel
  end.

(** [void readFunc(size_t len, Fn &&func)]: the fragments handed to [func]. *)
Fixpoint readFunc (fuel : nat) (len : Z) (s : t) (frags : list (list byte))
  : Res (list (list byte)) :=
  if len =? 0 then Ok frags s
  else
    match fuel with
    | O => NoFuel
    | S fuel' =>
        match fill fuel s with
        | Ok true s' =>
            let first := Z.min len (limit_ s' - cur_ s') in
            readFunc fuel' (wrap64 (len - first)) (advance s' first)
              (frags ++ [slice (buf_ s') (cur_ s') first])
        | Ok false s' =>
            Throw (parse_error
                     (cat ["reached eof while trying to read "; decimal len;
                           " bytes"])) s'
        | Throw e s' => Throw e s'
        | Blocked s' => Blocked s'
        | NoFuel => NoFuel
        end
    end.

(** [void setPin(size_t abspos)]; its [assert] is [setPin_assert]. *)
Definition setPin (abspos : Z) (s : t) : t :=
  {| INIT_BUFFER_SIZE := INIT_BUFFER_SIZE s; bufSize_ := bufSize_ s;
     buf_ := buf_ s; pos_ := pos_ s; cur_ := cur_ s; pinPos_ := Some abspos;
     waitForData_ := waitForData_ s; stream := stream s |}.


Definition clearPin (s : t) : t :=
  {| INIT_BUFFER_SIZE := INIT_BUFFER_SIZE s; bufSize_ := bufSize_ s;
     buf_ := buf_ s; pos_ := pos_ s; cur_ := cur_ s; pinPos_ := None;
     waitForData_ := waitForData_ s; stream := stream s |}.

(** The state in which [seek] calls [read] after [doSeek]:
    [cur_ = limit_ = buf_; pos_ = abspos; clearPin();]. *)
Definition reseeked (s : t) (abspos : Z) (st : Stream) : t :=
  {| INIT_BUFFER_SIZE := INIT_BUFFER_SIZE s; bufSize_ := bufSize_ s;
     buf_ := []; pos_ := abspos; cur_ := 0; pinPos_ := None;
     waitForData_ := waitForData_ s; stream := st |}.

(** [void seek(size_t abspos)], lines 99-112. *)
Definition seek (abspos : Z) (s : t) : Res unit :=
  if (abspos <? pos_ s) && (pos_ s - abspos <=? cur_ s) then
    let relseek := pos_ s - abspos in
    Ok tt {| INIT_BUFFER_SIZE := INIT_BUFFER_SIZE s; bufSize_ := bufSize_ s;
             buf_ := buf_ s; pos_ := pos_ s - relseek;
             cur_ := cur_ s - relseek; pinPos_ := pinPos_ s;
             waitForData_ := waitForData_ s; stream := stream s |}
  else
    match doSeek (stream s) abspos with
    | None => Throw (runtime_error "failed to seek to desired location") s
    | Some st =>
        match read (reseeked s abspos st) with
        | Ok true s' => Ok tt s'
        | Ok false s' =>
            Throw (runtime_error "failed to read from new location") s'
        | Throw e s' => Throw e s'
        | Blocked s' => Blocked s'
        | NoFuel => NoFuel
        end
    end.

(** [void skip(size_t len)]. *)
Definition skip (len : Z) (s : t) : Res unit := seek (wrap64 (pos_ s + len)) s.

(** [memmem]: the offset of the first occurrence of [needle] in [hay]. *)
Fixpoint is_prefix (needle hay : list byte) : bool :=
  match needle, hay with
  | [], _ => true
  | x :: needle', y :: hay' => Ascii.eqb x y && is_prefix needle' hay'
  | _ :: _, [] => false
  end.

Fixpoint memmem (hay needle : list byte) : option Z :=
  if is_prefix needle hay then Some 0
  else
    match hay with
    | [] => None
    | _ :: hay' =>
        match memmem hay' needle with
        | Some off => Some (off + 1)
        | None => None
        end
    end.

(** [while (buffAvail() < needle.length()) if (!read()) return false;] *)
Fixpoint ensure (fuel : nat) (n : Z) (s : t) : Res bool :=
  if buffAvail s <? n then
    match fuel with
    | O => NoFuel
    | S fuel' =>
        match read s with
        | Ok true s' => ensure fuel' n s'
        | r => r
        end
    end
  else Ok true s.

(** [bool scanTo(std::string_view needle)], lines 114-153. *)
Fixpoint scanTo (fuel : nat) (needle : list byte) (s : t) : Res bool :=
  match fuel with
  | O => NoFuel
  | S fuel' =>
      match ensure fuel (zlength needle) s with
      | Ok true s1 =>
          match memmem (skipn (Z.to_nat (cur_ s1)) (buf_ s1)) needle with
          | Some off => Ok true (advance s1 off)
          | None =>
              match skip (wrap64 (buffAvail s1 - wrap64 (zlength needle - 1)))
                      s1 with
              | Ok _ s2 => scanTo fuel' needle s2
              | Throw e s2 => Throw e s2
              | Blocked s2 => Blocked s2
              | NoFuel => NoFuel
              end
          end
      | r => r
      end
  end.

End FileByteSource.

(** ** Json2Au.cpp : the [json2au] driver *)

Module Json2Au.

(** rapidjson's [ParseErrorCode]; only the two codes the driver tests by name
    are given names, the others are the numbers rapidjson gives them. *)
Definition kParseErrorNone : Z := 0.
Definition kParseErrorDocumentEmpty : Z := 1.

(** What the driver sees of its environment: whether [fopen]/[fdopen] of the
    input and [ofstream::open] of the output succeed, and the code of each
    successive [reader.Parse] call on the input ([parses]); once that list is
    used up the input is at end of file and [Parse] reports
    [kParseErrorDocumentEmpty]. *)
Record Env := {
  open_input : string -> bool;
  open_output : string -> bool;
  parses : list Z
}.

(** [strtoull(argv[2], nullptr, 0)] is left to the environment as well. *)
Record Args := {
  argv : list string;
  strtoull_arg : string -> Z
}.

Definition size_t_max : Z := 2 ^ 64 - 1.

(** The [while (res)] loop, lines 220-247.  [res] starts as a default
    constructed [ParseResult] (code [kParseErrorNone], hence true).  The
    function returns the final [res.Code()]. *)
Fixpoint parse_loop (docs : list Z) (entriesProcessed maxEntries : Z) : Z :=
  match docs with
  | [] => kParseErrorDocumentEmpty
  | code :: rest =>
      let entriesProcessed' := wrap64 (entriesProcessed + 1) in
      if entriesProcessed' >? maxEntries then code
      else if code =? kParseErrorNone
           then parse_loop rest entriesProcessed' maxEntries
           else code
  end.

(** [argc -= 2; argv += 2;] and the [switch (argc)] that fills in
    [maxEntries], [outFName] and [inFName] (each case falls through). *)
Definition argc' (a : Args) : Z := Z.of_nat (List.length (argv a)) - 2.
Definition argv' (a : Args) : list string := skipn 2 (argv a).
Definition maxEntries (a : Args) : Z :=
  if argc' a =? 3 then strtoull_arg a (nth 2 (argv' a) "") else size_t_max.
Definition outFName (a : Args) : string :=
  if (argc' a =? 3) || (argc' a =? 2) then nth 1 (argv' a) "" else "-".
Definition inFName (a : Args) : string :=
  if (argc' a =? 3) || (argc' a =? 2) || (argc' a =? 1)
  then nth 0 (argv' a) "" else "-".

(** [int json2au(int argc, const char * const *argv)], lines 155-263. *)
Definition json2au (e : Env) (a : Args) : Z :=
  if (argc' a <? 2) || (argc' a >? 3) then -1
  else
    if negb (open_input e (inFName a)) then 1
    else if negb (outFName a =? "-")%string && negb (open_output e (outFName a))
    then 1
    else
      let code := parse_loop (parses e) 0 (maxEntries a) in
      if (code =? kParseErrorNone) || (code =? kParseErrorDocumentEmpty)
      then 0 else code.

(** Both files could be opened ([-] as output is [std::cout], never opened). *)
Definition files_open (e : Env) (a : Args) : Prop :=
  open_input e (inFName a) = true /\
  (outFName a = "-" \/ open_output e (outFName a) = true).

End Json2Au.

(** ** Json2Au.cpp : [JsonSaxHandler::String] and [tryTime] *)

Module JsonSaxHandler.

(** The calls made on the [AuWriter]. *)
Inductive WriterCall : Type :=
| value_time (nanos : Z)
| value_string (sv : string) (intern : option bool).

Definition is_digit (c : ascii) : bool :=
  let n := Z.of_nat (nat_of_ascii c) in (48 <=? n) && (n <=? 57).

(** The regular expression [timeRegExp] of [json2au], line 217, as a list of
    character classes: [None] is [\d], [Some c] the character [c]. *)
Definition lit (s : string) : option ascii :=
  match s with String c _ => Some c | EmptyString => None end.

Definition timeRegExp : list (option ascii) :=
  [None; None; None; None; lit "-"; None; None; lit "-"; None; None; lit "T";
   None; None; lit ":"; None; None; lit ":"; None; None; lit ".";
   None; None; None; None; None; None].

Fixpoint regex_match (re : list (option ascii)) (s : string) : bool :=
  match re, s with
  | [], EmptyString => true
  | None :: re', String c s' => is_digit c && regex_match re' s'
  | Some x :: re', String c s' => Ascii.eqb x c && regex_match re' s'
  | _, _ => false
  end.

(** [strtol(..., nullptr, 10)] on a string of digits. *)
Fixpoint strtol_digits (s : string) (acc : Z) : Z :=
  match s with
  | EmptyString => acc
  | String c rest =>
      if is_digit c
      then strtol_digits rest (10 * acc + (Z.of_nat (nat_of_ascii c) - 48))
      else acc
  end.

Definition strtol (s : string) : Z := strtol_digits s 0.

(** [struct tm], the fields [tryTime] fills in. *)
Record tm := {
  tm_year : Z; tm_mon : Z; tm_mday : Z;
  tm_hour : Z; tm_min : Z; tm_sec : Z
}.

(** The C library's [timegm]: seconds from the epoch to the broken-down UTC
    time, fields out of range carried over.  Days are counted with the usual
    proleptic Gregorian formula on years that start in March. *)
Definition days_from_civil (y m d : Z) : Z :=
  let y' := if m <=? 2 then y - 1 else y in
  let era := y' / 400 in
  let yoe := y' - era * 400 in
  let mp := if m >? 2 then m - 3 else m + 9 in
  let doy := (153 * mp + 2) / 5 + d - 1 in
  let doe := yoe * 365 + yoe / 4 - yoe / 100 + doy in
  era * 146097 + doe - 719468.

Definition timegm (t : tm) : Z :=
  let year := tm_year t + 1900 + tm_mon t / 12 in
  let mon := tm_mon t mod 12 + 1 in
  (days_from_civil year mon 1 + (tm_mday t - 1)) * 86400
  + tm_hour t * 3600 + tm_min t * 60 + tm_sec t.

(** [bool tryTime(const char *str, SizeType length)], lines 53-84; [None] is
    [return false].  The nanosecond count is an [int64_t].  The two counters
    of conversion attempts and failures, which only feed a message on the
    standard error channel, are left out. *)
Definition tryTime (str : string) : option WriterCall :=
  if regex_match timeRegExp str then
    let t := {| tm_year := strtol (substring 0 4 str) - 1900;
                tm_mon := strtol (substring 5 2 str) - 1;
                tm_mday := strtol (substring 8 2 str);
                tm_hour := strtol (substring 11 2 str);
                tm_min := strtol (substring 14 2 str);
                tm_sec := strtol (substring 17 2 str) |} in
    let mics := strtol (substring 20 6 str) in
    let tt := timegm t in
    if tt =? -1 then None
    else Some (value_time (int64_of (tt * 1000000000 + mics * 1000)))
  else None.

(** [bool String(const char *str, SizeType length, bool)], lines 104-114, in
    the state every handler is in: [toInt_] is false (nothing sets it) and
    [intern_] is as the preceding [Key] left it.
    [sizeof("yyyy-mm-ddThh:mm:ss.mmmuuu") - 1] is 26. *)
Definition String_ (intern_ : option bool) (str : string) : WriterCall :=
  if Nat.eqb (String.length str) 26 then
    match tryTime str with
    | Some call => call
    | None => value_string str intern_
    end
  else value_string str intern_.

End JsonSaxHandler.

(** ** The wire format of a time value, and the JSON sink *)

Module Wire.

(** Modelled from the spec: the encoder and the decoder (au/AuEncoder.h,
    au/AuDecoder.h) are not among the sources.  Section 4.1: unsigned varints
    are 7-bit little-endian groups with a continuation bit; signed values use
    the zig-zag mapping [n -> (n << 1) ^ (n >> 63)].  Section 6: a time value
    is the opcode [t] followed by the signed varint of the nanoseconds. *)
Definition zigzag (n : Z) : Z :=
  wrap64 (Z.lxor (Z.shiftl n 1) (Z.shiftr n 63)).

Definition unzigzag (u : Z) : Z :=
  Z.lxor (Z.shiftr u 1) (- (Z.land u 1)).

Fixpoint encode_varint (fuel : nat) (u : Z) : list Z :=
  match fuel with
  | O => []
  | S fuel' =>
      if u <? 128 then [u]
      else (Z.lor (Z.land u 127) 128) :: encode_varint fuel' (Z.shiftr u 7)
  end.

Fixpoint decode_varint (bytes : list Z) (shift : Z) : option (Z * list Z) :=
  match bytes with
  | [] => None
  | b :: rest =>
      let v := Z.shiftl (Z.land b 127) shift in
      if Z.land b 128 =? 0 then Some (v, rest)
      else
        match decode_varint rest (shift + 7) with
        | Some (hi, rest') => Some (Z.lor v hi, rest')
        | None => None
        end
  end.

Definition opcode_time : Z := 116. (* 't' *)

Definition encode_time (nanos : Z) : list Z :=
  opcode_time :: encode_varint 10 (zigzag nanos).

Definition decode_time (bytes : list Z) : option Z :=
  match bytes with
  | op :: rest =>
      if op =? opcode_time then
        match decode_varint rest 0 with
        | Some (u, []) => Some (unzigzag u)
        | _ => None
        end
      else None
  | [] => None
  end.

End Wire.

Module JsonOutputHandler.

(** Modelled from the spec: [JsonOutputHandler] (JsonOutputHandler.h) is not
    among the sources; only its test is ([TEST(JsonOutputHandler, Time)]:
    123'456'789 ns is printed as the JSON string 1970-01-01T00:00:00.123456).
    Section 8, scenario 2: a time is printed in UTC with microsecond
    precision, as [yyyy-mm-ddThh:mm:ss.uuuuuu] between double quotes. *)
Definition civil_from_days (z0 : Z) : Z * Z * Z :=
  let z := z0 + 719468 in
  let era := z / 146097 in
  let doe := z - era * 146097 in
  let yoe := (doe - doe / 1460 + doe / 36524 - doe / 146096) / 365 in
  let doy := doe - (365 * yoe + yoe / 4 - yoe / 100) in
  let mp := (5 * doy + 2) / 153 in
  let d := doy - (153 * mp + 2) / 5 + 1 in
  let m := if mp <? 10 then mp + 3 else mp - 9 in
  let y := yoe + era * 400 + (if m <=? 2 then 1 else 0) in
  (y, m, d).

Fixpoint zero_pad (fuel width : nat) (s : string) : string :=
  match fuel with
  | O => s
  | S fuel' => if Nat.ltb (String.length s) width
               then zero_pad fuel' width (String "0" s) else s
  end.

Definition field (width : nat) (v : Z) : string :=
  zero_pad width width (decimal v).

Definition dquote : string := String (ascii_of_nat 34) "".

Definition onTime (nanos : Z) : string :=
  let secs := nanos / 1000000000 in
  let micros := (nanos mod 1000000000) / 1000 in
  let days := secs / 86400 in
  let sod := secs mod 86400 in
  let '(y, m, d) := civil_from_days days in
  cat [dquote; field 4 y; "-"; field 2 m; "-"; field 2 d; "T";
       field 2 (sod / 3600); ":"; field 2 (sod mod 3600 / 60); ":";
       field 2 (sod mod 60); "."; field 6 micros; dquote].

End JsonOutputHandler.

(** A JSON string through [json2au], the wire and the JSON sink: the text
    printed for it, when it was encoded as a time value. *)
Definition time_round_trip (str : string) : option string :=
  match JsonSaxHandler.String_ None str with
  | JsonSaxHandler.value_time nanos =>
      match Wire.decode_time (Wire.encode_time nanos) with
      | Some nanos' => Some (JsonOutputHandler.onTime nanos')
      | None => None
      end
  | JsonSaxHandler.value_string _ _ => None
  end.

(** ** GrepHandler.h : [Pattern] *)

(** An IEEE-754 binary64 [double]; only [==] is used on it. *)
Definition double : Set := PrimFloat.float.
Definition double_eq (a b : double) : bool := PrimFloat.eqb a b.

Record StrPattern := {
  pattern : string;
  fullMatch : bool
}.

Record Pattern := {
  keyPattern : option string;
  intPattern : option Z;
  uintPattern : option Z;
  doublePattern : option double;
  strPattern : option StrPattern;
  timestampPattern : option (Z * Z); (* half-open interval [start, end) *)
  numMatches : option Z;
  scanSuffixAmount : option Z;
  beforeContext : Z;
  afterContext : Z;
  bisect : bool;
  count : bool
}.

Definition set_scanSuffixAmount (p : Pattern) (amount : Z) : Pattern :=
  {| keyPattern := keyPattern p; intPattern := intPattern p;
     uintPattern := uintPattern p; doublePattern := doublePattern p;
     strPattern := strPattern p; timestampPattern := timestampPattern p;
     numMatches := numMatches p; scanSuffixAmount := Some amount;
     beforeContext := beforeContext p; afterContext := afterContext p;
     bisect := bisect p; count := count p |}.

(** [if (pattern.count) pattern.beforeContext = pattern.afterContext = 0;] *)
Definition clear_context (p : Pattern) : Pattern :=
  {| keyPattern := keyPattern p; intPattern := intPattern p;
     uintPattern := uintPattern p; doublePattern := doublePattern p;
     strPattern := strPattern p; timestampPattern := timestampPattern p;
     numMatches := numMatches p; scanSuffixAmount := scanSuffixAmount p;
     beforeContext := 0; afterContext := 0;
     bisect := bisect p; count := count p |}.

Definition requiresKeyMatch (p : Pattern) : bool :=
  match keyPattern p with Some _ => true | None => false end.

Definition matchesKey (p : Pattern) (key : string) : bool :=
  match keyPattern p with
  | None => true
  | Some k => String.eqb k key
  end.

Definition matchesValue_time (p : Pattern) (val : Z) : bool :=
  match timestampPattern p with
  | None => false
  | Some (first, second) => (val >=? first) && (val <? second)
  end.

Definition matchesValue_uint (p : Pattern) (val : Z) : bool :=
  match uintPattern p with
  | None => false
  | Some u => u =? val
  end.

Definition matchesValue_int (p : Pattern) (val : Z) : bool :=
  match intPattern p with
  | None => false
  | Some i => i =? val
  end.

Definition matchesValue_double (p : Pattern) (val : double) : bool :=
  match doublePattern p with
  | None => false
  | Some d => double_eq d val
  end.

(** [sv.find(pattern) != npos]: [pattern] starts at some offset of [sv] (the
    empty pattern is found in every string, at offset 0). *)
Fixpoint contains (sv pat : string) : bool :=
  String.prefix pat sv ||
  match sv with
  | EmptyString => false
  | String _ rest => contains rest pat
  end.

Definition matchesValue_str (p : Pattern) (sv : string) : bool :=
  match strPattern p with
  | None => false
  | Some sp =>
      if fullMatch sp then String.eqb (pattern sp) sv
      else contains sv (pattern sp)
  end.

(** ** GrepHandler.h : [GrepHandler] *)

Module GrepHandler.

Inductive Context : Type := BARE | OBJECT | ARRAY.

Record ContextMarker := {
  context : Context;
  counter : Z;
  checkVal : bool
}.

(** The handler.  [context_] is kept with its [back()] first; [dictionary_] is
    the dictionary [onValue] was given. *)
Record t := {
  str_ : string;
  dictionary_ : list string;
  matched_ : bool;
  less_ : bool;
  context_ : list ContextMarker
}.

Definition matched (h : t) : bool := matched_ h.
Definition recordPrecedesPattern (h : t) : bool := less_ h.

Definition set_context (h : t) (c : list ContextMarker) : t :=
  {| str_ := str_ h; dictionary_ := dictionary_ h; matched_ := matched_ h;
     less_ := less_ h; context_ := c |}.
Definition set_matched (h : t) (b : bool) : t :=
  {| str_ := str_ h; dictionary_ := dictionary_ h; matched_ := b;
     less_ := less_ h; context_ := context_ h |}.
Definition set_less (h : t) (b : bool) : t :=
  {| str_ := str_ h; dictionary_ := dictionary_ h; matched_ := matched_ h;
     less_ := b; context_ := context_ h |}.
Definition set_str (h : t) (s : string) : t :=
  {| str_ := s; dictionary_ := dictionary_ h; matched_ := matched_ h;
     less_ := less_ h; context_ := context_ h |}.

(** [context_.back()]; on an empty vector the behaviour is undefined, which
    every callback below reports as [None]. *)
Definition back (h : t) : option ContextMarker :=
  match context_ h with
  | c :: _ => Some c
  | [] => None
  end.

Definition isKey (h : t) : option bool :=
  match back h with
  | Some c =>
      Some (match context c with OBJECT => counter c mod 2 =? 0 | _ => false end)
  | None => None
  end.

Definition incrCounter (h : t) : option t :=
  match context_ h with
  | c :: rest =>
      Some (set_context h ({| context := context c;
                              counter := wrap64 (counter c + 1);
                              checkVal := checkVal c |} :: rest))
  | [] => None
  end.

(** The first statements of [onValue], lines 124-128 (the value parser then
    drives the callbacks below). *)
Definition onValue_reset (p : Pattern) (dict : list string) (h : t) : t :=
  {| str_ := str_ h; dictionary_ := dict; matched_ := false; less_ := false;
     context_ := [{| context := BARE; counter := 0;
                     checkVal := negb (requiresKeyMatch p) |}] |}.

Definition onNull (h : t) : option t := incrCounter h.
Definition onBool (h : t) : option t := incrCounter h.

Definition onInt (p : Pattern) (value : Z) (h : t) : option t :=
  match back h with
  | None => None
  | Some c =>
      let h1 := if checkVal c && matchesValue_int p value
                then set_matched h true else h in
      let h2 := if checkVal c &&
                   match intPattern p with
                   | Some q => value <? q
                   | None => false
                   end
                then set_less h1 true else h1 in
      incrCounter h2
  end.

Definition onUint (p : Pattern) (value : Z) (h : t) : option t :=
  match back h with
  | None => None
  | Some c =>
      let h1 := if checkVal c && matchesValue_uint p value
                then set_matched h true else h in
      let h2 := if checkVal c &&
                   match uintPattern p with
                   | Some q => value <? q
                   | None => false
                   end
                then set_less h1 true else h1 in
      incrCounter h2
  end.

Definition onTime (p : Pattern) (value : Z) (h : t) : option t :=
  match back h with
  | None => None
  | Some c =>
      let h1 := if checkVal c && matchesValue_time p value
                then set_matched h true else h in
      let h2 := if checkVal c &&
                   match timestampPattern p with
                   | Some (first, _) => value <? first
                   | None => false
                   end
                then set_less h1 true else h1 in
      incrCounter h2
  end.

Definition onDouble (p : Pattern) (value : double) (h : t) : option t :=
  match back h with
  | None => None
  | Some c =>
      incrCounter (if checkVal c && matchesValue_double p value
                   then set_matched h true else h)
  end.

(** [checkString], lines 237-245. *)
Definition checkString (p : Pattern) (sv : string) (h : t) : option t :=
  match isKey h, context_ h with
  | Some true, c :: rest =>
      Some (set_context h ({| context := context c; counter := counter c;
                              checkVal := matchesKey p sv |} :: rest))
  | Some false, c :: _ =>
      Some (if checkVal c && matchesValue_str p sv
            then set_matched h true else h)
  | _, _ => None
  end.

(** [assert(dictIdx < dictionary_->size())]: an index out of range ends the
    run ([None]). *)
Definition onDictRef (p : Pattern) (dictIdx : nat) (h : t) : option t :=
  match nth_error (dictionary_ h) dictIdx with
  | Some s =>
      match checkString p s h with
      | Some h' => incrCounter h'
      | None => None
      end
  | None => None
  end.

Definition onObjectStart (h : t) : option t :=
  Some (set_context h ({| context := OBJECT; counter := 0; checkVal := false |}
                       :: context_ h)).

Definition pop_back (h : t) : option t :=
  match context_ h with
  | _ :: rest => Some (set_context h rest)
  | [] => None
  end.

Definition onObjectEnd (h : t) : option t :=
  match pop_back h with
  | Some h' => incrCounter h'
  | None => None
  end.

Definition onArrayStart (h : t) : option t :=
  match back h with
  | Some c =>
      Some (set_context h ({| context := ARRAY; counter := 0;
                              checkVal := checkVal c |} :: context_ h))
  | None => None
  end.

Definition onArrayEnd (h : t) : option t :=
  match pop_back h with
  | Some h' => incrCounter h'
  | None => None
  end.

(** The guard shared by [onStringStart] and [onStringFragment]: the string is
    only collected when it can matter. *)
Definition collects (p : Pattern) (h : t) : option bool :=
  match strPattern p with
  | Some _ => Some true
  | None =>
      if requiresKeyMatch p then isKey h else Some false
  end.

Definition onStringStart (p : Pattern) (len : Z) (h : t) : option t :=
  match collects p h with
  | Some true => Some (set_str h "")
  | Some false => Some h
  | None => None
  end.

Definition onStringFragment (p : Pattern) (frag : string) (h : t) : option t :=
  match collects p h with
  | Some true => Some (set_str h (String.append (str_ h) frag))
  | Some false => Some h
  | None => None
  end.

Definition onStringEnd (p : Pattern) (h : t) : option t :=
  match checkString p (str_ h) h with
  | Some h' => incrCounter h'
  | None => None
  end.

(** The callbacks of the value parser (the position arguments, which the
    handler ignores, are left out). *)
Inductive Event : Type :=
| EvNull
| EvBool (b : bool)
| EvInt (value : Z)
| EvUint (value : Z)
| EvTime (value : Z)
| EvDouble (value : double)
| EvDictRef (dictIdx : nat)
| EvObjectStart
| EvObjectEnd
| EvArrayStart
| EvArrayEnd
| EvStringStart (len : Z)
| EvStringFragment (frag : string)
| EvStringEnd.

Definition handle (p : Pattern) (ev : Event) (h : t) : option t :=
  match ev with
  | EvNull => onNull h
  | EvBool _ => onBool h
  | EvInt v => onInt p v h
  | EvUint v => onUint p v h
  | EvTime v => onTime p v h
  | EvDouble v => onDouble p v h
  | EvDictRef i => onDictRef p i h
  | EvObjectStart => onObjectStart h
  | EvObjectEnd => onObjectEnd h
  | EvArrayStart => onArrayStart h
  | EvArrayEnd => onArrayEnd h
  | EvStringStart len => onStringStart p len h
  | EvStringFragment frag => onStringFragment p frag h
  | EvStringEnd => onStringEnd p h
  end.

Fixpoint run (p : Pattern) (evs : list Event) (h : t) : option t :=
  match evs with
  | [] => Some h
  | ev :: rest =>
      match handle p ev h with
      | Some h' => run p rest h'
      | None => None
      end
  end.

(** A handler as constructed, line 105-109. *)
Definition new : t :=
  {| str_ := ""; dictionary_ := []; matched_ := false; less_ := false;
     context_ := [] |}.

End GrepHandler.

(** ** Value trees and the callbacks of the value parser *)

(** Modelled from the spec: the value parser ([ValueParser] of au/AuDecoder.h)
    is not among the sources.  Section 3 gives the value universe (a string is
    inline or a dictionary reference, an object is an ordered sequence of
    key-string/value pairs); section 4.5 gives the callbacks inside a value and
    the delivery of an inline string as a start, fragments and an end; section
    4.7: inside an object, even-indexed elements are keys, odd-indexed elements
    are values. *)
Inductive Str : Type :=
| Inline (frags : list string)
| DictRef (dictIdx : nat).

Unset Elimination Schemes.
Inductive Value : Type :=
| VNull
| VBool (b : bool)
| VInt (value : Z)
| VUint (value : Z)
| VDouble (value : double)
| VTime (value : Z)
| VString (s : Str)
| VArray (elements : list Value)
| VObject (members : list (Str * Value)).
Set Elimination Schemes.

Definition events_of_str (s : Str) : list GrepHandler.Event :=
  match s with
  | Inline frags =>
      GrepHandler.EvStringStart
        (Z.of_nat (String.length (String.concat "" frags)))
      :: map GrepHandler.EvStringFragment frags ++ [GrepHandler.EvStringEnd]
  | DictRef i => [GrepHandler.EvDictRef i]
  end.

Fixpoint events_of (v : Value) : list GrepHandler.Event :=
  match v with
  | VNull => [GrepHandler.EvNull]
  | VBool b => [GrepHandler.EvBool b]
  | VInt z => [GrepHandler.EvInt z]
  | VUint z => [GrepHandler.EvUint z]
  | VDouble d => [GrepHandler.EvDouble d]
  | VTime z => [GrepHandler.EvTime z]
  | VString s => events_of_str s
  | VArray vs =>
      GrepHandler.EvArrayStart :: flat_map events_of vs
      ++ [GrepHandler.EvArrayEnd]
  | VObject kvs =>
      GrepHandler.EvObjectStart
      :: flat_map (fun kv => events_of_str (fst kv) ++ events_of (snd kv)) kvs
      ++ [GrepHandler.EvObjectEnd]
  end.

(** The string a [Str] stands for, under a dictionary. *)
Definition text (dict : list string) (s : Str) : string :=
  match s with
  | Inline frags => String.concat "" frags
  | DictRef i => nth i dict ""
  end.

(** Every dictionary reference of the value is in range. *)
Definition str_in_range (dict : list string) (s : Str) : bool :=
  match s with
  | Inline _ => true
  | DictRef i => Nat.ltb i (List.length dict)
  end.

Fixpoint in_range (dict : list string) (v : Value) : bool :=
  match v with
  | VString s => str_in_range dict s
  | VArray vs => forallb (in_range dict) vs
  | VObject kvs =>
      forallb (fun kv => str_in_range dict (fst kv) && in_range dict (snd kv)) kvs
  | _ => true
  end.

(** [GrepHandler::onValue]: reset, then the callbacks of the value. *)
Definition onValue (p : Pattern) (dict : list string) (v : Value)
  (h : GrepHandler.t) : option GrepHandler.t :=
  GrepHandler.run p (events_of v) (GrepHandler.onValue_reset p dict h).

(** *** Which scalars the handler looks at *)

Definition is_scalar (v : Value) : bool :=
  match v with
  | VArray _ | VObject _ => false
  | _ => true
  end.

(** [checked p dict chk v leaf]: [leaf] is a scalar of [v] that the handler
    compares with the pattern, [chk] being [check_values_here] where [v]
    starts.  Elements of an array are checked as the array is; the members of
    an object are checked according to their own key, whatever held outside. *)
Inductive checked (p : Pattern) (dict : list string)
  : bool -> Value -> Value -> Prop :=
| checked_scalar v :
    is_scalar v = true -> checked p dict true v v
| checked_element chk vs v leaf :
    In v vs -> checked p dict chk v leaf ->
    checked p dict chk (VArray vs) leaf
| checked_member chk kvs k v leaf :
    In (k, v) kvs -> checked p dict (matchesKey p (text dict k)) v leaf ->
    checked p dict chk (VObject kvs) leaf.

(** [inside v leaf]: the scalar [leaf] occurs somewhere in [v]. *)
Inductive inside : Value -> Value -> Prop :=
| inside_scalar v : is_scalar v = true -> inside v v
| inside_element vs v leaf :
    In v vs -> inside v leaf -> inside (VArray vs) leaf
| inside_member kvs k v leaf :
    In (k, v) kvs -> inside v leaf -> inside (VObject kvs) leaf.

(** A scalar that matches the pattern's value ([matchesValue]). *)
Definition leaf_matches (p : Pattern) (dict : list string) (v : Value) : bool :=
  match v with
  | VInt z => matchesValue_int p z
  | VUint z => matchesValue_uint p z
  | VDouble d => matchesValue_double p d
  | VTime z => matchesValue_time p z
  | VString s => matchesValue_str p (text dict s)
  | _ => false
  end.

(** A scalar that is an integer, unsigned or timestamp value strictly below
    the low bound of the query of its kind. *)
Definition leaf_precedes (p : Pattern) (v : Value) : bool :=
  match v with
  | VInt z => match intPattern p with Some q => z <? q | None => false end
  | VUint z => match uintPattern p with Some q => z <? q | None => false end
  | VTime z =>
      match timestampPattern p with
      | Some (first, _) => z <? first
      | None => false
      end
  | _ => false
  end.

(** The same as a function: does some checked scalar of [v] satisfy [hit]? *)
Fixpoint scan (p : Pattern) (dict : list string) (hit : Value -> bool)
  (chk : bool) (v : Value) : bool :=
  match v with
  | VArray vs => existsb (scan p dict hit chk) vs
  | VObject kvs =>
      existsb (fun kv => scan p dict hit (matchesKey p (text dict (fst kv)))
                           (snd kv)) kvs
  | _ => chk && hit v
  end.

(** *** Checked values, callback by callback *)




(** [au grep -k k -u 5] on the record [{"k": {"a": 5}}]. *)
Definition key_k_uint_5 : Pattern :=
  {| keyPattern := Some "k"; intPattern := None; uintPattern := Some 5;
     doublePattern := None; strPattern := None; timestampPattern := None;
     numMatches := None; scanSuffixAmount := None;
     beforeContext := 0; afterContext := 0; bisect := false; count := false |}.

Definition nested_object_record : Value :=
  VObject [(Inline ["k"], VObject [(Inline ["a"], VUint 5)])].

Definition nested_array_record : Value :=
  VObject [(Inline ["k"], VArray [VArray [VUint 4]; VUint 5])].

(** ** GrepHandler.h : the grep and bisect drivers *)

Module Grep.

(** The record handlers a [RecordParser] is run with: the one of [doBisect]
    (around its own [GrepHandler]), and the two of [reallyDoGrep]. *)
Inductive Handler : Type :=
| bisectRecordHandler
| recordHandler
| outputHandler.

(** What a driver does to the outside, in the order it does it. *)
Inductive Event : Type :=
| EvSeek (abspos : Z)          (* source.seek(abspos) *)
| EvSync                       (* TailHandler(dictionary, source).sync() *)
| EvParse (h : Handler)        (* RecordParser(source, h).parseUntilValue() *)
| EvPrint (o : Output).

(** A call into code that is not part of these sources either returns or
    throws. *)
Inductive Result (A : Type) : Type :=
| Ok (a : A)
| Raise (e : Exn).
Arguments Ok {A} a.
Arguments Raise {A} e.

(** The byte source, the record parser with its handlers and dictionary, and
    the [THROW] macro, over a state [W] of their own. *)
Record Env (W : Type) := {
  endPos : W -> Result Z * W;
  pos : W -> Z;
  peek_is_EOF : W -> Result bool * W;        (* source.peek() == EOF *)
  seek : Z -> W -> Result unit * W;
  sync : W -> Result bool * W;
  parseUntilValue : Handler -> W -> Result bool * W;
  matched : W -> bool;                  (* grepHandler.matched() in reallyDoGrep *)
  recordPrecedesPattern : W -> bool;    (* grepHandler.recordPrecedesPattern() in doBisect *)
  THROW : string -> Exn
}.
Arguments endPos {W}. Arguments pos {W}. Arguments peek_is_EOF {W}.
Arguments seek {W}. Arguments sync {W}. Arguments parseUntilValue {W}.
Arguments matched {W}. Arguments recordPrecedesPattern {W}.
Arguments THROW {W}.

Section Drivers.
Context {W : Type} (env : Env W).

(** The state the drivers run in; [trace] has the most recent event first. *)
Record State := {
  world : W;
  trace : list Event
}.

Inductive Outcome (A : Type) : Type :=
| Returned (a : A)
| Thrown (e : Exn)
| OutOfFuel.
Arguments Returned {A} a.
Arguments Thrown {A} e.
Arguments OutOfFuel {A}.

Definition M (A : Type) : Type := State -> Outcome A * State.

Definition ret {A} (a : A) : M A := fun st => (Returned a, st).
Definition throw {A} (e : Exn) : M A := fun st => (Thrown e, st).
Definition out_of_fuel {A} : M A := fun st => (OutOfFuel, st).
Definition bind {A B} (m : M A) (k : A -> M B) : M B :=
  fun st =>
    match m st with
    | (Returned a, st') => k a st'
    | (Thrown e, st') => (Thrown e, st')
    | (OutOfFuel, st') => (OutOfFuel, st')
    end.

Notation "x <- m ;; k" := (bind m (fun x => k))
  (at level 61, m at next level, right associativity).
Notation "m ;;; k" := (bind m (fun _ => k))
  (at level 61, right associativity).

Definition log (ev : Event) : M unit :=
  fun st => (Returned tt, {| world := world st; trace := ev :: trace st |}).

(** A call into the environment, logged as [ev] before it is made. *)
Definition call {A} (ev : option Event) (f : W -> Result A * W) : M A :=
  fun st =>
    let tr := match ev with Some e => e :: trace st | None => trace st end in
    match f (world st) with
    | (Ok a, w) => (Returned a, {| world := w; trace := tr |})
    | (Raise e, w) => (Thrown e, {| world := w; trace := tr |})
    end.

Definition print (ch : Channel) (text : string) : M unit :=
  log (EvPrint (Print ch text)).

(** [try { body } catch (parse_error &e) { std::cerr << e.what() << std::endl; }] *)
Definition try_catch_parse_error (body : M unit) : M unit :=
  fun st =>
    match body st with
    | (Thrown (parse_error what), st') => print Cerr (cat [what; nl]) st'
    | r => r
    end.

Definition source_pos : M Z := fun st => (Returned (pos env (world st)), st).
Definition source_peek_is_EOF : M bool := call None (peek_is_EOF env).
Definition source_seek (abspos : Z) : M unit :=
  call (Some (EvSeek abspos)) (seek env abspos).
Definition tail_sync : M bool := call (Some EvSync) (sync env).
Definition parse (h : Handler) : M bool :=
  call (Some (EvParse h)) (parseUntilValue env h).
Definition grep_matched : M bool :=
  fun st => (Returned (matched env (world st)), st).
Definition grep_recordPrecedesPattern : M bool :=
  fun st => (Returned (recordPrecedesPattern env (world st)), st).

Definition size_t_max : Z := 2 ^ 64 - 1.
Definition wrap32 (z : Z) : Z := z mod 2 ^ 32.

(** [while (!posBuffer.empty()) { RecordParser(source, outputHandler)
    .parseUntilValue(); posBuffer.pop_back(); }] *)
Fixpoint replay (posBuffer : list Z) : M unit :=
  match posBuffer with
  | [] => ret tt
  | _ :: rest => parse outputHandler ;;; replay rest
  end.

(** The [while (source.peek() != EOF)] loop of [reallyDoGrep], lines 271-299;
    it returns [total].  [posBuffer] has its [front()] first. *)
Fixpoint grep_loop (fuel : nat) (p : Pattern) (numMatches suffixLength : Z)
  (posBuffer : list Z) (force total matchPos : Z) : M Z :=
  match fuel with
  | O => out_of_fuel
  | S fuel' =>
      eof <- source_peek_is_EOF ;;
      if eof : bool then ret total else
      here <- source_pos ;;
      if (force =? 0) &&
         ((total >=? numMatches) || (wrap64 (here - matchPos) >? suffixLength))
      then ret total
      else
        let posBuffer1 :=
          if negb (count p) &&
             (Z.of_nat (List.length posBuffer) =? wrap32 (beforeContext p + 1))
          then tl posBuffer else posBuffer in
        let posBuffer2 := posBuffer1 ++ [here] in
        ok <- parse recordHandler ;;
        if negb ok then ret total else
        m <- grep_matched ;;
        if m && (total <? numMatches) then
          let matchPos' := last posBuffer2 0 in
          let total' := wrap64 (total + 1) in
          if count p
          then grep_loop fuel' p numMatches suffixLength posBuffer2
                 force total' matchPos'
          else
            source_seek (hd 0 posBuffer2) ;;;
            replay posBuffer2 ;;;
            grep_loop fuel' p numMatches suffixLength []
              (afterContext p) total' matchPos'
        else if negb (force =? 0) then
          source_seek (last posBuffer2 0) ;;;
          parse outputHandler ;;;
          grep_loop fuel' p numMatches suffixLength posBuffer2
            (force - 1) total matchPos
        else
          grep_loop fuel' p numMatches suffixLength posBuffer2
            force total matchPos
  end.

(** The [try] block of [reallyDoGrep], lines 261-303. *)
Definition reallyDoGrep_body (fuel : nat) (p : Pattern) : M unit :=
  matchPos <- source_pos ;;
  let numMatches' :=
    match numMatches p with Some n => n | None => size_t_max end in
  let suffixLength :=
    match scanSuffixAmount p with Some n => n | None => size_t_max end in
  total <- grep_loop fuel p numMatches' suffixLength [] 0 0 matchPos ;;
  if count p then print Cout (cat [decimal total; nl]) else ret tt.

(** [void reallyDoGrep(Pattern &, Dictionary &, FileByteSource &)]. *)
Definition reallyDoGrep (fuel : nat) (p : Pattern) : M unit :=
  let p' := if count p then clear_context p else p in
  try_catch_parse_error (reallyDoGrep_body fuel p').

(** [void seekSync(TailByteSource &, Dictionary &, size_t pos)]. *)
Definition seekSync (abspos : Z) : M unit :=
  source_seek abspos ;;;
  ok <- tail_sync ;;
  if ok : bool then ret tt
  else throw (THROW env (cat ["Failed to find record at position ";
                              decimal abspos])).

Definition SCAN_THRESHOLD : Z := 256 * 1024.
Definition PREFIX_AMOUNT : Z := 512 * 1024.
Definition SUFFIX_AMOUNT : Z := SCAN_THRESHOLD + PREFIX_AMOUNT + 266 * 1024.

(** The [while (end > start)] loop of [doBisect], lines 338-362.  [gfuel] is
    the fuel of the final [reallyDoGrep]. *)
Fixpoint bisect_loop (fuel gfuel : nat) (p : Pattern) (start end_ : Z)
  : M unit :=
  match fuel with
  | O => out_of_fuel
  | S fuel' =>
      if end_ >? start then
        if wrap64 (end_ - start) <=? SCAN_THRESHOLD then
          seekSync (if start >? PREFIX_AMOUNT
                    then wrap64 (start - PREFIX_AMOUNT) else 0) ;;;
          reallyDoGrep gfuel (set_scanSuffixAmount p SUFFIX_AMOUNT)
        else
          let next := wrap64 (start + wrap64 (end_ - start) / 2) in
          seekSync next ;;;
          sor <- source_pos ;;
          ok <- parse bisectRecordHandler ;;
          if negb ok then ret tt
          else
            less <- grep_recordPrecedesPattern ;;
            if less : bool
            then bisect_loop fuel' gfuel p sor end_
            else bisect_loop fuel' gfuel p start sor
      else ret tt
  end.

(** [void doBisect(Pattern &, const std::string &)], lines 317-366. *)
Definition doBisect (fuel gfuel : nat) (p : Pattern) : M unit :=
  try_catch_parse_error
    (end_ <- call None (endPos env) ;;
     bisect_loop fuel gfuel p 0 end_).

(** [void doGrep(Pattern &, const std::string &)]. *)
Definition doGrep (fuel gfuel : nat) (p : Pattern) : M unit :=
  if bisect p then doBisect fuel gfuel p else reallyDoGrep gfuel p.

End Drivers.

Arguments Returned {A} a.
Arguments Thrown {A} e.
Arguments OutOfFuel {A}.

End Grep.

(** ** Stats.cpp : the parser runs of one invocation *)

(** The runs of [parseStream] that [decode_all] makes, in order: one per file
    until a call of [decode] is cut short. *)
Fixpoint stats_runs (e : Stats.Env) (files : list string)
  (handler : Stats.SmallIntRecordHandler) : list Stats.ParseRun :=
  match files with
  | [] => []
  | f :: rest =>
      Stats.parseStream e f handler ::
      match Stats.decode e f handler with
      | (_, inl handler') => stats_runs e rest handler'
      | (_, inr _) => []
      end
  end.

(** The files [stats] decodes: the standard input when none is named. *)
Definition stats_files (fileNames : list string) : list string :=
  match fileNames with [] => ["-"] | _ :: _ => fileNames end.


(** ** Concrete inputs for the examples *)


(** An empty file behind a source on which nothing fails. *)
Definition empty_file_env : Grep.Env unit :=
  {| Grep.endPos := fun w => (Grep.Ok 0, w);
     Grep.pos := fun _ => 0;
     Grep.peek_is_EOF := fun w => (Grep.Ok true, w);
     Grep.seek := fun _ w => (Grep.Ok tt, w);
     Grep.sync := fun w => (Grep.Ok false, w);
     Grep.parseUntilValue := fun _ w => (Grep.Ok false, w);
     Grep.matched := fun _ => false;
     Grep.recordPrecedesPattern := fun _ => false;
     Grep.THROW := parse_error |}.

(** [au grep -c -u 7 --bisect]. *)
Definition count_uint7 : Pattern :=
  {| keyPattern := None; intPattern := None; uintPattern := Some 7;
     doublePattern := None; strPattern := None; timestampPattern := None;
     numMatches := None; scanSuffixAmount := None;
     beforeContext := 0; afterContext := 0; bisect := true; count := true |}.

(** A file of 1 MiB of records of 64 bytes each, the record at offset [o]
    holding the key [o / 64]; the world is the position of the source. *)
Definition records_env (query : Z) : Grep.Env Z :=
  {| Grep.endPos := fun w => (Grep.Ok (1024 * 1024), w);
     Grep.pos := fun w => w;
     Grep.peek_is_EOF := fun w => (Grep.Ok (w >=? 1024 * 1024), w);
     Grep.seek := fun abspos _ => (Grep.Ok tt, abspos);
     Grep.sync := fun w => (Grep.Ok (w <? 1024 * 1024), (w + 63) / 64 * 64);
     Grep.parseUntilValue := fun _ w =>
       (Grep.Ok (w <? 1024 * 1024), if w <? 1024 * 1024 then w + 64 else w);
     Grep.matched := fun w => (w - 64) / 64 =? query;
     Grep.recordPrecedesPattern := fun w => (w - 64) / 64 <? query;
     Grep.THROW := parse_error |}.

(** ** The byte source: history, invariant, operations of a reader *)

(** The retained history of the buffer: the positions of the consumed bytes
    that are still in the buffer, behind the cursor. *)
Definition in_history (s : FileByteSource.t) (abspos : Z) : Prop :=
  FileByteSource.pos_ s - FileByteSource.cur_ s <= abspos
  /\ abspos < FileByteSource.pos_ s.

(** A stream of the given bytes at offset 0, handing over at most [k] bytes
    per [read(2)]. *)
Definition stream_of (content : string) (k : Z) : FileByteSource.Stream :=
  {| FileByteSource.data := list_ascii_of_string content;
     FileByteSource.offset := 0;
     FileByteSource.seekable := true;
     FileByteSource.chunk := fun _ _ => k;
     FileByteSource.read_fails := fun _ => false;
     FileByteSource.syscalls := [] |}.

(** The buffer is a window of the file: it holds the bytes of the positions
    [pos_ - cur_, pos_ - cur_ + limit_), the kernel's offset is at the end of
    that window, and the cursor is inside it. *)
Definition window (s : FileByteSource.t) : Prop :=
  let file := FileByteSource.data (FileByteSource.stream s) in
  0 <= FileByteSource.cur_ s <= FileByteSource.limit_ s /\
  FileByteSource.cur_ s <= FileByteSource.pos_ s /\
  FileByteSource.offset (FileByteSource.stream s)
  = FileByteSource.pos_ s - FileByteSource.cur_ s + FileByteSource.limit_ s /\
  FileByteSource.offset (FileByteSource.stream s) <= FileByteSource.zlength file /\
  FileByteSource.zlength file < 2 ^ 64 /\
  FileByteSource.buf_ s
  = FileByteSource.slice file (FileByteSource.pos_ s - FileByteSource.cur_ s)
      (FileByteSource.limit_ s).

(** The pin is set at [P], and [P] is not before the start of the buffer. *)
Definition pinned (P : Z) (s : FileByteSource.t) : Prop :=
  FileByteSource.pinPos_ s = Some P /\
  FileByteSource.pos_ s - FileByteSource.cur_ s <= P.

(** The operations of a reader between [setPin] and [seek]. *)
Inductive ReaderOp : Type :=
| op_next
| op_peek
| op_read_exact (len : Z).

Definition run_op (fuel : nat) (op : ReaderOp) (s : FileByteSource.t)
  : FileByteSource.Res unit :=
  match op with
  | op_next =>
      match FileByteSource.next fuel s with
      | FileByteSource.Ok _ s' => FileByteSource.Ok tt s'
      | FileByteSource.Throw e s' => FileByteSource.Throw e s'
      | FileByteSource.Blocked s' => FileByteSource.Blocked s'
      | FileByteSource.NoFuel => FileByteSource.NoFuel
      end
  | op_peek =>
      match FileByteSource.peek fuel s with
      | FileByteSource.Ok _ s' => FileByteSource.Ok tt s'
      | FileByteSource.Throw e s' => FileByteSource.Throw e s'
      | FileByteSource.Blocked s' => FileByteSource.Blocked s'
      | FileByteSource.NoFuel => FileByteSource.NoFuel
      end
  | op_read_exact len =>
      match FileByteSource.readFunc fuel len s [] with
      | FileByteSource.Ok _ s' => FileByteSource.Ok tt s'
      | FileByteSource.Throw e s' => FileByteSource.Throw e s'
      | FileByteSource.Blocked s' => FileByteSource.Blocked s'
      | FileByteSource.NoFuel => FileByteSource.NoFuel
      end
  end.

Fixpoint run_ops (fuel : nat) (ops : list ReaderOp) (s : FileByteSource.t)
  : FileByteSource.Res unit :=
  match ops with
  | [] => FileByteSource.Ok tt s
  | op :: rest =>
      match run_op fuel op s with
      | FileByteSource.Ok _ s' => run_ops fuel rest s'
      | r => r
      end
  end.


(** A source on the six bytes [abcdef] after a first [peek]. *)
Definition peeked_source : FileByteSource.t :=
  match FileByteSource.peek 5
          (FileByteSource.new (stream_of "abcdef" 4) false 256) with
  | FileByteSource.Ok _ s => s
  | _ => FileByteSource.new (stream_of "abcdef" 4) false 256
  end.

(** The same source with a pin at 0, after reading three bytes. *)
Definition consumed_source : FileByteSource.t :=
  match run_ops 5 [op_next; op_peek; op_read_exact 2]
          (FileByteSource.setPin 0 peeked_source) with
  | FileByteSource.Ok _ s => s
  | _ => peeked_source
  end.

(** [needle] occurs in the file at the absolute position [q]. *)
Definition occurs_at (file needle : list FileByteSource.byte) (q : Z) : Prop :=
  0 <= q /\
  FileByteSource.slice file q (FileByteSource.zlength needle) = needle.

(** A plain file read without waiting: [lseek] and [read(2)] never fail on it,
    and the working buffer (which grows by [INIT_BUFFER_SIZE] at a time, never
    beyond the file by more than that) stays within the range of [size_t]. *)
Definition plain_file (s : FileByteSource.t) : Prop :=
  let len := FileByteSource.zlength (FileByteSource.data (FileByteSource.stream s)) in
  0 < FileByteSource.INIT_BUFFER_SIZE s /\
  FileByteSource.limit_ s <= FileByteSource.bufSize_ s /\
  FileByteSource.bufSize_ s
  <= Z.max len (FileByteSource.INIT_BUFFER_SIZE s)
     + FileByteSource.INIT_BUFFER_SIZE s /\
  Z.max len (FileByteSource.INIT_BUFFER_SIZE s)
  + 2 * FileByteSource.INIT_BUFFER_SIZE s < 2 ^ 64 /\
  len < 2 ^ 63 /\
  FileByteSource.waitForData_ s = false /\
  FileByteSource.seekable (FileByteSource.stream s) = true /\
  (forall o, FileByteSource.read_fails (FileByteSource.stream s) o = false).

(** No occurrence of [needle] starts at or after the position [P]. *)
Definition absent_from (file needle : list FileByteSource.byte) (P : Z) : Prop :=
  forall q, P <= q -> ~ occurs_at file needle q.

(** ** Predicates used to state what the handler and the source preserve *)

(** The marker on top of the stack after a value: the same marker, one
    element further. *)
Definition bump (c : GrepHandler.ContextMarker) : GrepHandler.ContextMarker :=
  {| GrepHandler.context := GrepHandler.context c;
     GrepHandler.counter := wrap64 (GrepHandler.counter c + 1);
     GrepHandler.checkVal := GrepHandler.checkVal c |}.

(** The marker of an object after one of its keys. *)
Definition keyed (c : GrepHandler.ContextMarker) (b : bool)
  : GrepHandler.ContextMarker :=
  {| GrepHandler.context := GrepHandler.context c;
     GrepHandler.counter := wrap64 (GrepHandler.counter c + 1);
     GrepHandler.checkVal := b |}.

(** [h'] is [h] with a new top marker and with the flags raised by [m], [l]. *)
Definition steps_to (h h' : GrepHandler.t) (top : GrepHandler.ContextMarker)
  (cs : list GrepHandler.ContextMarker) (m l : bool) : Prop :=
  GrepHandler.dictionary_ h' = GrepHandler.dictionary_ h /\
  GrepHandler.context_ h' = top :: cs /\
  GrepHandler.matched_ h' = GrepHandler.matched_ h || m /\
  GrepHandler.less_ h' = GrepHandler.less_ h || l.

(** The next element is a value ([isKey()] is false), or a key. *)
Definition at_value (c : GrepHandler.ContextMarker) : Prop :=
  match GrepHandler.context c with
  | GrepHandler.OBJECT => GrepHandler.counter c mod 2 =? 0
  | _ => false
  end = false.

Definition at_key (c : GrepHandler.ContextMarker) : Prop :=
  match GrepHandler.context c with
  | GrepHandler.OBJECT => GrepHandler.counter c mod 2 =? 0
  | _ => false
  end = true.

(** What the handler does on a whole value, in terms of [scan]. *)
Definition value_spec (p : Pattern) (dict : list string) (v : Value) : Prop :=
  in_range dict v = true ->
  forall h c cs,
    GrepHandler.dictionary_ h = dict ->
    GrepHandler.context_ h = c :: cs ->
    at_value c ->
    exists h',
      GrepHandler.run p (events_of v) h = Some h' /\
      steps_to h h' (bump c) cs
        (scan p dict (leaf_matches p dict) (GrepHandler.checkVal c) v)
        (scan p dict (leaf_precedes p) (GrepHandler.checkVal c) v).

(** [s'] is a later state of the reader [s]: still a window of the same file,
    not behind [s], with the pin of [s] and the history it asks for. *)
Definition keeps (s s' : FileByteSource.t) : Prop :=
  window s' /\
  FileByteSource.data (FileByteSource.stream s')
  = FileByteSource.data (FileByteSource.stream s) /\
  FileByteSource.pos_ s <= FileByteSource.pos_ s' /\
  FileByteSource.pinPos_ s' = FileByteSource.pinPos_ s /\
  (forall P, pinned P s -> pinned P s').

(** [au json2au in.json out.au] on an input whose third document is
    malformed (rapidjson's code 3, [kParseErrorValueInvalid]). *)
Definition json2au_env0 : Json2Au.Env :=
  {| Json2Au.open_input := fun _ => true;
     Json2Au.open_output := fun _ => true;
     Json2Au.parses := [0; 0; 3] |}.

Definition json2au_args0 : Json2Au.Args :=
  {| Json2Au.argv := ["au"; "json2au"; "in.json"; "out.au"];
     Json2Au.strtoull_arg := fun _ => 10 |}.

(** ** Reading a commafied number back *)

Definition digit_value (c : ascii) : Z := Z.of_nat (nat_of_ascii c) - 48.

(** One more character of a number written with thousands separators: a comma
    leaves the number as it is, a digit is appended to it. *)
Definition read_char (acc : Z) (c : ascii) : Z :=
  if Ascii.eqb c "," then acc else 10 * acc + digit_value c.

(** The number a text of digits and commas stands for, read from the left. *)
Definition uncommafy (s : string) : Z :=
  fold_left read_char (list_ascii_of_string s) 0.

(** The same reading of a buffer that holds the characters least significant
    first, in front of the digits of [rest]. *)
Definition lsd_value (buf : list ascii) (rest : Z) : Z :=
  fold_right (fun c acc => read_char acc c) rest buf.

(** Counted from the right (position 0 is the last character), the positions
    3, 7, 11, ... hold a comma and every other position holds a digit. *)
Definition grouped (lsd : list ascii) : Prop :=
  forall k : nat, (k < List.length lsd)%nat ->
    if Z.of_nat k mod 4 =? 3
    then nth k lsd "0"%char = ","%char
    else JsonSaxHandler.is_digit (nth k lsd "0"%char) = true.

(** The length of the buffer of [commafy] once [i] digits are in it. *)
Definition groups_length (i : Z) : Z :=
  i + (if i =? 0 then 0 else (i - 1) / 3).

(** ** Stats.cpp : a file without integers *)

(** [au stats empty.au] on a file in which the parser finds no value. *)
Definition stats_env_no_ints : Stats.Env :=
  {| Stats.cmd_parse := fun _ => Stats.Parsed ["empty.au"];
     Stats.parseStream := fun _ h =>
       {| Stats.after := h; Stats.printed_by_callbacks := [];
          Stats.source_pos := 0; Stats.raised := None |};
     Stats.prettyBytes := fun _ => "0 bytes" |}.

(** ** Json2Au.cpp : [JsonSaxHandler], every callback *)

Module SaxHandler.

(** The calls made on the [AuWriter]; the writer itself (au/AuEncoder.h) is
    not among the sources.  [value] carries the two calls [tryTime] and
    [String] make. *)
Inductive Call : Type :=
| null
| value_bool (b : bool)
| value_int (i : Z)
| value_uint (u : Z)
| value_double (d : double)
| value (c : JsonSaxHandler.WriterCall)
| startMap
| endMap
| startArray
| endArray.

(** The two fields the callbacks assign: [std::optional<bool> intern_] and
    [bool toInt_]. *)
Record t := {
  intern_ : option bool;
  toInt_ : bool
}.

(** The constructor, lines 87-94: [toInt_(false)], [intern_] empty. *)
Definition new : t := {| intern_ := None; toInt_ := false |}.

Definition NUL : ascii := Ascii.zero.

(** A character array ends with a NUL. *)
Definition char0 (s : string) : ascii :=
  match s with String c _ => c | EmptyString => NUL end.

Definition chars_after0 (s : string) : string :=
  match s with String _ rest => rest | EmptyString => EmptyString end.

(** [0 == strncmp(s1, s2, n)]: the arrays agree on their first [n] characters,
    or up to and including a NUL before that. *)
Fixpoint strncmp_is_0 (s1 s2 : string) (n : nat) : bool :=
  match n with
  | O => true
  | S n' =>
      if Ascii.eqb (char0 s1) (char0 s2) then
        if Ascii.eqb (char0 s1) NUL then true
        else strncmp_is_0 (chars_after0 s1) (chars_after0 s2) n'
      else false
  end.

Definition Null (h : t) : list Call * t := ([null], h).
Definition Bool (b : bool) (h : t) : list Call * t := ([value_bool b], h).
Definition Int (i : Z) (h : t) : list Call * t := ([value_int i], h).
Definition Uint (u : Z) (h : t) : list Call * t := ([value_uint u], h).
Definition Int64 (i : Z) (h : t) : list Call * t := ([value_int i], h).
Definition Uint64 (u : Z) (h : t) : list Call * t := ([value_uint u], h).
Definition Double (d : double) (h : t) : list Call * t := ([value_double d], h).

(** [bool String(const char *str, SizeType length, bool)], lines 104-114.
    [tryInt] (lines 28-51) is a parameter: [Some c] is the call it makes on
    the writer when it returns true. *)
Definition String_ (tryInt : string -> option Call) (str : string) (h : t)
  : list Call * t :=
  let plain (h' : t) : list Call * t :=
    ([value (JsonSaxHandler.value_string str (intern_ h'))],
     {| intern_ := None; toInt_ := toInt_ h' |}) in
  if toInt_ h then
    let h1 := {| intern_ := intern_ h; toInt_ := false |} in
    match tryInt str with
    | Some c => ([c], h1)
    | None => plain h1
    end
  else if Nat.eqb (String.length str) 26 then
    match JsonSaxHandler.tryTime str with
    | Some c => ([value c], h)
    | None => plain h
    end
  else plain h.

Definition StartObject (h : t) : list Call * t := ([startMap], h).

(** [bool Key(const char *str, SizeType length, bool)], lines 121-135: each
    name is compared with [strncmp] over [length], the length of the key. *)
Definition Key (str : string) (h : t) : list Call * t :=
  let length := String.length str in
  let no_intern := {| intern_ := Some false; toInt_ := toInt_ h |} in
  ([value (JsonSaxHandler.value_string str (Some true))],
   if strncmp_is_0 str "estdEventTime" length
      || strncmp_is_0 str "logTime" length
      || strncmp_is_0 str "execId" length
      || strncmp_is_0 str "px" length
   then no_intern
   else if strncmp_is_0 str "key" length
           || strncmp_is_0 str "signed" length
           || strncmp_is_0 str "origFfeKey" length
   then no_intern
   else h).

Definition EndObject (h : t) : list Call * t := ([endMap], h).
Definition StartArray (h : t) : list Call * t := ([startArray], h).
Definition EndArray (h : t) : list Call * t := ([endArray], h).

(** The callbacks rapidjson's reader makes while it parses one document. *)
Inductive Event : Type :=
| EvNull
| EvBool (b : bool)
| EvInt (i : Z)
| EvUint (u : Z)
| EvInt64 (i : Z)
| EvUint64 (u : Z)
| EvDouble (d : double)
| EvString (str : string)
| EvStartObject
| EvKey (str : string)
| EvEndObject
| EvStartArray
| EvEndArray.

Definition handle (tryInt : string -> option Call) (ev : Event) (h : t)
  : list Call * t :=
  match ev with
  | EvNull => Null h
  | EvBool b => Bool b h
  | EvInt i => Int i h
  | EvUint u => Uint u h
  | EvInt64 i => Int64 i h
  | EvUint64 u => Uint64 u h
  | EvDouble d => Double d h
  | EvString str => String_ tryInt str h
  | EvStartObject => StartObject h
  | EvKey str => Key str h
  | EvEndObject => EndObject h
  | EvStartArray => StartArray h
  | EvEndArray => EndArray h
  end.

(** The calls on the writer, in order, and the handler afterwards. *)
Fixpoint run (tryInt : string -> option Call) (evs : list Event) (h : t)
  : list Call * t :=
  match evs with
  | [] => ([], h)
  | ev :: rest =>
      let (calls, h') := handle tryInt ev h in
      let (calls', h'') := run tryInt rest h' in
      (calls ++ calls', h'')
  end.

End SaxHandler.

(** The names [Key] compares a key with. *)
Definition hinted_names : list string :=
  ["estdEventTime"; "logTime"; "execId"; "px"; "key"; "signed"; "origFfeKey"].

(** The string holds no NUL character. *)
Definition no_nul (s : string) : Prop :=
  forallb (fun c => negb (Ascii.eqb c SaxHandler.NUL)) (list_ascii_of_string s)
  = true.

(** [String] writes [str] as a time value. *)
Definition is_time_string (str : string) : bool :=
  Nat.eqb (String.length str) 26 &&
  match JsonSaxHandler.tryTime str with Some _ => true | None => false end.

(** A callback other than [String] on a string that is written as a string. *)
Definition keeps_hint (ev : SaxHandler.Event) : Prop :=
  match ev with
  | SaxHandler.EvString str => is_time_string str = true
  | _ => True
  end.

(** ** Json2Au.cpp : the documents the loop of [json2au] encodes *)

(** The [while (res)] loop, lines 220-247, once more: the value of
    [entriesProcessed] when the loop ends, which is the number of calls of
    [au.encode]. *)
Fixpoint json2au_entries (docs : list Z) (entriesProcessed maxEntries : Z) : Z :=
  match docs with
  | [] => wrap64 (entriesProcessed + 1)
  | code :: rest =>
      let entriesProcessed' := wrap64 (entriesProcessed + 1) in
      if entriesProcessed' >? maxEntries then entriesProcessed'
      else if code =? Json2Au.kParseErrorNone
           then json2au_entries rest entriesProcessed' maxEntries
           else entriesProcessed'
  end.

(** ** The byte source: reading a file byte by byte *)

(** [n] calls of [next()], stopping at the first [Eof]: the bytes returned. *)
Fixpoint next_n (fuel : nat) (n : nat) (s : FileByteSource.t)
  : FileByteSource.Res (list FileByteSource.byte) :=
  match n with
  | O => FileByteSource.Ok [] s
  | S n' =>
      match FileByteSource.next fuel s with
      | FileByteSource.Ok (Some b) s' =>
          match next_n fuel n' s' with
          | FileByteSource.Ok bs s'' => FileByteSource.Ok (b :: bs) s''
          | r => r
          end
      | FileByteSource.Ok None s' => FileByteSource.Ok [] s'
      | FileByteSource.Throw e s' => FileByteSource.Throw e s'
      | FileByteSource.Blocked s' => FileByteSource.Blocked s'
      | FileByteSource.NoFuel => FileByteSource.NoFuel
      end
  end.

(** The byte of the file at the position [q]. *)
Definition file_byte (s : FileByteSource.t) (q : Z) : FileByteSource.byte :=
  nth (Z.to_nat q) (FileByteSource.data (FileByteSource.stream s))
    FileByteSource.zero_byte.

Definition file_length (s : FileByteSource.t) : Z :=
  FileByteSource.zlength (FileByteSource.data (FileByteSource.stream s)).


(** ** The grep drivers: what a run makes the outside see *)

(** The events a driver added to the trace of [st] on the way to [st'], the
    most recent first. *)
Definition events_since {W : Type} (st st' : @Grep.State W)
  (evs : list Grep.Event) : Prop :=
  Grep.trace st' = evs ++ Grep.trace st.


(** A file of 400000 bytes whose first record takes the first 300000: from any
    offset inside that record the next record found starts at 300000.  The
    world is the position of the source. *)
Definition long_record_env : Grep.Env Z :=
  {| Grep.endPos := fun w => (Grep.Ok 400000, w);
     Grep.pos := fun w => w;
     Grep.peek_is_EOF := fun w => (Grep.Ok (w >=? 400000), w);
     Grep.seek := fun abspos _ => (Grep.Ok tt, abspos);
     Grep.sync := fun w =>
       (Grep.Ok (w <=? 300000), if w =? 0 then 0 else 300000);
     Grep.parseUntilValue := fun _ w =>
       (Grep.Ok (w <? 400000), if w <? 300000 then 300000 else 400000);
     Grep.matched := fun _ => false;
     Grep.recordPrecedesPattern := fun _ => false;
     Grep.THROW := parse_error |}.

(** [au stats log.au] on a file whose read fails: the byte source throws a
    [runtime_error] while the first record is parsed. *)
Definition stats_env_io_error : Stats.Env :=
  {| Stats.cmd_parse := fun _ => Stats.Parsed ["log.au"; "next.au"];
     Stats.parseStream := fun _ h =>
       {| Stats.after := h; Stats.printed_by_callbacks := [];
          Stats.source_pos := 0;
          Stats.raised := Some (runtime_error "Error reading file") |};
     Stats.prettyBytes := fun _ => "0 bytes" |}.

(** A source that waits for data, as [au tail -f] opens it, on the bytes
    [abc]. *)
Definition tailing_source : FileByteSource.t :=
  FileByteSource.new (stream_of "abc" 100) true 256.

(** The events of a grep without context lines in which [n] records were
    output (the most recent event first): every record is parsed with the grep
    handler, and a record that is output is output by a seek and one run of
    the output handler right after that. *)
Inductive emitted : nat -> list Grep.Event -> Prop :=
| emitted_none : emitted 0 []
| emitted_skip n evs :
    emitted n evs -> emitted n (Grep.EvParse Grep.recordHandler :: evs)
| emitted_match n evs abspos :
    emitted n evs ->
    emitted (S n)
      (Grep.EvParse Grep.outputHandler :: Grep.EvSeek abspos
       :: Grep.EvParse Grep.recordHandler :: evs).

(** What a run of the loop of [reallyDoGrep] that started in [st] with [total]
    matches has done when it returns [t]: it has output [t - total] records,
    and [t] is within [limit]. *)
Definition emitted_matches {W : Type} (st : @Grep.State W) (limit total : Z)
  (r : @Grep.Outcome Z * @Grep.State W) : Prop :=
  forall t, fst r = Grep.Returned t ->
    total <= t <= limit /\
    exists evs,
      events_since st (snd r) evs /\ emitted (Z.to_nat (t - total)) evs.

(** An event of a probe of [doBisect]: a seek, a resynchronisation or the
    parse of the record found. *)
Definition is_probe (ev : Grep.Event) : Prop :=
  match ev with
  | Grep.EvSeek _ | Grep.EvSync | Grep.EvParse Grep.bisectRecordHandler => True
  | _ => False
  end.

(** How the loop of [doBisect] ends when it was started in [st] with the
    boundary [B] in its window: after some probes either it runs its linear
    scan, from a window that is small and still has [B] in it, or it ends
    without a scan. *)
Definition bisect_post {W : Type} (env : Grep.Env W) (good : W -> Prop)
  (B : Z) (p : Pattern) (gfuel : nat) (st : @Grep.State W)
  (r : @Grep.Outcome unit * @Grep.State W) : Prop :=
  (exists start' end' st' evs,
      events_since st st' evs /\ Forall is_probe evs /\
      good (Grep.world st') /\
      0 <= start' <= B /\ B <= end' /\
      0 < end' - start' <= Grep.SCAN_THRESHOLD /\
      r = Grep.bind
            (Grep.seekSync env
               (if start' >? Grep.PREFIX_AMOUNT
                then start' - Grep.PREFIX_AMOUNT else 0))
            (fun _ => Grep.reallyDoGrep env gfuel
                        (set_scanSuffixAmount p Grep.SUFFIX_AMOUNT)) st') \/
  (exists evs, events_since st (snd r) evs /\ Forall is_probe evs).

(** [au grep -u 3 -m 1]. *)
Definition first_uint3 : Pattern :=
  {| keyPattern := None; intPattern := None; uintPattern := Some 3;
     doublePattern := None; strPattern := None; timestampPattern := None;
     numMatches := Some 1; scanSuffixAmount := None;
     beforeContext := 0; afterContext := 0; bisect := false; count := false |}.

(** The file of [records_env] read through a source whose position is a
    [size_t] within the file. *)
Definition sorted_records_env (query : Z) : Grep.Env Z :=
  {| Grep.endPos := Grep.endPos (records_env query);
     Grep.pos := fun w => Z.min (Z.max w 0) (1024 * 1024);
     Grep.peek_is_EOF := Grep.peek_is_EOF (records_env query);
     Grep.seek := Grep.seek (records_env query);
     Grep.sync := Grep.sync (records_env query);
     Grep.parseUntilValue := Grep.parseUntilValue (records_env query);
     Grep.matched := Grep.matched (records_env query);
     Grep.recordPrecedesPattern := Grep.recordPrecedesPattern (records_env query);
     Grep.THROW := parse_error |}.

(** ** Values with their strings written out *)

(** The same value with every string, whether it was a dictionary reference or
    came in fragments, as one inline fragment. *)
Definition resolve_str (dict : list string) (s : Str) : Str :=
  Inline [text dict s].

Fixpoint resolve (dict : list string) (v : Value) : Value :=
  match v with
  | VString s => VString (resolve_str dict s)
  | VArray vs => VArray (map (resolve dict) vs)
  | VObject kvs =>
      VObject (map (fun kv => (resolve_str dict (fst kv), resolve dict (snd kv)))
                 kvs)
  | _ => v
  end.

(** A handler as an earlier record left it: a string still in [str_], both
    flags raised, markers still on the stack. *)
Definition used_handler : GrepHandler.t :=
  {| GrepHandler.str_ := "k";
     GrepHandler.dictionary_ := ["old"];
     GrepHandler.matched_ := true;
     GrepHandler.less_ := true;
     GrepHandler.context_ :=
       [{| GrepHandler.context := GrepHandler.OBJECT;
           GrepHandler.counter := 3;
           GrepHandler.checkVal := true |}] |}.

(** * Properties *)

(** ** C10 *)

Lemma commafy_int64_no_fuel_suffices (fuel : nat) :
  forall val, Commafy.commafy_int64 fuel val = None.
Proof.
  induction fuel as [|fuel IH]; intro val; simpl.
  - reflexivity.
  - destruct (val >? 0).
    + apply IH.
    + now rewrite IH.
Qed.

Lemma commafy_int64_never_returns_rel :
  forall val s, ~ Commafy.returns val s.
Proof.
  intros val s H. induction H; assumption.
Qed.

(** C10: the signed overload [commafy(int64_t)] terminates for no input.  For
    every argument the activation calls [commafy(int64_t)] again (with [val]
    when [val > 0], with [-val] otherwise) before it can return, so no amount
    of fuel yields a result and no call ever returns a string. *)
Theorem commafy_int64_never_terminates :
  forall val : Z,
    (forall fuel, Commafy.commafy_int64 fuel val = None) /\
    (forall s, ~ Commafy.returns val s) /\
    Commafy.commafy_int64_callee val
    = (if val >? 0 then val else int64_of (- val)) /\
    (forall fuel,
        Commafy.commafy_int64 (S fuel) val =
        (if val >? 0 then fun r => r else option_map (String "-"))
          (Commafy.commafy_int64 fuel (Commafy.commafy_int64_callee val))).
Proof.
  intro val. split; [|split; [|split]].
  - intro fuel. apply commafy_int64_no_fuel_suffices.
  - intro s. apply commafy_int64_never_returns_rel.
  - reflexivity.
  - intro fuel. unfold Commafy.commafy_int64_callee. simpl.
    destruct (val >? 0); [reflexivity|].
    destruct (Commafy.commafy_int64 fuel (int64_of (- val))); reflexivity.
Qed.

Example commafy_uint64_example :
  Commafy.commafy_uint64 1234567 = "1,234,567" /\
  Commafy.commafy_uint64 0 = "0" /\
  Commafy.commafy_uint64 (2 ^ 64 - 1) = "18,446,744,073,709,551,615".
Proof. repeat split; vm_compute; reflexivity. Qed.

(** ** C5 *)

Section Json2AuExit.
Import Json2Au.

(** The code with which the [while (res)] loop ends is either the code of the
    end of the input or one that a [Parse] call really produced. *)
Lemma parse_loop_code (docs : list Z) :
  forall n maxEntries,
    parse_loop docs n maxEntries = kParseErrorDocumentEmpty \/
    In (parse_loop docs n maxEntries) docs.
Proof.
  induction docs as [|code rest IH]; intros n maxEntries; simpl.
  - now left.
  - destruct (wrap64 (n + 1) >? maxEntries); [now right; left|].
    destruct (code =? kParseErrorNone); [|now right; left].
    destruct (IH (wrap64 (n + 1)) maxEntries) as [H|H]; [now left|now right; right].
Qed.

(** Once the argument count is accepted and both files are open, the result
    only depends on the last parse code. *)
Lemma json2au_after_open (e : Env) (a : Args) :
  2 <= argc' a <= 3 -> files_open e a ->
  json2au e a =
  let code := parse_loop (parses e) 0 (maxEntries a) in
  if (code =? kParseErrorNone) || (code =? kParseErrorDocumentEmpty)
  then 0 else code.
Proof.
  intros Hn [Hin Hout]. unfold json2au.
  destruct (argc' a <? 2) eqn:E1; [lia|].
  destruct (argc' a >? 3) eqn:E2; [lia|].
  cbn [orb]. rewrite Hin. cbn [negb].
  destruct Hout as [Hout|Hout].
  - rewrite Hout. reflexivity.
  - rewrite Hout. cbn [negb]. rewrite andb_false_r. reflexivity.
Qed.

End Json2AuExit.

(** C5 (as the code has it): with [n] the number of arguments after the two
    leading ones, [json2au] returns -1 when [n] is not 2 or 3, 1 when the input
    or the output file cannot be opened, 0 when the last parse code is
    [kParseErrorNone] or [kParseErrorDocumentEmpty], and otherwise that parse
    code itself, which is non-zero and was produced by the JSON front-end. *)
Theorem json2au_exit_codes (e : Json2Au.Env) (a : Json2Au.Args) :
  (Json2Au.argc' a < 2 \/ Json2Au.argc' a > 3 -> Json2Au.json2au e a = -1) /\
  (2 <= Json2Au.argc' a <= 3 ->
   Json2Au.open_input e (Json2Au.inFName a) = false ->
   Json2Au.json2au e a = 1) /\
  (2 <= Json2Au.argc' a <= 3 ->
   Json2Au.outFName a <> "-" ->
   Json2Au.open_output e (Json2Au.outFName a) = false ->
   Json2Au.json2au e a = 1) /\
  (2 <= Json2Au.argc' a <= 3 -> Json2Au.files_open e a ->
   let code := Json2Au.parse_loop (Json2Au.parses e) 0 (Json2Au.maxEntries a) in
   (code = Json2Au.kParseErrorNone \/ code = Json2Au.kParseErrorDocumentEmpty ->
    Json2Au.json2au e a = 0) /\
   (code <> Json2Au.kParseErrorNone ->
    code <> Json2Au.kParseErrorDocumentEmpty ->
    Json2Au.json2au e a = code /\ Json2Au.json2au e a <> 0 /\
    In (Json2Au.json2au e a) (Json2Au.parses e))).
Proof.
  split; [|split; [|split]].
  - intros H. unfold Json2Au.json2au.
    destruct (Json2Au.argc' a <? 2) eqn:E1; [reflexivity|].
    destruct (Json2Au.argc' a >? 3) eqn:E2; [reflexivity|]. lia.
  - intros Hn Hin. unfold Json2Au.json2au.
    destruct (Json2Au.argc' a <? 2) eqn:E1; [lia|].
    destruct (Json2Au.argc' a >? 3) eqn:E2; [lia|].
    cbn [orb]. now rewrite Hin.
  - intros Hn Hne Hout. unfold Json2Au.json2au.
    destruct (Json2Au.argc' a <? 2) eqn:E1; [lia|].
    destruct (Json2Au.argc' a >? 3) eqn:E2; [lia|].
    cbn [orb]. destruct (Json2Au.open_input e _); [|reflexivity]. cbn [negb].
    apply String.eqb_neq in Hne. now rewrite Hne, Hout.
  - intros Hn Hopen. rewrite (json2au_after_open e a Hn Hopen).
    cbv zeta. set (code := Json2Au.parse_loop _ _ _).
    split.
    + intros [Hc|Hc]; rewrite Hc; reflexivity.
    + intros H1 H2.
      assert (Hz : (code =? Json2Au.kParseErrorNone) = false) by now apply Z.eqb_neq.
      assert (Hd : (code =? Json2Au.kParseErrorDocumentEmpty) = false)
        by now apply Z.eqb_neq.
      rewrite Hz, Hd. cbn [orb]. repeat split.
      * exact H1.
      * destruct (parse_loop_code (Json2Au.parses e) 0 (Json2Au.maxEntries a))
          as [H|H]; [contradiction|exact H].
Qed.

(** A sixth argument is one too many: the driver answers -1, not 1. *)
Lemma json2au_usage_error_is_not_1 :
  Json2Au.json2au
    {| Json2Au.open_input := fun _ => true;
       Json2Au.open_output := fun _ => true;
       Json2Au.parses := [0; 0] |}
    {| Json2Au.argv := ["au"; "json2au"; "in.json"; "out.au"; "10"; "extra"];
       Json2Au.strtoull_arg := fun _ => 10 |} <> 1.
Proof. vm_compute. discriminate. Qed.

Lemma json2au_exit_codes_witness :
  Json2Au.json2au json2au_env0 json2au_args0 = 3.
Proof.
  refine (proj1 (proj2 (proj2 (proj2 (proj2
            (json2au_exit_codes json2au_env0 json2au_args0))) _ _) _ _)).
  - vm_compute. split; discriminate.
  - vm_compute. split; [reflexivity|]. right. reflexivity.
  - vm_compute. discriminate.
  - vm_compute. discriminate.
Defined.

(** ** C4 *)

Section ParseErrorReporting.
Import Stats.






End ParseErrorReporting.

Section GrepParseError.
Context {W : Type} (env : Grep.Env W).


End GrepParseError.




(** ** C1 *)

Section Bisect.
Context {W : Type} (env : Grep.Env W).

Lemma wrap64_small (z : Z) : 0 <= z < 2 ^ 64 -> wrap64 z = z.
Proof. intro H. unfold wrap64. now apply Z.mod_small. Qed.

Lemma seekSync_found (abspos : Z) (st : @Grep.State W) (w1 w2 : W) :
  Grep.seek env abspos (Grep.world st) = (Grep.Ok tt, w1) ->
  Grep.sync env w1 = (Grep.Ok true, w2) ->
  Grep.seekSync env abspos st =
  (Grep.Returned tt,
   {| Grep.world := w2;
      Grep.trace := Grep.EvSync :: Grep.EvSeek abspos :: Grep.trace st |}).
Proof.
  intros Hseek Hsync.
  unfold Grep.seekSync, Grep.bind, Grep.source_seek, Grep.tail_sync, Grep.call.
  rewrite Hseek. cbn. rewrite Hsync. reflexivity.
Qed.

End Bisect.

(** C1 (as the code has it): [doBisect] starts from the window [0, end_pos)
    and iterates only while [end > start].  An iteration with
    [end - start > SCAN_THRESHOLD] seeks to [mid = start + (end-start)/2],
    resyncs, and runs the record parser from the position [sor] it reached;
    when a record is decoded the window becomes [sor, end) if the record
    strictly precedes the query and [start, sor) otherwise, and when the parser
    reports the end of the stream the search stops.  An iteration with
    [end - start <= SCAN_THRESHOLD] seeks to [start - PREFIX_AMOUNT] clamped to
    0, resyncs, runs the linear grep with a scan-suffix budget of
    [SCAN_THRESHOLD + PREFIX_AMOUNT + 266 KiB], and returns.  With an empty
    window the search returns without seeking or running the grep. *)
Theorem bisect_iteration (W : Type) (env : Grep.Env W) (fuel gfuel : nat)
  (p : Pattern) (start end_ : Z) (st : @Grep.State W) :
  0 <= start < 2 ^ 64 -> 0 <= end_ < 2 ^ 64 ->
  (* the first window *)
  (forall e w, Grep.endPos env (Grep.world st) = (Grep.Ok e, w) ->
     Grep.doBisect env fuel gfuel p st =
     Grep.try_catch_parse_error (Grep.bisect_loop env fuel gfuel p 0 e)
       {| Grep.world := w; Grep.trace := Grep.trace st |}) /\
  (* an empty window *)
  (end_ <= start ->
   Grep.bisect_loop env (S fuel) gfuel p start end_ st = (Grep.Returned tt, st)) /\
  (* a small window: the linear scan *)
  (start < end_ -> end_ - start <= 256 * 1024 ->
   forall w1 w2,
     Grep.seek env (Z.max (start - 512 * 1024) 0) (Grep.world st)
     = (Grep.Ok tt, w1) ->
     Grep.sync env w1 = (Grep.Ok true, w2) ->
     Grep.bisect_loop env (S fuel) gfuel p start end_ st =
     Grep.reallyDoGrep env gfuel
       (set_scanSuffixAmount p (256 * 1024 + 512 * 1024 + 266 * 1024))
       {| Grep.world := w2;
          Grep.trace := Grep.EvSync
                        :: Grep.EvSeek (Z.max (start - 512 * 1024) 0)
                        :: Grep.trace st |}) /\
  (* a large window: one probe *)
  (start < end_ -> end_ - start > 256 * 1024 ->
   let mid := start + (end_ - start) / 2 in
   forall w1 w2 w3 ok,
     Grep.seek env mid (Grep.world st) = (Grep.Ok tt, w1) ->
     Grep.sync env w1 = (Grep.Ok true, w2) ->
     Grep.parseUntilValue env Grep.bisectRecordHandler w2 = (Grep.Ok ok, w3) ->
     let sor := Grep.pos env w2 in
     let st' := {| Grep.world := w3;
                   Grep.trace := Grep.EvParse Grep.bisectRecordHandler
                                 :: Grep.EvSync :: Grep.EvSeek mid
                                 :: Grep.trace st |} in
     Grep.bisect_loop env (S fuel) gfuel p start end_ st =
     if ok then
       if Grep.recordPrecedesPattern env w3
       then Grep.bisect_loop env fuel gfuel p sor end_ st'
       else Grep.bisect_loop env fuel gfuel p start sor st'
     else (Grep.Returned tt, st')).
Proof.
  intros Hs He. split; [|split; [|split]].
  - intros e w Hend. unfold Grep.doBisect, Grep.try_catch_parse_error.
    unfold Grep.bind at 1. unfold Grep.call at 1. rewrite Hend. reflexivity.
  - intros Hle. cbn [Grep.bisect_loop].
    destruct (end_ >? start) eqn:E; [lia|]. reflexivity.
  - intros Hlt Hsmall w1 w2 Hseek Hsync. cbn [Grep.bisect_loop].
    destruct (end_ >? start) eqn:E; [|lia].
    rewrite (wrap64_small (end_ - start)) by lia.
    unfold Grep.SCAN_THRESHOLD, Grep.PREFIX_AMOUNT, Grep.SUFFIX_AMOUNT,
      Grep.SCAN_THRESHOLD, Grep.PREFIX_AMOUNT.
    destruct (end_ - start <=? 256 * 1024) eqn:E2; [|lia].
    assert (Hclamp : (if start >? 512 * 1024
                      then wrap64 (start - 512 * 1024) else 0)
                     = Z.max (start - 512 * 1024) 0).
    { destruct (start >? 512 * 1024) eqn:E3.
      - rewrite wrap64_small by lia. lia.
      - lia. }
    rewrite Hclamp. unfold Grep.bind at 1.
    rewrite (seekSync_found env _ st w1 w2 Hseek Hsync). reflexivity.
  - intros Hlt Hbig mid w1 w2 w3 ok Hseek Hsync Hparse sor st'.
    cbn [Grep.bisect_loop].
    destruct (end_ >? start) eqn:E; [|lia].
    rewrite (wrap64_small (end_ - start)) by lia.
    unfold Grep.SCAN_THRESHOLD.
    destruct (end_ - start <=? 256 * 1024) eqn:E2; [lia|].
    assert (Hmid : wrap64 (start + (end_ - start) / 2) = mid).
    { apply wrap64_small. unfold mid.
      assert (0 <= (end_ - start) / 2 <= end_ - start)
        by (split; [apply Z.div_pos; lia | apply Z.div_le_upper_bound; lia]).
      lia. }
    rewrite Hmid. unfold Grep.bind at 1.
    rewrite (seekSync_found env _ st w1 w2 Hseek Hsync).
    unfold Grep.bind at 1. unfold Grep.source_pos at 1. cbn [Grep.world].
    unfold Grep.bind at 1. unfold Grep.parse at 1, Grep.call at 1.
    cbn [Grep.world Grep.trace]. rewrite Hparse.
    destruct ok; cbn [negb].
    + unfold Grep.bind at 1, Grep.grep_recordPrecedesPattern at 1.
      cbn [Grep.world].
      destruct (Grep.recordPrecedesPattern env w3); reflexivity.
    + reflexivity.
Qed.

(** On an empty file the window is [0, 0): its width is below the threshold,
    yet [doBisect] seeks nowhere and runs no grep (under [-c] no count is
    printed either). *)
Lemma bisect_empty_file_runs_no_grep :
  let st0 := {| Grep.world := tt; Grep.trace := [] |} in
  Grep.endPos empty_file_env tt = (Grep.Ok 0, tt) /\
  0 - 0 <= Grep.SCAN_THRESHOLD /\
  Grep.doBisect empty_file_env 10 10 count_uint7 st0 = (Grep.Returned tt, st0) /\
  Grep.reallyDoGrep empty_file_env 10 count_uint7 st0 =
  (Grep.Returned tt,
   {| Grep.world := tt;
      Grep.trace := [Grep.EvPrint (Print Cout (cat ["0"; nl]))] |}).
Proof.
  repeat split; vm_compute; congruence.
Qed.

Lemma bisect_iteration_witness :
  Grep.bisect_loop (records_env 7000) 3 100 count_uint7 0 (1024 * 1024)
    {| Grep.world := 0; Grep.trace := [] |} =
  Grep.bisect_loop (records_env 7000) 2 100 count_uint7 0 (512 * 1024)
    {| Grep.world := 512 * 1024 + 64;
       Grep.trace := [Grep.EvParse Grep.bisectRecordHandler; Grep.EvSync;
                      Grep.EvSeek (512 * 1024)] |}.
Proof.
  refine (proj2 (proj2 (proj2
            (bisect_iteration Z (records_env 7000) 2 100 count_uint7
               0 (1024 * 1024) {| Grep.world := 0; Grep.trace := [] |} _ _)))
            _ _ (512 * 1024) (512 * 1024) (512 * 1024 + 64) true _ _ _).
  - lia.
  - lia.
  - lia.
  - lia.
  - reflexivity.
  - reflexivity.
  - reflexivity.
Defined.

(** ** C9 *)

Example onTime_test :
  JsonOutputHandler.onTime 123456789 =
  cat [JsonOutputHandler.dquote; "1970-01-01T00:00:00.123456";
       JsonOutputHandler.dquote].
Proof. vm_compute. reflexivity. Qed.

Example tryTime_examples :
  JsonSaxHandler.tryTime "2019-03-07T12:34:56.000001"
  = Some (JsonSaxHandler.value_time 1551962096000001000) /\
  JsonSaxHandler.tryTime "1970-01-01 00:00:00.123456" = None /\
  JsonSaxHandler.tryTime "1969-12-31T23:59:59.000000" = None /\
  time_round_trip "2019-03-07T12:34:56.000001"
  = Some (cat [JsonOutputHandler.dquote; "2019-03-07T12:34:56.000001";
               JsonOutputHandler.dquote]).
Proof. repeat split; vm_compute; reflexivity. Qed.

Example wire_time_examples :
  Wire.encode_time 123456000 = [116; 128; 168; 222; 117] /\
  Wire.decode_time (Wire.encode_time (-5)) = Some (-5) /\
  Wire.decode_time (Wire.encode_time (2 ^ 63 - 1)) = Some (2 ^ 63 - 1) /\
  Wire.decode_time (Wire.encode_time (- 2 ^ 63)) = Some (- 2 ^ 63).
Proof. repeat split; vm_compute; reflexivity. Qed.


(** ** The grep handler on value trees (C2, C3) *)

Section ValueInduction.

Variable P : Value -> Prop.
Hypothesis P_null : P VNull.
Hypothesis P_bool : forall b, P (VBool b).
Hypothesis P_int : forall z, P (VInt z).
Hypothesis P_uint : forall z, P (VUint z).
Hypothesis P_double : forall d, P (VDouble d).
Hypothesis P_time : forall z, P (VTime z).
Hypothesis P_string : forall s, P (VString s).
Hypothesis P_array : forall vs, Forall P vs -> P (VArray vs).
Hypothesis P_object :
  forall kvs, Forall (fun kv => P (snd kv)) kvs -> P (VObject kvs).

(** Induction on a value with the hypothesis available for every element of an
    array and every member of an object. *)
Lemma Value_induction : forall v, P v.
Proof.
  fix IH 1. intros [ | b | z | z | d | z | s | vs | kvs ].
  - apply P_null.
  - apply P_bool.
  - apply P_int.
  - apply P_uint.
  - apply P_double.
  - apply P_time.
  - apply P_string.
  - apply P_array. induction vs as [|v vs IHvs].
    + constructor.
    + constructor; [apply IH | exact IHvs].
  - apply P_object. induction kvs as [|[k v] kvs IHkvs].
    + constructor.
    + constructor; [apply IH | exact IHkvs].
Qed.

End ValueInduction.

Section HandlerLemmas.
Import GrepHandler.

Variable p : Pattern.

Lemma run_app (evs1 evs2 : list Event) :
  forall h, run p (evs1 ++ evs2) h =
            match run p evs1 h with
            | Some h' => run p evs2 h'
            | None => None
            end.
Proof.
  induction evs1 as [|ev evs1 IH]; intro h; simpl.
  - reflexivity.
  - destruct (handle p ev h); [apply IH | reflexivity].
Qed.

Lemma run_single (ev : Event) (h : t) : run p [ev] h = handle p ev h.
Proof. simpl. destruct (handle p ev h); reflexivity. Qed.

Lemma wrap64_parity (z : Z) : wrap64 z mod 2 = z mod 2.
Proof.
  unfold wrap64. apply Z.mod_mod_divide.
  exists (2 ^ 63). reflexivity.
Qed.

Lemma string_append_nil_r (s : string) : String.append s "" = s.
Proof. induction s as [|c s IH]; simpl; [reflexivity | now rewrite IH]. Qed.

Lemma string_append_assoc (a b c : string) :
  String.append (String.append a b) c = String.append a (String.append b c).
Proof. induction a as [|x a IH]; simpl; [reflexivity | now rewrite IH]. Qed.

Lemma concat_cons (f : string) (frags : list string) :
  String.concat "" (f :: frags) = String.append f (String.concat "" frags).
Proof.
  destruct frags as [|g frags]; simpl.
  - now rewrite string_append_nil_r.
  - reflexivity.
Qed.

Lemma collects_set_str (h : t) (s : string) :
  collects p (set_str h s) = collects p h.
Proof. reflexivity. Qed.

Lemma run_fragments_collecting (frags : list string) :
  forall h, collects p h = Some true ->
    run p (map EvStringFragment frags) h =
    Some (set_str h (String.append (str_ h) (String.concat "" frags))).
Proof.
  induction frags as [|f frags IH]; intros h Hc.
  - simpl. rewrite string_append_nil_r. destruct h; reflexivity.
  - cbn [map run handle]. unfold onStringFragment. rewrite Hc.
    rewrite IH by (rewrite collects_set_str; exact Hc).
    rewrite concat_cons. cbn [str_ set_str]. rewrite string_append_assoc.
    reflexivity.
Qed.

Lemma run_fragments_skipping (frags : list string) :
  forall h, collects p h = Some false ->
    run p (map EvStringFragment frags) h = Some h.
Proof.
  induction frags as [|f frags IH]; intros h Hc.
  - reflexivity.
  - cbn [map run handle]. unfold onStringFragment. rewrite Hc. now apply IH.
Qed.

(** An inline string, from start to end: [checkString] then sees the whole
    string when it was collected, and the stale buffer otherwise. *)
Lemma run_inline (frags : list string) (len : Z) (h : t) :
  run p (EvStringStart len :: map EvStringFragment frags ++ [EvStringEnd]) h =
  match collects p h with
  | Some true => onStringEnd p (set_str h (String.concat "" frags))
  | Some false => onStringEnd p h
  | None => None
  end.
Proof.
  cbn [run handle]. unfold onStringStart.
  destruct (collects p h) as [[|]|] eqn:Hc; [| |reflexivity].
  - rewrite run_app, run_fragments_collecting
      by (rewrite collects_set_str; exact Hc).
    rewrite run_single. reflexivity.
  - rewrite run_app, run_fragments_skipping by exact Hc.
    rewrite run_single. reflexivity.
Qed.

End HandlerLemmas.

Section HandlerOnValues.
Import GrepHandler.

Variable p : Pattern.
Variable dict : list string.

Ltac flags :=
  repeat match goal with
    | |- context [?a && false] => rewrite (andb_false_r a)
    | |- context [?a || false] => rewrite (orb_false_r a)
    | |- context [?a || true] => rewrite (orb_true_r a)
    | |- context [?a && true] => rewrite (andb_true_r a)
    end.

Ltac scalar_case :=
  intros _ [s d m l ctx] c cs Hd Hc Hv; simpl in Hd, Hc; subst d ctx;
  eexists; split;
  [ reflexivity
  | unfold steps_to; cbn -[wrap64];
    repeat match goal with
      | |- context [if ?b then _ else _] => destruct b eqn:?
      end;
    cbn -[wrap64]; flags; repeat split; try reflexivity; try congruence ].

Lemma run_null : value_spec p dict VNull.
Proof. scalar_case. Qed.

Lemma run_bool b : value_spec p dict (VBool b).
Proof. scalar_case. Qed.

Ltac scalar_start :=
  intros _ [s d m l ctx] c cs Hd Hc Hv; simpl in Hd, Hc; subst d ctx;
  cbn [events_of]; rewrite run_single; unfold steps_to;
  cbn -[wrap64 matchesValue_int matchesValue_uint matchesValue_time
        matchesValue_double].

Ltac scalar_finish :=
  eexists; split; [reflexivity|];
  cbn -[wrap64]; flags; repeat split; reflexivity.

Lemma run_int z : value_spec p dict (VInt z).
Proof.
  scalar_start.
  destruct (checkVal c && matchesValue_int p z);
    destruct (checkVal c && match intPattern p with
                            | Some q => z <? q | None => false end);
    scalar_finish.
Qed.

Lemma run_uint z : value_spec p dict (VUint z).
Proof.
  scalar_start.
  destruct (checkVal c && matchesValue_uint p z);
    destruct (checkVal c && match uintPattern p with
                            | Some q => z <? q | None => false end);
    scalar_finish.
Qed.

Lemma run_time z : value_spec p dict (VTime z).
Proof.
  scalar_start.
  destruct (checkVal c && matchesValue_time p z);
    destruct (checkVal c && match timestampPattern p with
                            | Some (first, _) => z <? first | None => false end);
    scalar_finish.
Qed.

Lemma run_double x : value_spec p dict (VDouble x).
Proof.
  scalar_start.
  destruct (checkVal c && matchesValue_double p x); scalar_finish.
Qed.

Lemma nth_error_in_range (i : nat) :
  Nat.ltb i (List.length dict) = true ->
  nth_error dict i = Some (nth i dict "").
Proof.
  intro H. apply Nat.ltb_lt in H. now apply nth_error_nth'.
Qed.

Lemma matchesValue_str_no_pattern (sv : string) :
  strPattern p = None -> matchesValue_str p sv = false.
Proof. intro H. unfold matchesValue_str. now rewrite H. Qed.

(** [checkString] followed by [incrCounter], on a value. *)
Lemma check_value_string (sv : string) (s : string) (m l : bool)
  (c : ContextMarker) (cs : list ContextMarker) :
  at_value c ->
  exists h',
    match checkString p sv
            {| str_ := s; dictionary_ := dict; matched_ := m; less_ := l;
               context_ := c :: cs |} with
    | Some h1 => incrCounter h1
    | None => None
    end = Some h' /\
    dictionary_ h' = dict /\
    context_ h' = bump c :: cs /\
    matched_ h' = m || (checkVal c && matchesValue_str p sv) /\
    less_ h' = l || false.
Proof.
  intro Hv. unfold at_value in Hv.
  unfold checkString, isKey, back. cbn [context_]. rewrite Hv.
  destruct (checkVal c && matchesValue_str p sv);
    (eexists; split; [reflexivity|]); cbn -[wrap64]; flags;
    repeat split; reflexivity.
Qed.

Lemma run_string s : value_spec p dict (VString s).
Proof.
  intros Hr [s0 d m l ctx] c cs Hd Hc Hv; simpl in Hd, Hc; subst d ctx.
  cbn [in_range] in Hr. unfold steps_to.
  cbn [scan leaf_matches leaf_precedes dictionary_ matched_ less_].
  rewrite andb_false_r.
  destruct s as [frags|i]; cbn [events_of events_of_str text].
  - rewrite run_inline. unfold collects.
    destruct (strPattern p) as [sp|] eqn:Hsp.
    + unfold onStringEnd, set_str. cbn [str_ dictionary_ matched_ less_ context_].
      apply check_value_string. exact Hv.
    + assert (Hcol : (if requiresKeyMatch p
                      then isKey {| str_ := s0; dictionary_ := dict;
                                    matched_ := m; less_ := l;
                                    context_ := c :: cs |}
                      else Some false) = Some false).
      { destruct (requiresKeyMatch p); [|reflexivity].
        unfold isKey, back. cbn [context_]. unfold at_value in Hv.
        now rewrite Hv. }
      rewrite Hcol. unfold onStringEnd. cbn [str_].
      destruct (check_value_string s0 s0 m l c cs Hv)
        as (h' & Hrun & Hd' & Hc' & Hm' & Hl').
      exists h'. split; [exact Hrun|].
      rewrite (matchesValue_str_no_pattern s0 Hsp) in Hm'.
      rewrite (matchesValue_str_no_pattern (String.concat "" frags) Hsp).
      repeat split; assumption.
  - rewrite run_single. cbn [handle]. unfold onDictRef. cbn [dictionary_].
    cbn [str_in_range] in Hr. rewrite (nth_error_in_range i Hr).
    apply check_value_string. exact Hv.
Qed.

(** A key of an object: [checkString] sets [checkVal] of the object's marker
    to whether the key matches the key pattern. *)
Lemma run_key (k : Str) (h : t) (c : ContextMarker) (cs : list ContextMarker) :
  str_in_range dict k = true ->
  dictionary_ h = dict -> context_ h = c :: cs -> at_key c ->
  exists h',
    run p (events_of_str k) h = Some h' /\
    steps_to h h' (keyed c (matchesKey p (text dict k))) cs false false.
Proof.
  destruct h as [s0 d m l ctx]. intros Hr Hd Hc Hk; simpl in Hd, Hc; subst d ctx.
  unfold at_key in Hk. unfold steps_to. cbn [dictionary_ matched_ less_].
  assert (Hkey : forall sv s1,
             match checkString p sv
                     {| str_ := s1; dictionary_ := dict; matched_ := m;
                        less_ := l; context_ := c :: cs |} with
             | Some h1 => incrCounter h1
             | None => None
             end =
             Some {| str_ := s1; dictionary_ := dict; matched_ := m; less_ := l;
                     context_ := keyed c (matchesKey p sv) :: cs |}).
  { intros sv s1. unfold checkString, isKey, back. cbn [context_].
    rewrite Hk. reflexivity. }
  destruct k as [frags|i]; cbn [events_of_str text].
  - rewrite run_inline. unfold collects.
    assert (HisKey : isKey {| str_ := s0; dictionary_ := dict; matched_ := m;
                              less_ := l; context_ := c :: cs |} = Some true).
    { unfold isKey, back. cbn [context_]. now rewrite Hk. }
    destruct (strPattern p) as [sp|] eqn:Hsp;
      [|destruct (requiresKeyMatch p) eqn:Hrk; [rewrite HisKey|]].
    + unfold onStringEnd, set_str. cbn [str_ dictionary_ matched_ less_ context_].
      rewrite Hkey. eexists; split; [reflexivity|].
      cbn; flags; repeat split; reflexivity.
    + unfold onStringEnd, set_str. cbn [str_ dictionary_ matched_ less_ context_].
      rewrite Hkey. eexists; split; [reflexivity|].
      cbn; flags; repeat split; reflexivity.
    + unfold onStringEnd. cbn [str_]. rewrite Hkey.
      eexists; split; [reflexivity|].
      assert (Hany : matchesKey p s0 = matchesKey p (String.concat "" frags)).
      { unfold matchesKey. unfold requiresKeyMatch in Hrk.
        destruct (keyPattern p); [discriminate|reflexivity]. }
      rewrite Hany. cbn; flags; repeat split; reflexivity.
  - rewrite run_single. cbn [handle]. unfold onDictRef. cbn [dictionary_].
    cbn [str_in_range] in Hr. rewrite (nth_error_in_range i Hr).
    rewrite Hkey. eexists; split; [reflexivity|].
    cbn; flags; repeat split; reflexivity.
Qed.

Lemma steps_to_trans (h h1 h2 : t) (top1 top2 : ContextMarker)
  (cs : list ContextMarker) (m1 l1 m2 l2 : bool) :
  steps_to h h1 top1 cs m1 l1 -> steps_to h1 h2 top2 cs m2 l2 ->
  steps_to h h2 top2 cs (m1 || m2) (l1 || l2).
Proof.
  intros (Hd1 & Hc1 & Hm1 & Hl1) (Hd2 & Hc2 & Hm2 & Hl2).
  unfold steps_to. rewrite Hd2, Hd1, Hc2, Hm2, Hm1, Hl2, Hl1.
  rewrite !orb_assoc. repeat split; reflexivity.
Qed.

Lemma odd_after_even (n : Z) :
  n mod 2 = 0 -> (wrap64 (n + 1) mod 2 =? 0) = false.
Proof.
  intro H. rewrite wrap64_parity. apply Z.eqb_neq.
  rewrite Z.add_mod, H by lia. vm_compute. discriminate.
Qed.

Lemma even_after_odd (n : Z) :
  n mod 2 = 0 -> wrap64 (wrap64 (n + 1) + 1) mod 2 = 0.
Proof.
  intro H. rewrite wrap64_parity, Z.add_mod, wrap64_parity by lia.
  rewrite (Z.add_mod n 1), H by lia. reflexivity.
Qed.

(** The elements of an array, one after the other. *)
Lemma run_elements (vs : list Value) :
  Forall (value_spec p dict) vs ->
  forallb (in_range dict) vs = true ->
  forall h n chk cs,
    dictionary_ h = dict ->
    context_ h = {| context := ARRAY; counter := n; checkVal := chk |} :: cs ->
    exists h' n',
      run p (flat_map events_of vs) h = Some h' /\
      steps_to h h' {| context := ARRAY; counter := n'; checkVal := chk |} cs
        (existsb (scan p dict (leaf_matches p dict) chk) vs)
        (existsb (scan p dict (leaf_precedes p) chk) vs).
Proof.
  induction 1 as [|v vs Hv _ IH]; intros Hr h n chk cs Hd Hc.
  - exists h, n. split; [reflexivity|].
    unfold steps_to. cbn [existsb]. rewrite !orb_false_r. now repeat split.
  - cbn [forallb] in Hr. apply andb_prop in Hr. destruct Hr as [Hrv Hrs].
    cbn [flat_map existsb]. rewrite run_app.
    destruct (Hv Hrv h _ cs Hd Hc eq_refl) as (h1 & Hrun1 & Hstep1).
    rewrite Hrun1.
    destruct Hstep1 as (Hd1 & Hc1 & Hm1 & Hl1).
    destruct (IH Hrs h1 (wrap64 (n + 1)) chk cs (eq_trans Hd1 Hd) Hc1)
      as (h2 & n2 & Hrun2 & Hstep2).
    exists h2, n2. split; [exact Hrun2|].
    eapply steps_to_trans; [|exact Hstep2].
    unfold steps_to. repeat split; eassumption.
Qed.

(** The members of an object: a key, then its value. *)
Lemma run_members (kvs : list (Str * Value)) :
  Forall (fun kv => value_spec p dict (snd kv)) kvs ->
  forallb (fun kv => str_in_range dict (fst kv) && in_range dict (snd kv)) kvs
  = true ->
  forall h n b cs,
    dictionary_ h = dict ->
    context_ h = {| context := OBJECT; counter := n; checkVal := b |} :: cs ->
    n mod 2 = 0 ->
    exists h' n' b',
      run p (flat_map (fun kv => events_of_str (fst kv) ++ events_of (snd kv))
               kvs) h = Some h' /\
      n' mod 2 = 0 /\
      steps_to h h' {| context := OBJECT; counter := n'; checkVal := b' |} cs
        (existsb (fun kv => scan p dict (leaf_matches p dict)
                              (matchesKey p (text dict (fst kv))) (snd kv)) kvs)
        (existsb (fun kv => scan p dict (leaf_precedes p)
                              (matchesKey p (text dict (fst kv))) (snd kv)) kvs).
Proof.
  induction 1 as [|[k v] kvs Hv _ IH]; intros Hr h n b cs Hd Hc Hn.
  - exists h, n, b. split; [reflexivity|]. split; [exact Hn|].
    unfold steps_to. cbn [existsb]. rewrite !orb_false_r. now repeat split.
  - cbn [forallb fst snd] in Hr. apply andb_prop in Hr.
    destruct Hr as [Hr Hrs]. apply andb_prop in Hr. destruct Hr as [Hrk Hrv].
    cbn [flat_map existsb fst snd] in *. rewrite !run_app.
    assert (Hk : at_key {| context := OBJECT; counter := n; checkVal := b |}).
    { unfold at_key. cbn. now apply Z.eqb_eq. }
    destruct (run_key k h _ cs Hrk Hd Hc Hk) as (h1 & Hrun1 & Hstep1).
    rewrite Hrun1. pose proof Hstep1 as (Hd1 & Hc1 & _ & _).
    unfold keyed in Hc1. cbn [context counter] in Hc1.
    assert (Hval : at_value {| context := OBJECT; counter := wrap64 (n + 1);
                               checkVal := matchesKey p (text dict k) |}).
    { unfold at_value. cbn [context counter]. now apply odd_after_even. }
    destruct (Hv Hrv h1 _ cs (eq_trans Hd1 Hd) Hc1 Hval)
      as (h2 & Hrun2 & Hstep2).
    rewrite Hrun2. pose proof Hstep2 as (Hd2 & Hc2 & _ & _).
    unfold bump in Hc2. cbn [context counter checkVal] in Hc2.
    cbn [checkVal] in Hstep2.
    destruct (IH Hrs h2 _ _ cs (eq_trans Hd2 (eq_trans Hd1 Hd)) Hc2
                (even_after_odd n Hn))
      as (h3 & n3 & b3 & Hrun3 & Hn3 & Hstep3).
    exists h3, n3, b3. split; [exact Hrun3|]. split; [exact Hn3|].
    pose proof (steps_to_trans _ _ _ _ _ _ _ _ _ _ Hstep1 Hstep2) as H12.
    cbn [orb] in H12.
    exact (steps_to_trans _ _ _ _ _ _ _ _ _ _ H12 Hstep3).
Qed.

(** The handler on any value: the flags it raises are those of [scan]. *)
Lemma handler_on_value : forall v, value_spec p dict v.
Proof.
  apply Value_induction.
  - apply run_null.
  - apply run_bool.
  - apply run_int.
  - apply run_uint.
  - apply run_double.
  - apply run_time.
  - apply run_string.
  - intros vs IH Hr [s0 d m l ctx] c cs Hd Hc Hv; simpl in Hd, Hc; subst d ctx.
    cbn [in_range] in Hr. cbn [events_of scan].
    change (EvArrayStart :: flat_map events_of vs ++ [EvArrayEnd])
      with ([EvArrayStart] ++ flat_map events_of vs ++ [EvArrayEnd]).
    rewrite run_app, run_single. cbn [handle]. unfold onArrayStart, back, set_context.
    cbn [str_ dictionary_ matched_ less_ context_]. rewrite run_app.
    destruct (run_elements vs IH Hr
                {| str_ := s0; dictionary_ := dict; matched_ := m; less_ := l;
                   context_ := {| context := ARRAY; counter := 0;
                                  checkVal := checkVal c |} :: c :: cs |}
                0 (checkVal c) (c :: cs) eq_refl eq_refl)
      as (h1 & n1 & Hrun1 & Hd1 & Hc1 & Hm1 & Hl1).
    rewrite Hrun1, run_single. cbn [handle]. unfold onArrayEnd, pop_back.
    rewrite Hc1. unfold incrCounter, set_context.
    cbn [str_ dictionary_ matched_ less_ context_].
    eexists; split; [reflexivity|].
    unfold steps_to. cbn [str_ dictionary_ matched_ less_ context_] in *.
    repeat split; assumption.
  - intros kvs IH Hr [s0 d m l ctx] c cs Hd Hc Hv; simpl in Hd, Hc; subst d ctx.
    cbn [in_range] in Hr. cbn [events_of scan].
    match goal with
    | |- context [run p (EvObjectStart :: ?body ++ [EvObjectEnd]) _] =>
        change (EvObjectStart :: body ++ [EvObjectEnd])
          with ([EvObjectStart] ++ body ++ [EvObjectEnd])
    end.
    rewrite run_app, run_single. cbn [handle]. unfold onObjectStart, set_context.
    cbn [str_ dictionary_ matched_ less_ context_]. rewrite run_app.
    destruct (run_members kvs IH Hr
                {| str_ := s0; dictionary_ := dict; matched_ := m; less_ := l;
                   context_ := {| context := OBJECT; counter := 0;
                                  checkVal := false |} :: c :: cs |}
                0 false (c :: cs) eq_refl eq_refl eq_refl)
      as (h1 & n1 & b1 & Hrun1 & _ & Hd1 & Hc1 & Hm1 & Hl1).
    rewrite Hrun1, run_single. cbn [handle]. unfold onObjectEnd, pop_back.
    rewrite Hc1. unfold incrCounter, set_context.
    cbn [str_ dictionary_ matched_ less_ context_].
    eexists; split; [reflexivity|].
    unfold steps_to. cbn [str_ dictionary_ matched_ less_ context_] in *.
    repeat split; assumption.
Qed.

End HandlerOnValues.

Section CheckedScalars.

Variable p : Pattern.
Variable dict : list string.
Variable hit : Value -> bool.

Lemma scan_scalar (chk : bool) (v : Value) :
  is_scalar v = true -> scan p dict hit chk v = chk && hit v.
Proof. destruct v; simpl; intro H; try reflexivity; discriminate. Qed.

Lemma scan_checked : forall v chk,
  scan p dict hit chk v = true ->
  exists leaf, checked p dict chk v leaf /\ hit leaf = true.
Proof.
  apply (Value_induction
           (fun v => forall chk, scan p dict hit chk v = true ->
                       exists leaf, checked p dict chk v leaf /\ hit leaf = true)).
  1-7: intros; match goal with
       | H : scan _ _ _ ?chk ?v = true |- _ =>
           rewrite (scan_scalar chk v eq_refl) in H; apply andb_prop in H;
           destruct H as [Hc Hh]; subst chk; exists v; split;
           [now constructor | exact Hh]
       end.
  - intros vs IH chk H. cbn [scan] in H. apply existsb_exists in H.
    destruct H as (v & Hin & Hv). rewrite Forall_forall in IH.
    destruct (IH v Hin chk Hv) as (leaf & Hl & Hh).
    exists leaf. split; [|exact Hh]. now apply checked_element with v.
  - intros kvs IH chk H. cbn [scan] in H. apply existsb_exists in H.
    destruct H as ([k v] & Hin & Hv). rewrite Forall_forall in IH.
    destruct (IH (k, v) Hin _ Hv) as (leaf & Hl & Hh).
    exists leaf. split; [|exact Hh]. now apply checked_member with k v.
Qed.

Lemma checked_scan (chk : bool) (v leaf : Value) :
  checked p dict chk v leaf -> hit leaf = true ->
  scan p dict hit chk v = true.
Proof.
  induction 1 as [v Hs | chk vs v leaf Hin _ IH | chk kvs k v leaf Hin _ IH];
    intro Hh.
  - rewrite scan_scalar by exact Hs. now rewrite Hh.
  - cbn [scan]. apply existsb_exists. exists v. split; [exact Hin | now apply IH].
  - cbn [scan]. apply existsb_exists. exists (k, v).
    split; [exact Hin | now apply IH].
Qed.

Lemma scan_iff (chk : bool) (v : Value) :
  scan p dict hit chk v = true <->
  exists leaf, checked p dict chk v leaf /\ hit leaf = true.
Proof.
  split.
  - apply scan_checked.
  - intros (leaf & Hc & Hh). now apply checked_scan with leaf.
Qed.

Lemma checked_inside (chk : bool) (v leaf : Value) :
  checked p dict chk v leaf -> inside v leaf.
Proof.
  induction 1.
  - now constructor.
  - eapply inside_element; eassumption.
  - eapply inside_member; eassumption.
Qed.

(** Without a key pattern every key enables its value: every scalar is
    checked, wherever it is. *)
Lemma inside_checked (v leaf : Value) :
  keyPattern p = None -> inside v leaf -> checked p dict true v leaf.
Proof.
  intros Hk. induction 1 as [v Hs | vs v leaf Hin Hi IH | kvs k v leaf Hin Hi IH].
  - now constructor.
  - now apply checked_element with v.
  - apply checked_member with k v; [exact Hin|].
    unfold matchesKey. now rewrite Hk.
Qed.

End CheckedScalars.

(** [onValue] on a whole record: it runs to the end, and its two flags are the
    two scans of the value. *)
Lemma onValue_flags (p : Pattern) (dict : list string) (v : Value)
  (h0 : GrepHandler.t) :
  in_range dict v = true ->
  exists h,
    onValue p dict v h0 = Some h /\
    GrepHandler.matched h
    = scan p dict (leaf_matches p dict) (negb (requiresKeyMatch p)) v /\
    GrepHandler.recordPrecedesPattern h
    = scan p dict (leaf_precedes p) (negb (requiresKeyMatch p)) v.
Proof.
  intro Hr. unfold onValue.
  destruct (handler_on_value p dict v Hr (GrepHandler.onValue_reset p dict h0)
              {| GrepHandler.context := GrepHandler.BARE;
                 GrepHandler.counter := 0;
                 GrepHandler.checkVal := negb (requiresKeyMatch p) |}
              [] eq_refl eq_refl eq_refl)
    as (h & Hrun & _ & _ & Hm & Hl).
  exists h. split; [exact Hrun|]. split; [exact Hm | exact Hl].
Qed.

Section LessFlag.
Import GrepHandler.

Variable p : Pattern.





End LessFlag.

(** ** C2 *)



Example record_precedes_examples :
  option_map GrepHandler.recordPrecedesPattern
    (onValue key_k_uint_5 [] nested_array_record GrepHandler.new) = Some true /\
  option_map GrepHandler.recordPrecedesPattern
    (onValue key_k_uint_5 []
       (VObject [(Inline ["j"], VUint 1); (Inline ["k"], VUint 5)])
       GrepHandler.new) = Some false /\
  option_map GrepHandler.recordPrecedesPattern
    (onValue key_k_uint_5 [] (VObject [(Inline ["k"], VInt (-3))])
       GrepHandler.new) = Some false.
Proof. repeat split; vm_compute; reflexivity. Qed.

(** ** C3 *)

(** C3 (as the code has it): [check_values_here] starts as true exactly when
    there is no key pattern; an array starts with the value it has where the
    array stands, an object starts with false and each of its keys sets it to
    whether that key matches [key_name].  Hence a scalar matching the pattern
    is detected exactly when it is checked: directly under a matching key or
    inside arrays nested there, and inside a nested object only under a key of
    that object that matches. *)
Theorem matched_iff_checked_scalar (p : Pattern) (dict : list string)
  (v : Value) (h0 : GrepHandler.t) :
  in_range dict v = true ->
  GrepHandler.back (GrepHandler.onValue_reset p dict h0)
  = Some {| GrepHandler.context := GrepHandler.BARE;
            GrepHandler.counter := 0;
            GrepHandler.checkVal := negb (requiresKeyMatch p) |} /\
  (forall h c,
      GrepHandler.back h = Some c ->
      exists h' c', GrepHandler.onArrayStart h = Some h' /\
                    GrepHandler.back h' = Some c' /\
                    GrepHandler.checkVal c' = GrepHandler.checkVal c) /\
  (forall h,
      exists h' c', GrepHandler.onObjectStart h = Some h' /\
                    GrepHandler.back h' = Some c' /\
                    GrepHandler.checkVal c' = false) /\
  exists h,
    onValue p dict v h0 = Some h /\
    (GrepHandler.matched h = true <->
     exists leaf,
       checked p dict (negb (requiresKeyMatch p)) v leaf /\
       leaf_matches p dict leaf = true).
Proof.
  intro Hr. split; [reflexivity|]. split; [|split].
  - intros h c Hb. unfold GrepHandler.onArrayStart. rewrite Hb.
    eexists; eexists. split; [reflexivity|]. split; reflexivity.
  - intros h. eexists; eexists. split; [reflexivity|]. split; reflexivity.
  - destruct (onValue_flags p dict v h0 Hr) as (h & Hrun & Hm & _).
    exists h. split; [exact Hrun|]. rewrite Hm. apply scan_iff.
Qed.

Lemma matched_iff_checked_scalar_witness :
  exists h,
    onValue key_k_uint_5 [] nested_array_record GrepHandler.new = Some h /\
    (GrepHandler.matched h = true <->
     exists leaf,
       checked key_k_uint_5 [] (negb (requiresKeyMatch key_k_uint_5))
         nested_array_record leaf /\
       leaf_matches key_k_uint_5 [] leaf = true).
Proof.
  apply (matched_iff_checked_scalar key_k_uint_5 [] nested_array_record
           GrepHandler.new).
  reflexivity.
Defined.

(** [au grep -k k -u 5] on [{"k": {"a": 5}}]: the key [k] matches, the value 5
    lies in the subtree under it and matches the pattern, and the record is
    not matched; the same 5 in an array under [k] is. *)
Lemma nested_object_scalar_not_detected :
  matchesKey key_k_uint_5 (text [] (Inline ["k"])) = true /\
  inside (VObject [(Inline ["a"], VUint 5)]) (VUint 5) /\
  leaf_matches key_k_uint_5 [] (VUint 5) = true /\
  option_map GrepHandler.matched
    (onValue key_k_uint_5 [] nested_object_record GrepHandler.new)
  = Some false /\
  option_map GrepHandler.matched
    (onValue key_k_uint_5 [] nested_array_record GrepHandler.new)
  = Some true.
Proof.
  split; [reflexivity|]. split.
  - apply inside_member with (Inline ["a"]) (VUint 5).
    + now left.
    + now constructor.
  - split; [reflexivity|]. split; vm_compute; reflexivity.
Qed.

(** ** C6 *)

Section Slices.
Import FileByteSource.

Lemma zlength_nonneg (l : list byte) : 0 <= zlength l.
Proof. unfold zlength. lia. Qed.

Lemma slice_length (l : list byte) (from len : Z) :
  0 <= from -> 0 <= len -> from + len <= zlength l ->
  zlength (slice l from len) = len.
Proof.
  unfold zlength, slice. intros Hf Hl Hle.
  rewrite length_firstn, length_skipn. lia.
Qed.

Lemma firstn_plus (a b : nat) : forall l : list byte,
  firstn (a + b) l = firstn a l ++ firstn b (skipn a l).
Proof.
  induction a as [|a IH]; intros [|x l]; simpl.
  - reflexivity.
  - reflexivity.
  - now rewrite firstn_nil.
  - now rewrite IH.
Qed.

Lemma slice_app (l : list byte) (from a b : Z) :
  0 <= from -> 0 <= a -> 0 <= b ->
  slice l from a ++ slice l (from + a) b = slice l from (a + b).
Proof.
  intros Hf Ha Hb. unfold slice.
  rewrite (Z2Nat.inj_add a b), firstn_plus by lia.
  rewrite skipn_skipn, (Z2Nat.inj_add from a) by lia.
  now rewrite (Nat.add_comm (Z.to_nat a)).
Qed.

Lemma skipn_slice (l : list byte) (from len k : Z) :
  0 <= from -> 0 <= k <= len ->
  skipn (Z.to_nat k) (slice l from len) = slice l (from + k) (len - k).
Proof.
  intros Hf Hk. unfold slice.
  rewrite skipn_firstn_comm, skipn_skipn.
  rewrite (Z2Nat.inj_add from k), (Z2Nat.inj_sub len k) by lia.
  now rewrite (Nat.add_comm (Z.to_nat k)).
Qed.

Lemma nth_slice (l : list byte) (from len i : Z) (d : byte) :
  0 <= from -> 0 <= i < len ->
  nth (Z.to_nat i) (slice l from len) d = nth (Z.to_nat (from + i)) l d.
Proof.
  intros Hf Hi. unfold slice.
  rewrite nth_firstn.
  destruct (Nat.ltb_spec (Z.to_nat i) (Z.to_nat len)) as [_|H]; [|lia].
  rewrite nth_skipn. f_equal. lia.
Qed.

End Slices.

Section Seek.
Import FileByteSource.

Lemma seek_in_history (s : t) (abspos : Z) :
  in_history s abspos ->
  seek abspos s =
  Ok tt {| INIT_BUFFER_SIZE := INIT_BUFFER_SIZE s; bufSize_ := bufSize_ s;
           buf_ := buf_ s; pos_ := abspos;
           cur_ := cur_ s - (pos_ s - abspos); pinPos_ := pinPos_ s;
           waitForData_ := waitForData_ s; stream := stream s |}.
Proof.
  intros [Hlo Hhi]. unfold seek.
  destruct (abspos <? pos_ s) eqn:E1; [|lia].
  destruct (pos_ s - abspos <=? cur_ s) eqn:E2; [|lia].
  cbn [andb]. do 2 f_equal. lia.
Qed.

Lemma seek_outside_history (s : t) (abspos : Z) :
  ~ in_history s abspos ->
  seek abspos s =
  match doSeek (stream s) abspos with
  | None => Throw (runtime_error "failed to seek to desired location") s
  | Some st =>
      match read (reseeked s abspos st) with
      | Ok true s' => Ok tt s'
      | Ok false s' =>
          Throw (runtime_error "failed to read from new location") s'
      | Throw e s' => Throw e s'
      | Blocked s' => Blocked s'
      | NoFuel => NoFuel
      end
  end.
Proof.
  intro Hn. unfold seek, in_history in *.
  destruct (abspos <? pos_ s) eqn:E1;
    destruct (pos_ s - abspos <=? cur_ s) eqn:E2; cbn [andb];
    try reflexivity.
  exfalso. apply Hn. lia.
Qed.

(** [read] on the emptied buffer of a reseek, when the file has bytes at
    [abspos]: the buffer is refilled with the bytes found there. *)
Lemma read_after_reseek (s : t) (abspos : Z) (st : Stream) :
  0 <= abspos ->
  doSeek (stream s) abspos = Some st ->
  0 < bufSize_ s ->
  abspos < zlength (data (stream s)) ->
  read_fails (stream s) abspos = false ->
  exists s',
    read (reseeked s abspos st) = Ok true s' /\
    pinPos_ s' = None /\ pos_ s' = abspos /\ cur_ s' = 0 /\
    0 < limit_ s' /\
    buf_ s' = slice (data (stream s)) abspos (limit_ s') /\
    data (stream s') = data (stream s) /\
    offset (stream s') = abspos + limit_ s' /\
    syscalls (stream s')
    = sys_read abspos (bufSize_ s) :: sys_lseek abspos :: syscalls (stream s).
Proof.
  intros Hpos Hseek Hsize Hdata Hfail.
  unfold doSeek in Hseek.
  destruct (seekable (stream s) && (abspos <? 2 ^ 63)); [|discriminate].
  inversion Hseek as [Hst]. clear Hseek.
  unfold read, compact, histSz, grow, buffFree, limit_, reseeked, with_buffer.
  cbn [pinPos_ cur_ buf_ bufSize_ stream pos_ INIT_BUFFER_SIZE waitForData_].
  change (zlength []) with 0. change (0 >? MIN_HIST_SIZE) with false.
  cbn [pinPos_ cur_ buf_ bufSize_ stream pos_ INIT_BUFFER_SIZE waitForData_].
  change (zlength []) with 0. rewrite Z.sub_0_r.
  destruct (bufSize_ s =? 0) eqn:E0; [lia|].
  cbn [pinPos_ cur_ buf_ bufSize_ stream pos_ INIT_BUFFER_SIZE waitForData_].
  change (zlength []) with 0. rewrite Z.sub_0_r.
  unfold doRead.
  cbn [data offset seekable chunk read_fails syscalls].
  rewrite Hfail.
  destruct (bufSize_ s <=? 0) eqn:E1; [lia|].
  destruct (zlength (data (stream s)) - abspos <=? 0) eqn:E2; [lia|].
  cbn [orb].
  set (n := Z.max 1 (Z.min (chunk (stream s) abspos (bufSize_ s))
                       (Z.min (bufSize_ s)
                          (zlength (data (stream s)) - abspos)))).
  assert (Hn : 1 <= n <= zlength (data (stream s)) - abspos) by (unfold n; lia).
  destruct (n <? 0) eqn:E3; [lia|]. destruct (n =? 0) eqn:E4; [lia|].
  eexists. split; [reflexivity|].
  cbn [pinPos_ cur_ buf_ bufSize_ stream pos_ data offset syscalls app].
  rewrite (slice_length (data (stream s)) abspos n) by lia.
  repeat split; try reflexivity; lia.
Qed.

End Seek.

(** C6: [seek(abspos)] with [abspos] in the retained history of the buffer
    only moves the cursor and the tracked position: pin, buffer contents and
    underlying stream are untouched.  Otherwise the source reseeks the
    underlying stream to [abspos], drops the pin and refills the buffer from
    there (and throws when the stream cannot be reseeked or has nothing to
    read at [abspos]). *)
Theorem seek_history_or_reseek (s : FileByteSource.t) (abspos : Z) :
  0 <= abspos ->
  (in_history s abspos ->
   exists s',
     FileByteSource.seek abspos s = FileByteSource.Ok tt s' /\
     FileByteSource.pos_ s' = abspos /\
     FileByteSource.cur_ s'
     = FileByteSource.cur_ s - (FileByteSource.pos_ s - abspos) /\
     FileByteSource.pinPos_ s' = FileByteSource.pinPos_ s /\
     FileByteSource.buf_ s' = FileByteSource.buf_ s /\
     FileByteSource.bufSize_ s' = FileByteSource.bufSize_ s /\
     FileByteSource.stream s' = FileByteSource.stream s) /\
  (~ in_history s abspos ->
   (* what a completed seek has done *)
   (forall s',
       FileByteSource.seek abspos s = FileByteSource.Ok tt s' ->
       exists st,
         FileByteSource.doSeek (FileByteSource.stream s) abspos = Some st /\
         FileByteSource.offset st = abspos /\
         FileByteSource.read (FileByteSource.reseeked s abspos st)
         = FileByteSource.Ok true s' /\
         FileByteSource.pinPos_ s' = None /\
         FileByteSource.pos_ s' = abspos) /\
   (* and it completes whenever the stream has bytes at [abspos] *)
   (FileByteSource.seekable (FileByteSource.stream s) = true ->
    abspos < 2 ^ 63 ->
    abspos < FileByteSource.zlength (FileByteSource.data (FileByteSource.stream s)) ->
    FileByteSource.read_fails (FileByteSource.stream s) abspos = false ->
    0 < FileByteSource.bufSize_ s ->
    exists s',
      FileByteSource.seek abspos s = FileByteSource.Ok tt s' /\
      FileByteSource.pinPos_ s' = None /\
      FileByteSource.pos_ s' = abspos /\
      FileByteSource.cur_ s' = 0 /\
      0 < FileByteSource.limit_ s' /\
      FileByteSource.buf_ s'
      = FileByteSource.slice (FileByteSource.data (FileByteSource.stream s))
          abspos (FileByteSource.limit_ s') /\
      FileByteSource.syscalls (FileByteSource.stream s')
      = FileByteSource.sys_read abspos (FileByteSource.bufSize_ s)
        :: FileByteSource.sys_lseek abspos
        :: FileByteSource.syscalls (FileByteSource.stream s))).
Proof.
  intro Hpos. split.
  - intro Hin. rewrite (seek_in_history s abspos Hin).
    eexists. split; [reflexivity|]. cbn. repeat split; reflexivity.
  - intro Hout. rewrite (seek_outside_history s abspos Hout). split.
    + intros s' Hok.
      destruct (FileByteSource.doSeek (FileByteSource.stream s) abspos)
        as [st|] eqn:Hseek; [|discriminate].
      exists st. split; [reflexivity|].
      assert (Hoff : FileByteSource.offset st = abspos).
      { unfold FileByteSource.doSeek in Hseek.
        destruct (FileByteSource.seekable (FileByteSource.stream s)
                  && (abspos <? 2 ^ 63)); [|discriminate].
        inversion Hseek. reflexivity. }
      split; [exact Hoff|].
      destruct (FileByteSource.read (FileByteSource.reseeked s abspos st))
        as [[|] s1|e s1|s1|] eqn:Hread; try discriminate.
      inversion Hok. subst s1. split; [reflexivity|].
      revert Hread. unfold FileByteSource.read.
      destruct (FileByteSource.doRead _ _) as [[n bytes] st'].
      destruct (n <? 0); [discriminate|].
      destruct (n =? 0); [destruct (FileByteSource.waitForData_ _); discriminate|].
      intro Hread. inversion Hread. cbn.
      unfold FileByteSource.grow, FileByteSource.compact.
      repeat match goal with
             | |- context [if ?b then _ else _] => destruct b
             end; cbn; split; reflexivity.
    + intros Hseekable Hoff Hdata Hfail Hsize.
      assert (Hseek : FileByteSource.doSeek (FileByteSource.stream s) abspos
                      = Some {| FileByteSource.data :=
                                  FileByteSource.data (FileByteSource.stream s);
                                FileByteSource.offset := abspos;
                                FileByteSource.seekable :=
                                  FileByteSource.seekable (FileByteSource.stream s);
                                FileByteSource.chunk :=
                                  FileByteSource.chunk (FileByteSource.stream s);
                                FileByteSource.read_fails :=
                                  FileByteSource.read_fails (FileByteSource.stream s);
                                FileByteSource.syscalls :=
                                  FileByteSource.sys_lseek abspos
                                  :: FileByteSource.syscalls
                                       (FileByteSource.stream s) |}).
      { unfold FileByteSource.doSeek. rewrite Hseekable.
        destruct (abspos <? 2 ^ 63) eqn:E; [reflexivity|lia]. }
      rewrite Hseek.
      destruct (read_after_reseek s abspos _ Hpos Hseek Hsize Hdata Hfail)
        as (s' & Hread & Hpin & Hp & Hc & Hl & Hb & _ & _ & Hsys).
      rewrite Hread. exists s'. repeat split; assumption.
Qed.

Lemma seek_history_or_reseek_witness :
  exists s',
    FileByteSource.seek 1
      {| FileByteSource.INIT_BUFFER_SIZE := 8; FileByteSource.bufSize_ := 8;
         FileByteSource.buf_ := list_ascii_of_string "abcd";
         FileByteSource.pos_ := 3; FileByteSource.cur_ := 3;
         FileByteSource.pinPos_ := Some 2;
         FileByteSource.waitForData_ := false;
         FileByteSource.stream := stream_of "abcdef" 4 |}
    = FileByteSource.Ok tt s' /\
    FileByteSource.pos_ s' = 1 /\
    FileByteSource.cur_ s' = 3 - (3 - 1) /\
    FileByteSource.pinPos_ s' = Some 2 /\
    FileByteSource.buf_ s' = list_ascii_of_string "abcd" /\
    FileByteSource.bufSize_ s' = 8 /\
    FileByteSource.stream s' = stream_of "abcdef" 4.
Proof.
  refine (proj1 (seek_history_or_reseek _ 1 _) _).
  - lia.
  - unfold in_history. cbn. lia.
Defined.

(** ** C7 *)

Section PinnedHistory.
Import FileByteSource.

Lemma keeps_refl (s : t) : window s -> keeps s s.
Proof.
  intro H. unfold keeps.
  split; [exact H | split; [reflexivity | split; [lia | split; [reflexivity | auto]]]].
Qed.

Lemma keeps_trans (s1 s2 s3 : t) : keeps s1 s2 -> keeps s2 s3 -> keeps s1 s3.
Proof.
  intros (_ & Hd1 & Hp1 & Hpin1 & Hk1) (Hw & Hd2 & Hp2 & Hpin2 & Hk2).
  unfold keeps. split; [exact Hw|]. split; [congruence|]. split; [lia|].
  split; [congruence|]. intros P HP. apply Hk2, Hk1, HP.
Qed.

Lemma histSz_lower (s : t) : MIN_HIST_SIZE <= histSz s.
Proof.
  unfold histSz. destruct (pinPos_ s) as [pin|]; [|lia].
  destruct (pin <? pos_ s); lia.
Qed.

Lemma histSz_covers_pin (s : t) (P : Z) :
  pinPos_ s = Some P -> pos_ s - histSz s <= P.
Proof.
  intro H. unfold histSz. rewrite H.
  destruct (P <? pos_ s) eqn:E; unfold MIN_HIST_SIZE; lia.
Qed.

(** The [memmove] keeps exactly [histSz] bytes behind the cursor, which is at
    least [MIN_HIST_SIZE] and reaches back to the pin. *)
Lemma compact_keeps (s : t) :
  window s ->
  keeps s (compact s) /\
  stream (compact s) = stream s /\
  pos_ (compact s) = pos_ s /\
  bufSize_ (compact s) = bufSize_ s /\
  (histSz s < cur_ s ->
   cur_ (compact s) = histSz s /\
   buf_ (compact s) = skipn (Z.to_nat (cur_ s - histSz s)) (buf_ s)) /\
  (cur_ s <= histSz s -> compact s = s).
Proof.
  intros Hw. pose proof Hw as (Hc & Hcp & Hoff & Hlen & Hbound & Hbuf).
  pose proof (histSz_lower s) as Hh. unfold MIN_HIST_SIZE in Hh.
  unfold compact. destruct (cur_ s >? histSz s) eqn:E.
  - set (s' := with_buffer s (bufSize_ s)
                 (skipn (Z.to_nat (cur_ s - histSz s)) (buf_ s))
                 (cur_ s - (cur_ s - histSz s)) (stream s)).
    assert (Hlim : limit_ s' = limit_ s - (cur_ s - histSz s)).
    { unfold limit_, s', with_buffer, zlength. cbn [buf_].
      rewrite length_skipn. unfold limit_, zlength in Hc. lia. }
    assert (Hw' : window s').
    { unfold window. cbv zeta. rewrite Hlim. unfold s'.
      cbn [cur_ pos_ stream buf_ with_buffer].
      split; [lia|]. split; [lia|]. split; [lia|]. split; [exact Hlen|].
      split; [exact Hbound|].
      rewrite Hbuf at 1. rewrite skipn_slice by lia. f_equal; lia. }
    split.
    { unfold keeps. split; [exact Hw'|]. split; [reflexivity|].
      split; [cbn; lia|]. split; [reflexivity|].
      intros P [Hpin _]. split; [exact Hpin|].
      unfold s'. cbn [cur_ pos_ with_buffer].
      pose proof (histSz_covers_pin s P Hpin). lia. }
    split; [reflexivity|]. split; [reflexivity|]. split; [reflexivity|].
    split.
    + intros _. split; [unfold s'; cbn [cur_ with_buffer]; lia | reflexivity].
    + intro Hle. lia.
  - split; [now apply keeps_refl|].
    split; [reflexivity|]. split; [reflexivity|]. split; [reflexivity|].
    split; [intro; lia | reflexivity].
Qed.

Lemma grow_fields (s : t) :
  buf_ (grow s) = buf_ s /\ cur_ (grow s) = cur_ s /\ pos_ (grow s) = pos_ s /\
  pinPos_ (grow s) = pinPos_ s /\ stream (grow s) = stream s /\
  waitForData_ (grow s) = waitForData_ s.
Proof. unfold grow. destruct (buffFree s =? 0); repeat split; reflexivity. Qed.

Lemma doRead_cases (st : Stream) (len n : Z) (bytes : list byte) (st' : Stream) :
  doRead st len = (n, bytes, st') ->
  0 <= offset st <= zlength (data st) ->
  data st' = data st /\
  (n < 0 \/
   (n = 0 /\ bytes = [] /\ offset st' = offset st) \/
   (0 < n /\ bytes = slice (data st) (offset st) n /\
    offset st' = offset st + n /\ offset st + n <= zlength (data st))).
Proof.
  unfold doRead. intros H Hoff.
  destruct (read_fails st (offset st)).
  - inversion H. split; [reflexivity|]. left. lia.
  - destruct ((len <=? 0) || (zlength (data st) - offset st <=? 0)) eqn:E.
    + inversion H. split; [reflexivity|]. right. left. now repeat split.
    + apply orb_false_elim in E. destruct E as [E1 E2].
      inversion H. split; [reflexivity|]. right. right.
      cbn [offset]. repeat split; lia.
Qed.

(** [read] keeps the window and the pinned history, and a successful one
    makes more bytes available. *)
Lemma read_keeps (s : t) (b : bool) (s' : t) :
  window s -> read s = Ok b s' ->
  keeps s s' /\ pos_ s' = pos_ s /\
  (b = true -> buffAvail s < buffAvail s').
Proof.
  intros Hw Hread.
  destruct (compact_keeps s Hw) as (Hk0 & Hst0 & Hpos0 & _ & _ & _).
  assert (Havail0 : buffAvail (compact s) = buffAvail s).
  { unfold compact. destruct (cur_ s >? histSz s) eqn:E; [|reflexivity].
    unfold buffAvail, limit_, with_buffer, zlength. cbn [buf_ cur_].
    rewrite length_skipn. destruct Hw as (Hc & _).
    unfold limit_, zlength in Hc. pose proof (histSz_lower s).
    unfold MIN_HIST_SIZE in *. lia. }
  destruct (grow_fields (compact s)) as (Gb & Gc & Gp & Gpin & Gst & Gw).
  set (s1 := grow (compact s)) in *.
  pose proof Hk0 as (Hw0 & Hd0 & _ & Hpin0 & Hkeep0).
  pose proof Hw0 as (Hc & Hcp & Hoff & Hlen & Hbound & Hbuf).
  assert (Hl1 : limit_ s1 = limit_ (compact s)) by (unfold limit_; now rewrite Gb).
  unfold read in Hread. fold s1 in Hread.
  destruct (doRead (stream s1) (buffFree s1)) as [[n bytes] st'] eqn:Hdo.
  assert (Hrange : 0 <= offset (stream s1) <= zlength (data (stream s1))).
  { rewrite Gst. split; [|exact Hlen]. rewrite Hoff. lia. }
  destruct (doRead_cases _ _ _ _ _ Hdo Hrange) as (Hdata & Hcases).
  rewrite Gst in Hdata, Hcases.
  destruct (n <? 0) eqn:En; [discriminate|].
  destruct (n =? 0) eqn:Ez.
  - destruct (waitForData_ s); [discriminate|]. inversion Hread. subst b s'.
    destruct Hcases as [Hc1|[(_ & _ & Ho)|(Hc1 & _)]]; try lia.
    assert (Hw' : window (with_buffer s1 (bufSize_ s1) (buf_ s1) (cur_ s1) st')).
    { unfold window. cbv zeta. unfold limit_, with_buffer.
      cbn [cur_ pos_ stream buf_]. rewrite Gb, Gc, Gp, Hdata, Ho.
      unfold limit_ in *. repeat split; try assumption; apply Hc. }
    split; [|split; [cbn; rewrite Gp; exact Hpos0 | discriminate]].
    unfold keeps. split; [exact Hw'|].
    cbn [cur_ pos_ stream buf_ pinPos_ with_buffer].
    rewrite Gp, Gpin, Hdata, Hd0, Hpin0.
    split; [reflexivity|]. split; [lia|]. split; [reflexivity|].
    intros P HP. destruct (Hkeep0 P HP) as [Hp1 Hp2].
    unfold pinned. cbn [cur_ pos_ pinPos_ with_buffer].
    rewrite Gp, Gc, Gpin. split; assumption.
  - inversion Hread. subst b s'.
    destruct Hcases as [Hc1|[(Hc1 & _)|(Hn & Hbytes & Ho & Hle)]]; try lia.
    assert (Hsl : zlength bytes = n).
    { rewrite Hbytes. apply slice_length; lia. }
    assert (Hlim' : limit_ (with_buffer s1 (bufSize_ s1) (buf_ s1 ++ bytes)
                              (cur_ s1) st') = limit_ (compact s) + n).
    { unfold limit_, with_buffer, zlength. cbn [buf_]. rewrite length_app, Gb.
      unfold zlength in Hsl. lia. }
    assert (Hw' : window (with_buffer s1 (bufSize_ s1) (buf_ s1 ++ bytes)
                            (cur_ s1) st')).
    { unfold window. cbv zeta. rewrite Hlim'.
      cbn [cur_ pos_ stream buf_ with_buffer].
      rewrite Gb, Gc, Gp, Hdata, Ho.
      split; [lia|]. split; [exact Hcp|]. split; [lia|]. split; [lia|].
      split; [exact Hbound|].
      rewrite Hbuf at 1. rewrite Hbytes, Hoff.
      apply slice_app; lia. }
    split; [|split].
    + unfold keeps. split; [exact Hw'|].
      cbn [cur_ pos_ stream buf_ pinPos_ with_buffer].
      rewrite Gp, Gpin, Hdata, Hd0, Hpin0.
      split; [reflexivity|]. split; [lia|]. split; [reflexivity|].
      intros P HP. destruct (Hkeep0 P HP) as [Hp1 Hp2].
      unfold pinned. cbn [cur_ pos_ pinPos_ with_buffer].
      rewrite Gp, Gc, Gpin. split; assumption.
    + cbn. rewrite Gp. exact Hpos0.
    + intros _. unfold buffAvail at 2. rewrite Hlim'.
      cbn [cur_ with_buffer]. rewrite Gc. rewrite <- Havail0.
      unfold buffAvail. lia.
Qed.


Lemma advance_keeps (s : t) (n : Z) :
  window s -> 0 <= n <= buffAvail s ->
  keeps s (advance s n) /\ pos_ (advance s n) = pos_ s + n.
Proof.
  intros Hw Hn. pose proof Hw as (Hc & Hcp & Hoff & Hlen & Hbound & Hbuf).
  unfold buffAvail in Hn.
  assert (Hwrap : wrap64 (pos_ s + n) = pos_ s + n) by (apply wrap64_small; lia).
  assert (Hw' : window (advance s n)).
  { unfold window. cbv zeta. unfold limit_, advance in *.
    cbn [cur_ pos_ stream buf_]. rewrite Hwrap.
    split; [lia|]. split; [lia|]. split; [lia|]. split; [exact Hlen|].
    split; [exact Hbound|].
    rewrite Hbuf at 1. f_equal. lia. }
  split; [|exact Hwrap].
  unfold keeps. split; [exact Hw'|]. split; [reflexivity|].
  cbn [pos_ advance pinPos_]. rewrite Hwrap.
  split; [lia|]. split; [reflexivity|].
  intros P [Hp1 Hp2]. unfold pinned. cbn [pos_ cur_ pinPos_ advance].
  rewrite Hwrap. split; [exact Hp1 | lia].
Qed.




End PinnedHistory.


(** The window is established by the constructor and kept by [seek]: it holds
    in every state a reader can observe. *)
Lemma new_window (st : FileByteSource.Stream) (waitForData : bool) (k : Z) :
  FileByteSource.offset st = 0 ->
  FileByteSource.zlength (FileByteSource.data st) < 2 ^ 64 ->
  window (FileByteSource.new st waitForData k).
Proof.
  intros Hoff Hlen. unfold window. cbv zeta.
  unfold FileByteSource.limit_, FileByteSource.new.
  cbn [FileByteSource.cur_ FileByteSource.pos_ FileByteSource.stream
       FileByteSource.buf_].
  change (FileByteSource.zlength []) with 0. rewrite Hoff.
  pose proof (zlength_nonneg (FileByteSource.data st)).
  repeat split; try lia; reflexivity.
Qed.

Lemma read_true_offset (s s' : FileByteSource.t) :
  FileByteSource.read s = FileByteSource.Ok true s' ->
  FileByteSource.offset (FileByteSource.stream s)
  < FileByteSource.zlength (FileByteSource.data (FileByteSource.stream s)).
Proof.
  unfold FileByteSource.read.
  assert (Hst : FileByteSource.stream (FileByteSource.grow (FileByteSource.compact s))
                = FileByteSource.stream s).
  { rewrite (proj1 (proj2 (proj2 (proj2 (proj2
               (grow_fields (FileByteSource.compact s))))))).
    unfold FileByteSource.compact.
    destruct (FileByteSource.cur_ s >? FileByteSource.histSz s); reflexivity. }
  rewrite Hst.
  set (len := FileByteSource.buffFree _).
  unfold FileByteSource.doRead.
  destruct (FileByteSource.read_fails (FileByteSource.stream s) _);
    [cbn; discriminate|].
  destruct ((len <=? 0) || _) eqn:E.
  - cbn. destruct (FileByteSource.waitForData_ s); discriminate.
  - intros _. apply orb_false_elim in E. lia.
Qed.

Lemma seek_window (s : FileByteSource.t) (abspos : Z) (s' : FileByteSource.t) :
  window s -> 0 <= abspos ->
  FileByteSource.seek abspos s = FileByteSource.Ok tt s' ->
  window s' /\ FileByteSource.pos_ s' = abspos /\
  FileByteSource.data (FileByteSource.stream s')
  = FileByteSource.data (FileByteSource.stream s).
Proof.
  intros Hw Hpos Hseek.
  pose proof Hw as (Hc & Hcp & Hoff & Hlen & Hbound & Hbuf).
  unfold FileByteSource.seek in Hseek.
  destruct ((abspos <? FileByteSource.pos_ s)
            && (FileByteSource.pos_ s - abspos <=? FileByteSource.cur_ s)) eqn:E.
  - apply andb_prop in E. destruct E as [E1 E2].
    inversion Hseek. subst s'. clear Hseek.
    unfold window. cbv zeta. unfold FileByteSource.limit_ in *.
    cbn [FileByteSource.cur_ FileByteSource.pos_ FileByteSource.stream
         FileByteSource.buf_].
    split; [|split; [lia|reflexivity]].
    split; [lia|]. split; [lia|]. split; [lia|]. split; [exact Hlen|].
    split; [exact Hbound|]. rewrite Hbuf at 1. f_equal. lia.
  - destruct (FileByteSource.doSeek (FileByteSource.stream s) abspos)
      as [st|] eqn:Hds; [|discriminate].
    destruct (FileByteSource.read (FileByteSource.reseeked s abspos st))
      as [[|] s1|e s1|s1|] eqn:Hread; try discriminate.
    inversion Hseek. subst s1. clear Hseek.
    assert (Hst : FileByteSource.offset st = abspos /\
                  FileByteSource.data st
                  = FileByteSource.data (FileByteSource.stream s)).
    { unfold FileByteSource.doSeek in Hds.
      destruct (FileByteSource.seekable (FileByteSource.stream s)
                && (abspos <? 2 ^ 63)); [|discriminate].
      inversion Hds. split; reflexivity. }
    destruct Hst as [Hso Hsd].
    pose proof (read_true_offset _ _ Hread) as Hlt.
    cbn [FileByteSource.stream FileByteSource.reseeked] in Hlt.
    rewrite Hso, Hsd in Hlt.
    assert (Hwr : window (FileByteSource.reseeked s abspos st)).
    { unfold window. cbv zeta.
      unfold FileByteSource.limit_, FileByteSource.reseeked.
      cbn [FileByteSource.cur_ FileByteSource.pos_ FileByteSource.stream
           FileByteSource.buf_].
      change (FileByteSource.zlength []) with 0. rewrite Hso, Hsd.
      repeat split; try lia; reflexivity. }
    destruct (read_keeps _ _ _ Hwr Hread) as ((Hw' & Hd' & _) & Hp & _).
    split; [exact Hw'|]. split; [exact Hp|].
    rewrite Hd'. exact Hsd.
Qed.





Example consumed_source_position :
  FileByteSource.pos_ consumed_source = 3 /\
  FileByteSource.cur_ consumed_source = 3 /\
  FileByteSource.pinPos_ consumed_source = Some 0.
Proof. repeat split; vm_compute; reflexivity. Qed.

(** ** [scanTo]: what a successful search has found *)

Section ScanTo.
Import FileByteSource.

Variable needle : list byte.

Lemma is_prefix_firstn : forall hay,
  is_prefix needle hay = true <-> firstn (List.length needle) hay = needle.
Proof.
  induction needle as [|x nd IH]; intros [|y hay]; cbn [is_prefix firstn List.length].
  - tauto.
  - tauto.
  - split; discriminate.
  - rewrite andb_true_iff, Ascii.eqb_eq, IH. split.
    + intros [-> ->]. reflexivity.
    + intro H. inversion H. subst. now rewrite H2.
Qed.

Lemma memmem_some : forall hay off,
  memmem hay needle = Some off ->
  0 <= off <= zlength hay /\
  is_prefix needle (skipn (Z.to_nat off) hay) = true /\
  (forall k, 0 <= k < off ->
             is_prefix needle (skipn (Z.to_nat k) hay) = false).
Proof.
  induction hay as [|x hay IH]; intros off H; cbn [memmem] in H.
  - destruct (is_prefix needle []) eqn:E; [|discriminate].
    inversion H. subst off. unfold zlength. cbn. split; [lia|].
    split; [exact E|]. intros k Hk. lia.
  - destruct (is_prefix needle (x :: hay)) eqn:E.
    + inversion H. subst off. unfold zlength. cbn [List.length].
      split; [lia|]. split; [exact E|]. intros k Hk. lia.
    + destruct (memmem hay needle) as [off'|] eqn:Em; [|discriminate].
      inversion H. subst off. clear H.
      destruct (IH off' eq_refl) as (Hr & Hp & Hmin).
      unfold zlength in *. cbn [List.length].
      split; [lia|].
      replace (Z.to_nat (off' + 1)) with (S (Z.to_nat off')) by lia.
      split; [exact Hp|].
      intros k Hk. destruct (Z.eq_dec k 0) as [->|Hne]; [exact E|].
      replace (Z.to_nat k) with (S (Z.to_nat (k - 1))) by lia.
      cbn [skipn]. apply Hmin. lia.
Qed.

Lemma memmem_none : forall hay,
  memmem hay needle = None ->
  forall k, 0 <= k -> is_prefix needle (skipn (Z.to_nat k) hay) = false.
Proof.
  induction hay as [|x hay IH]; intros H k Hk; cbn [memmem] in H.
  - destruct (is_prefix needle []) eqn:E; [discriminate|].
    now rewrite skipn_nil.
  - destruct (is_prefix needle (x :: hay)) eqn:E; [discriminate|].
    destruct (memmem hay needle) eqn:Em; [discriminate|].
    destruct (Z.eq_dec k 0) as [->|Hne]; [exact E|].
    replace (Z.to_nat k) with (S (Z.to_nat (k - 1))) by lia.
    cbn [skipn]. apply IH; [reflexivity|lia].
Qed.

(** The bytes from the cursor to the limit are those of the file from [pos_]. *)
Lemma unread_bytes (s : t) :
  window s ->
  skipn (Z.to_nat (cur_ s)) (buf_ s)
  = slice (data (stream s)) (pos_ s) (buffAvail s).
Proof.
  intros (Hc & Hcp & _ & _ & _ & Hbuf).
  rewrite Hbuf at 1. rewrite skipn_slice by lia.
  unfold buffAvail. f_equal. lia.
Qed.

Lemma prefix_in_window (file : list byte) (P a k : Z) :
  0 <= P -> 0 <= k <= a ->
  is_prefix needle (skipn (Z.to_nat k) (slice file P a)) = true ->
  occurs_at file needle (P + k) /\ k + zlength needle <= a.
Proof.
  intros HP Hk H. rewrite skipn_slice in H by lia.
  apply is_prefix_firstn in H. unfold slice in H.
  rewrite firstn_firstn in H.
  assert (Hlen : (List.length needle <= Z.to_nat (a - k))%nat).
  { apply (f_equal (@List.length byte)) in H.
    rewrite length_firstn in H. lia. }
  rewrite Nat.min_l in H by exact Hlen.
  unfold occurs_at, slice, zlength. rewrite Nat2Z.id.
  split; [split; [lia | exact H] | lia].
Qed.

Lemma occurrence_in_window (file : list byte) (P a q : Z) :
  0 <= P -> P <= q -> q + zlength needle <= P + a ->
  occurs_at file needle q ->
  is_prefix needle (skipn (Z.to_nat (q - P)) (slice file P a)) = true.
Proof.
  intros HP Hq Hfit [_ Hocc]. unfold zlength in *.
  rewrite skipn_slice by lia. apply is_prefix_firstn.
  unfold slice in *. rewrite firstn_firstn, Nat.min_l by lia.
  rewrite Nat2Z.id in Hocc. replace (P + (q - P)) with q by lia. exact Hocc.
Qed.

Lemma ensure_sound (n : Z) (fuel : nat) :
  forall s s1,
    window s -> ensure fuel n s = Ok true s1 ->
    keeps s s1 /\ pos_ s1 = pos_ s /\ n <= buffAvail s1.
Proof.
  induction fuel as [|fuel IH]; intros s s1 Hw H; cbn [ensure] in H.
  - destruct (buffAvail s <? n) eqn:E; [discriminate|].
    inversion H. subst s1. split; [now apply keeps_refl|]. split; [reflexivity|lia].
  - destruct (buffAvail s <? n) eqn:E.
    + destruct (read s) as [[|] s2|e s2|s2|] eqn:Hread; try discriminate.
      destruct (read_keeps s true s2 Hw Hread) as (Hk & Hp & _).
      destruct (IH s2 s1 (proj1 Hk) H) as (Hk2 & Hp2 & Hn).
      split; [now apply keeps_trans with s2|]. split; [congruence|exact Hn].
    + inversion H. subst s1. split; [now apply keeps_refl|].
      split; [reflexivity|lia].
Qed.

(** When [scanTo] answers true the cursor is at an occurrence of the needle,
    and no occurrence starts between the position it was called at and that
    one. *)
Lemma scanTo_found_is_first (fuel : nat) :
  forall s s',
    window s -> scanTo fuel needle s = Ok true s' ->
    window s' /\
    data (stream s') = data (stream s) /\
    pos_ s <= pos_ s' /\
    occurs_at (data (stream s)) needle (pos_ s') /\
    (forall q, pos_ s <= q < pos_ s' ->
               ~ occurs_at (data (stream s)) needle q) /\
    is_prefix needle (skipn (Z.to_nat (cur_ s')) (buf_ s')) = true.
Proof.
  induction fuel as [|fuel IH]; intros s s' Hw H; cbn [scanTo] in H;
    [discriminate|].
  destruct (ensure (S fuel) (zlength needle) s) as [[|] s1|e s1|s1|] eqn:He;
    try discriminate.
  destruct (ensure_sound _ _ s s1 Hw He) as ((Hw1 & Hd1 & _) & Hp1 & Hn1).
  pose proof Hw1 as (Hc1 & Hcp1 & Hoff1 & Hlen1 & Hbound1 & _).
  pose proof (unread_bytes s1 Hw1) as Hunread.
  assert (Hpos1 : 0 <= pos_ s1) by lia.
  assert (Havail : 0 <= buffAvail s1) by (unfold buffAvail; lia).
  destruct (memmem (skipn (Z.to_nat (cur_ s1)) (buf_ s1)) needle)
    as [off|] eqn:Hm.
  - inversion H. subst s'. clear H.
    destruct (memmem_some _ _ Hm) as (Hr & Hp & Hmin).
    rewrite Hunread in Hr, Hp, Hmin.
    assert (Hr' : 0 <= off <= buffAvail s1).
    { unfold zlength, slice in Hr. rewrite length_firstn in Hr. lia. }
    destruct (prefix_in_window _ _ _ _ Hpos1 Hr' Hp) as (Hocc & Hfit).
    assert (Hoff' : 0 <= off <= buffAvail s1) by exact Hr'.
    destruct (advance_keeps s1 off Hw1 Hoff') as ((Hw2 & Hd2 & _) & Hp2).
    rewrite Hd1 in Hocc.
    split; [exact Hw2|]. split; [congruence|]. split; [lia|].
    split; [rewrite Hp2; exact Hocc|]. split.
    + intros q Hq Hoccq. rewrite Hp2, Hp1 in Hq.
      assert (Hfalse : is_prefix needle
                         (skipn (Z.to_nat (q - pos_ s1))
                            (slice (data (stream s1)) (pos_ s1) (buffAvail s1)))
                       = false) by (apply Hmin; lia).
      rewrite occurrence_in_window in Hfalse; try discriminate; try lia.
      rewrite Hd1. exact Hoccq.
    + cbn [cur_ buf_ advance].
      replace (Z.to_nat (cur_ s1 + off))
        with (Z.to_nat off + Z.to_nat (cur_ s1))%nat by lia.
      rewrite <- skipn_skipn, Hunread. exact Hp.
  - pose proof (memmem_none _ Hm) as Hnone. rewrite Hunread in Hnone.
    assert (Hlen : 1 <= zlength needle).
    { destruct needle as [|x nd] eqn:En.
      - specialize (Hnone 0 (Z.le_refl 0)). cbn in Hnone. discriminate.
      - unfold zlength. cbn [List.length]. lia. }
    assert (Hamount : wrap64 (buffAvail s1 - wrap64 (zlength needle - 1))
                      = buffAvail s1 - zlength needle + 1).
    { unfold buffAvail in *. rewrite (wrap64_small (zlength needle - 1)) by lia.
      rewrite wrap64_small by lia. lia. }
    rewrite Hamount in H. unfold skip in H.
    assert (Habs : wrap64 (pos_ s1 + (buffAvail s1 - zlength needle + 1))
                   = pos_ s1 + buffAvail s1 - zlength needle + 1).
    { unfold buffAvail in *. rewrite wrap64_small by lia. lia. }
    rewrite Habs in H.
    destruct (seek (pos_ s1 + buffAvail s1 - zlength needle + 1) s1)
      as [[] s2|e s2|s2|] eqn:Hseek; try discriminate.
    assert (Habs0 : 0 <= pos_ s1 + buffAvail s1 - zlength needle + 1) by lia.
    destruct (seek_window s1 _ s2 Hw1 Habs0 Hseek) as (Hw2 & Hp2 & Hd2).
    destruct (IH s2 s' Hw2 H) as (Hw' & Hd' & Hle & Hocc & Hmin & Hcur).
    rewrite Hd2, Hd1 in Hd', Hocc, Hmin.
    split; [exact Hw'|]. split; [exact Hd'|]. split; [lia|].
    split; [exact Hocc|]. split; [|exact Hcur].
    intros q Hq Hoccq.
    destruct (Z_lt_le_dec q (pos_ s2)) as [Hlt|Hge].
    + assert (Hfalse : is_prefix needle
                         (skipn (Z.to_nat (q - pos_ s1))
                            (slice (data (stream s1)) (pos_ s1) (buffAvail s1)))
                       = false) by (apply Hnone; lia).
      rewrite occurrence_in_window in Hfalse; try discriminate; try lia.
      rewrite Hd1. exact Hoccq.
    + apply (Hmin q); [lia | exact Hoccq].
Qed.

End ScanTo.

(** ** [scanTo] on a plain file: how every search ends *)

Section PlainFile.
Import FileByteSource.

(** On a plain file [read] always returns, and it reports the end of the
    stream only at the end of the file. *)
Lemma read_plain (s : t) :
  window s -> plain_file s ->
  exists b s',
    read s = Ok b s' /\ plain_file s' /\
    (b = false ->
     pos_ s + buffAvail s = zlength (data (stream s)) /\
     buffAvail s' = buffAvail s).
Proof.
  intros Hw Hp.
  destruct (compact_keeps s Hw) as (Hk0 & Hst0 & Hpos0 & Hbs0 & _ & _).
  pose proof Hk0 as (Hw0 & Hd0 & _ & _ & _).
  assert (Havail0 : buffAvail (compact s) = buffAvail s).
  { unfold compact. destruct (cur_ s >? histSz s) eqn:E; [|reflexivity].
    unfold buffAvail, limit_, with_buffer, zlength. cbn [buf_ cur_].
    rewrite length_skipn. destruct Hw as (Hc & _).
    unfold limit_, zlength in Hc. pose proof (histSz_lower s).
    unfold MIN_HIST_SIZE in *. lia. }
  assert (Hlim0 : limit_ (compact s) <= limit_ s).
  { unfold compact. destruct (cur_ s >? histSz s) eqn:E; [|lia].
    unfold limit_, with_buffer, zlength. cbn [buf_].
    rewrite length_skipn. lia. }
  assert (Hinit0 : INIT_BUFFER_SIZE (compact s) = INIT_BUFFER_SIZE s /\
                   waitForData_ (compact s) = waitForData_ s).
  { unfold compact. destruct (cur_ s >? histSz s); split; reflexivity. }
  destruct Hinit0 as [Hinit0 Hwait0].
  destruct Hp as (Hinit & Hlb & Hbs & Hbound & Hlen63 & Hwait & Hseekable & Hfail).
  cbv zeta in *.
  pose proof Hw0 as (Hc & Hcp & Hoff & Hlen & Hlen64 & Hbuf).
  rewrite Hst0 in Hoff, Hlen, Hlen64.
  set (len := zlength (data (stream s))) in *.
  assert (Hlimlen : limit_ (compact s) <= len) by lia.
  (* the buffer after the realloc *)
  set (s1 := grow (compact s)).
  destruct (grow_fields (compact s)) as (Gb & Gc & Gp & Gpin & Gst & Gw).
  fold s1 in Gb, Gc, Gp, Gpin, Gst, Gw.
  assert (Hl1 : limit_ s1 = limit_ (compact s)) by (unfold limit_; now rewrite Gb).
  assert (Hfree : 0 < buffFree s1 /\
                  bufSize_ s1 <= Z.max len (INIT_BUFFER_SIZE s) + INIT_BUFFER_SIZE s /\
                  INIT_BUFFER_SIZE s1 = INIT_BUFFER_SIZE s).
  { unfold s1, grow. destruct (buffFree (compact s) =? 0) eqn:E.
    - unfold buffFree in *. unfold limit_ at 1. cbn [with_buffer bufSize_ buf_ INIT_BUFFER_SIZE].
      fold (limit_ (compact s)). rewrite Hbs0, Hinit0.
      rewrite wrap64_small by lia. lia.
    - unfold buffFree in *. rewrite Hbs0 in *. split; [lia|]. split; [lia|].
      exact Hinit0. }
  destruct Hfree as (Hfree & Hbs1 & Hinit1).
  unfold read. fold s1.
  unfold doRead. rewrite Gst, Hst0, Hfail.
  destruct (buffFree s1 <=? 0) eqn:E1; [lia|]. cbn [orb].
  fold len. rewrite Hoff.
  destruct (len - (pos_ (compact s) - cur_ (compact s) + limit_ (compact s)) <=? 0)
    eqn:E2.
  - (* end of file *)
    cbn [Z.ltb Z.eqb]. rewrite Hwait.
    eexists. eexists. split; [reflexivity|]. split.
    + unfold plain_file. cbv zeta. unfold limit_ in *.
      cbn [with_buffer INIT_BUFFER_SIZE bufSize_ buf_ stream waitForData_ data
           seekable read_fails].
      rewrite Gb, Hinit1, Gw, Hwait0. fold len. unfold buffFree, limit_ in Hfree.
      rewrite Gb in Hfree.
      repeat split; try assumption; try lia.
    + intros _. rewrite <- Havail0. unfold buffAvail at 1 3.
      unfold limit_. cbn [with_buffer cur_ buf_]. rewrite Gb, Gc.
      unfold limit_ in *. split; [|reflexivity].
      rewrite <- Hpos0. unfold buffAvail, limit_. lia.
  - set (n := Z.max 1 (Z.min (chunk (stream s) _ (buffFree s1))
                         (Z.min (buffFree s1) _))).
    assert (Hn : 1 <= n <= buffFree s1) by (unfold n; lia).
    assert (Hn2 : pos_ (compact s) - cur_ (compact s) + limit_ (compact s) + n
                  <= len) by (unfold n; lia).
    destruct (n <? 0) eqn:E3; [lia|]. destruct (n =? 0) eqn:E4; [lia|].
    eexists. eexists. split; [reflexivity|]. split; [|discriminate].
    unfold plain_file. cbv zeta. unfold limit_ in *.
    cbn [with_buffer INIT_BUFFER_SIZE bufSize_ buf_ stream waitForData_ data
         seekable read_fails].
    rewrite Hinit1, Gw, Hwait0. fold len.
    unfold zlength at 1. rewrite length_app, Gb.
    assert (Hsl : zlength (slice (data (stream s))
                             (pos_ (compact s) - cur_ (compact s)
                              + zlength (buf_ (compact s))) n) = n).
    { apply slice_length; fold len; lia. }
    unfold zlength in Hsl at 1. unfold buffFree, limit_ in Hn. rewrite Gb in Hn.
    unfold zlength in *.
    repeat split; try assumption; try lia.
Qed.

Lemma ensure_plain (n : Z) (fuel : nat) :
  forall s,
    window s -> plain_file s ->
    (Z.to_nat (n - buffAvail s) < fuel)%nat ->
    exists b s1,
      ensure fuel n s = Ok b s1 /\
      keeps s s1 /\ plain_file s1 /\ pos_ s1 = pos_ s /\
      (b = true -> n <= buffAvail s1) /\
      (b = false ->
       buffAvail s1 < n /\
       pos_ s1 + buffAvail s1 = zlength (data (stream s))).
Proof.
  induction fuel as [|fuel IH]; intros s Hw Hp Hfuel; [lia|].
  cbn [ensure]. destruct (buffAvail s <? n) eqn:E.
  - destruct (read_plain s Hw Hp) as (b & s2 & Hread & Hp2 & Heof).
    rewrite Hread.
    destruct (read_keeps s b s2 Hw Hread) as (Hk & Hpos & Hmore).
    destruct b.
    + specialize (Hmore eq_refl).
      assert (Hfuel2 : (Z.to_nat (n - buffAvail s2) < fuel)%nat) by lia.
      destruct (IH s2 (proj1 Hk) Hp2 Hfuel2)
        as (b & s1 & Hens & Hk1 & Hp1 & Hpos1 & Ht & Hf).
      exists b, s1. split; [exact Hens|].
      split; [now apply keeps_trans with s2|]. split; [exact Hp1|].
      split; [congruence|]. split; [exact Ht|].
      intro Hb. destruct (Hf Hb) as [Hf1 Hf2]. split; [exact Hf1|].
      rewrite Hf2. destruct Hk as (_ & Hd & _). now rewrite Hd.
    + destruct (Heof eq_refl) as [He1 He2].
      exists false, s2. split; [reflexivity|]. split; [exact Hk|].
      split; [exact Hp2|]. split; [exact Hpos|]. split; [discriminate|].
      intros _. split; [lia|]. rewrite Hpos, He2. exact He1.
  - exists true, s. split; [reflexivity|]. split; [now apply keeps_refl|].
    split; [exact Hp|]. split; [reflexivity|]. split; [lia|discriminate].
Qed.

(** A forward seek on a plain file: it lands on a byte, or it throws at the
    very end of the file. *)
Lemma seek_forward_plain (s : t) (abspos : Z) :
  window s -> plain_file s ->
  pos_ s < abspos -> abspos <= zlength (data (stream s)) ->
  (abspos < zlength (data (stream s)) ->
   exists s', seek abspos s = Ok tt s' /\ plain_file s' /\ 1 <= buffAvail s') /\
  (abspos = zlength (data (stream s)) ->
   exists s',
     seek abspos s
     = Throw (runtime_error "failed to read from new location") s').
Proof.
  intros Hw Hp Hfwd Hle.
  assert (Hout : ~ in_history s abspos) by (unfold in_history; lia).
  rewrite (seek_outside_history s abspos Hout).
  pose proof Hw as (Hc & Hcp & Hoff & Hlen & Hlen64 & Hbuf).
  pose proof Hp as (Hinit & Hlb & Hbs & Hbound & Hlen63 & Hwait & Hseekable & Hfail).
  cbv zeta in *.
  assert (Hds : doSeek (stream s) abspos
                = Some {| data := data (stream s); offset := abspos;
                          seekable := seekable (stream s);
                          chunk := chunk (stream s);
                          read_fails := read_fails (stream s);
                          syscalls := sys_lseek abspos :: syscalls (stream s) |}).
  { unfold doSeek. rewrite Hseekable.
    destruct (abspos <? 2 ^ 63) eqn:E; [reflexivity|lia]. }
  rewrite Hds. set (st := {| data := data (stream s) |}).
  assert (Hwr : window (reseeked s abspos st)).
  { unfold window. cbv zeta. unfold limit_, reseeked.
    cbn [cur_ pos_ stream buf_ st data offset].
    change (zlength []) with 0. repeat split; try lia; reflexivity. }
  assert (Hpr : plain_file (reseeked s abspos st)).
  { unfold plain_file. cbv zeta. unfold limit_ in *. unfold reseeked.
    cbn [INIT_BUFFER_SIZE bufSize_ buf_ stream waitForData_ st data seekable
         read_fails].
    change (zlength []) with 0. pose proof (zlength_nonneg (buf_ s)).
    repeat split; try assumption; try lia. }
  destruct (read_plain _ Hwr Hpr) as (b & s' & Hread & Hp' & Heof).
  rewrite Hread.
  assert (Havr : buffAvail (reseeked s abspos st) = 0) by reflexivity.
  split.
  - intro Hlt. destruct b.
    + destruct (read_keeps _ _ _ Hwr Hread) as (_ & _ & Hmore).
      specialize (Hmore eq_refl). rewrite Havr in Hmore.
      exists s'. split; [reflexivity|]. split; [exact Hp'|lia].
    + destruct (Heof eq_refl) as [He _]. rewrite Havr in He.
      cbn [pos_ stream reseeked st data] in He. lia.
  - intro Heq. destruct b.
    + pose proof (read_true_offset _ _ Hread) as Hoffr.
      cbn [stream reseeked st offset data] in Hoffr. lia.
    + exists s'. reflexivity.
Qed.

Lemma occurrence_fits (file needle : list byte) (q : Z) :
  occurs_at file needle q -> q + zlength needle <= Z.max q (zlength file).
Proof.
  intros [Hq Hocc]. apply (f_equal (@List.length byte)) in Hocc.
  unfold slice, zlength in *. rewrite length_firstn, length_skipn in Hocc. lia.
Qed.

Lemma no_occurrence_in_window (needle : list byte) (s : t) :
  window s ->
  memmem (skipn (Z.to_nat (cur_ s)) (buf_ s)) needle = None ->
  forall q, pos_ s <= q -> q + zlength needle <= pos_ s + buffAvail s ->
            ~ occurs_at (data (stream s)) needle q.
Proof.
  intros Hw Hm q Hq Hfit Hocc.
  pose proof (memmem_none needle _ Hm) as Hnone.
  rewrite (unread_bytes s Hw) in Hnone.
  destruct Hw as (Hc & Hcp & _).
  assert (Hf : is_prefix needle
                 (skipn (Z.to_nat (q - pos_ s))
                    (slice (data (stream s)) (pos_ s) (buffAvail s))) = false)
    by (apply Hnone; lia).
  rewrite occurrence_in_window in Hf; [discriminate | lia | lia | lia | exact Hocc].
Qed.

Lemma memmem_none_nonempty (needle hay : list byte) :
  memmem hay needle = None -> 1 <= zlength needle.
Proof.
  intro H. destruct needle as [|x nd].
  - destruct hay; cbn in H; discriminate.
  - unfold zlength. cbn [List.length]. lia.
Qed.


(** Every search on a plain file ends, given fuel for its rounds, in one of
    three ways: the needle is found; or the needle is absent and [scanTo]
    answers false; or the needle is absent, has one byte, and [scanTo] throws
    from the [seek] it makes to the end of the file. *)
Lemma scanTo_plain (needle : list byte) (fuel : nat) :
  forall s,
    window s -> plain_file s ->
    (Z.to_nat (zlength (data (stream s)) - pos_ s)
     + Z.to_nat (zlength needle) + 1 < fuel)%nat ->
    (exists s', scanTo fuel needle s = Ok true s') \/
    (exists s',
        scanTo fuel needle s = Ok false s' /\
        absent_from (data (stream s)) needle (pos_ s) /\
        (zlength needle = 1 -> pos_ s = zlength (data (stream s)))) \/
    (exists s',
        scanTo fuel needle s
        = Throw (runtime_error "failed to read from new location") s' /\
        zlength needle = 1 /\
        absent_from (data (stream s)) needle (pos_ s) /\
        pos_ s < zlength (data (stream s))).
Proof.
  induction fuel as [|fuel IH]; intros s Hw Hp Hfuel; [lia|].
  cbn [scanTo].
  pose proof Hw as (Hc & Hcp & _).
  assert (Hf1 : (Z.to_nat (zlength needle - buffAvail s) < S fuel)%nat)
    by (unfold buffAvail; lia).
  destruct (ensure_plain (zlength needle) (S fuel) s Hw Hp Hf1)
    as (b & s1 & Hens & Hk1 & Hp1 & Hpos1 & Ht & Hf).
  rewrite Hens.
  pose proof Hk1 as (Hw1 & Hd1 & _).
  pose proof Hw1 as (Hc1 & Hcp1 & Hoff1 & Hlen1 & Hbound1 & _).
  rewrite Hd1 in Hlen1, Hbound1.
  set (len := zlength (data (stream s))) in *.
  destruct b.
  - specialize (Ht eq_refl).
    destruct (memmem (skipn (Z.to_nat (cur_ s1)) (buf_ s1)) needle)
      as [off|] eqn:Hm.
    + left. eexists. reflexivity.
    + pose proof (memmem_none_nonempty _ _ Hm) as Hn1.
      pose proof (no_occurrence_in_window needle s1 Hw1 Hm) as Hnone.
      rewrite Hd1, Hpos1 in Hnone.
      assert (Hamount : wrap64 (buffAvail s1 - wrap64 (zlength needle - 1))
                        = buffAvail s1 - zlength needle + 1).
      { unfold buffAvail in *. rewrite (wrap64_small (zlength needle - 1)) by lia.
        rewrite wrap64_small by lia. lia. }
      rewrite Hamount. unfold skip.
      assert (Habs : wrap64 (pos_ s1 + (buffAvail s1 - zlength needle + 1))
                     = pos_ s + buffAvail s1 - zlength needle + 1).
      { unfold buffAvail in *. rewrite wrap64_small by lia. lia. }
      rewrite Habs.
      set (abspos := pos_ s + buffAvail s1 - zlength needle + 1) in *.
      assert (Hfwd : pos_ s1 < abspos) by (unfold abspos; lia).
      assert (Hle : abspos <= zlength (data (stream s1))).
      { rewrite Hd1. fold len. unfold abspos, buffAvail. lia. }
      destruct (seek_forward_plain s1 abspos Hw1 Hp1 Hfwd Hle) as [Hok Hthrow].
      rewrite Hd1 in Hok, Hthrow. fold len in Hok, Hthrow.
      destruct (Z_lt_le_dec abspos len) as [Hlt|Hge].
      * destruct (Hok Hlt) as (s2 & Hseek & Hp2 & Hav2). rewrite Hseek.
        assert (Habs0 : 0 <= abspos) by lia.
        destruct (seek_window s1 abspos s2 Hw1 Habs0 Hseek) as (Hw2 & Hpos2 & Hd2).
        assert (Hfuel2 : (Z.to_nat (zlength (data (stream s2)) - pos_ s2)
                          + Z.to_nat (zlength needle) + 1 < fuel)%nat).
        { rewrite Hd2, Hd1, Hpos2. fold len. lia. }
        destruct (IH s2 Hw2 Hp2 Hfuel2)
          as [(s' & Hr)|[(s' & Hr & Habsent & Hone)|(s' & Hr & Hone & Habsent & Hrem)]].
        -- left. exists s'. exact Hr.
        -- rewrite Hd2, Hd1, Hpos2 in Habsent, Hone. fold len in Hone.
           right. left. exists s'. split; [exact Hr|]. split.
           ++ intros q Hq. destruct (Z_lt_le_dec q abspos) as [Hq1|Hq1].
              ** apply Hnone; [exact Hq | unfold abspos in Hq1; lia].
              ** now apply Habsent.
           ++ intro H1. specialize (Hone H1). lia.
        -- rewrite Hd2, Hd1, Hpos2 in Habsent, Hrem. fold len in Hrem.
           right. right. exists s'. split; [exact Hr|]. split; [exact Hone|].
           split; [|lia].
           intros q Hq. destruct (Z_lt_le_dec q abspos) as [Hq1|Hq1].
           ++ apply Hnone; [exact Hq | unfold abspos in Hq1; lia].
           ++ now apply Habsent.
      * assert (Heq : abspos = len) by (fold len in Hle; rewrite Hd1 in Hle; lia).
        destruct (Hthrow Heq) as (s' & Hseek). rewrite Hseek.
        assert (Hone : zlength needle = 1) by (unfold abspos, buffAvail in *; lia).
        right. right. exists s'. split; [reflexivity|]. split; [exact Hone|].
        split; [|unfold abspos in *; lia].
        intros q Hq Hocc. apply (Hnone q Hq); [|exact Hocc].
        pose proof (occurrence_fits _ _ _ Hocc) as Hfit.
        fold len in Hfit. unfold abspos in *.
        destruct Hocc as [Hq0 _]. lia.
  - destruct (Hf eq_refl) as [Hshort Heof].
    right. left. exists s1. split; [reflexivity|]. split.
    + intros q Hq Hocc.
      pose proof (occurrence_fits _ _ _ Hocc) as Hfit. fold len in Hfit.
      unfold buffAvail in *. lia.
    + intro H1. unfold buffAvail in *. lia.
Qed.

(** X16.  On a plain file [scanTo] finds the needle whenever it occurs at or
    after the position: it returns true and leaves the cursor at the first
    such occurrence, with the needle in the buffer at the cursor. *)
Lemma scanTo_finds_first (needle : list byte) (fuel : nat) (s : t) (q0 : Z) :
  window s -> plain_file s ->
  (Z.to_nat (zlength (data (stream s)) - pos_ s)
   + Z.to_nat (zlength needle) + 1 < fuel)%nat ->
  pos_ s <= q0 -> occurs_at (data (stream s)) needle q0 ->
  exists s',
    scanTo fuel needle s = Ok true s' /\
    pos_ s <= pos_ s' <= q0 /\
    occurs_at (data (stream s)) needle (pos_ s') /\
    (forall q, pos_ s <= q < pos_ s' ->
               ~ occurs_at (data (stream s)) needle q) /\
    is_prefix needle (skipn (Z.to_nat (cur_ s')) (buf_ s')) = true.
Proof.
  intros Hw Hp Hfuel Hq0 Hocc0.
  destruct (scanTo_plain needle fuel s Hw Hp Hfuel)
    as [(s' & Hr)|[(s' & _ & Habsent & _)|(s' & _ & _ & Habsent & _)]].
  - destruct (scanTo_found_is_first needle fuel s s' Hw Hr)
      as (_ & _ & Hle & Hocc & Hmin & Hcur).
    exists s'. split; [exact Hr|]. split.
    + split; [exact Hle|].
      destruct (Z_lt_le_dec q0 (pos_ s')) as [Hlt|Hge]; [|exact Hge].
      exfalso. apply (Hmin q0); [lia | exact Hocc0].
    + split; [exact Hocc|]. split; [exact Hmin | exact Hcur].
  - exfalso. exact (Habsent q0 Hq0 Hocc0).
  - exfalso. exact (Habsent q0 Hq0 Hocc0).
Qed.

(** X17.  On a plain file a needle of two bytes or more that does not occur at
    or after the position makes [scanTo] return false: the search ends, and
    it ends without an exception. *)
Lemma scanTo_absent_false (needle : list byte) (fuel : nat) (s : t) :
  window s -> plain_file s ->
  (Z.to_nat (zlength (data (stream s)) - pos_ s)
   + Z.to_nat (zlength needle) + 1 < fuel)%nat ->
  absent_from (data (stream s)) needle (pos_ s) ->
  2 <= zlength needle ->
  exists s', scanTo fuel needle s = Ok false s'.
Proof.
  intros Hw Hp Hfuel Habsent Hn.
  destruct (scanTo_plain needle fuel s Hw Hp Hfuel)
    as [(s' & Hr)|[(s' & Hr & _)|(s' & _ & Hone & _)]].
  - destruct (scanTo_found_is_first needle fuel s s' Hw Hr)
      as (_ & _ & Hle & Hocc & _).
    exfalso. exact (Habsent _ Hle Hocc).
  - exists s'. exact Hr.
  - lia.
Qed.

(** On a plain file a needle of one byte that is absent from what is left of
    the stream makes [scanTo] throw. *)
Lemma scanTo_absent_byte_throws (needle : list byte) (fuel : nat) (s : t) :
  window s -> plain_file s ->
  (Z.to_nat (zlength (data (stream s)) - pos_ s)
   + Z.to_nat (zlength needle) + 1 < fuel)%nat ->
  absent_from (data (stream s)) needle (pos_ s) ->
  zlength needle = 1 ->
  pos_ s < zlength (data (stream s)) ->
  exists s',
    scanTo fuel needle s
    = Throw (runtime_error "failed to read from new location") s'.
Proof.
  intros Hw Hp Hfuel Habsent Hn Hrem.
  destruct (scanTo_plain needle fuel s Hw Hp Hfuel)
    as [(s' & Hr)|[(s' & _ & _ & Hend)|(s' & Hr & _)]].
  - destruct (scanTo_found_is_first needle fuel s s' Hw Hr)
      as (_ & _ & Hle & Hocc & _).
    exfalso. exact (Habsent _ Hle Hocc).
  - specialize (Hend Hn). lia.
  - exists s'. exact Hr.
Qed.

End PlainFile.

(** ** C8 *)

(** C8 fails at a needle of one byte that the rest of the stream does not
    contain: after the search of the buffered bytes fails, [scanTo] skips to
    [limit - (len(needle) - 1)], which in the end is the end of the file; the
    [seek] made by [skip] finds nothing to read there and throws, where
    [scanTo] was to return false.  This holds on every plain file with bytes
    left to read, and in particular for the needle [x] on the stream [abc]
    (where the two-byte needle [xy] yields false and [bc] is found at
    position 1). *)
Theorem scanTo_single_byte_needle_throws :
  (forall (needle : list FileByteSource.byte) (fuel : nat)
          (s : FileByteSource.t),
      window s -> plain_file s ->
      (Z.to_nat (FileByteSource.zlength
                   (FileByteSource.data (FileByteSource.stream s))
                 - FileByteSource.pos_ s)
       + Z.to_nat (FileByteSource.zlength needle) + 1 < fuel)%nat ->
      FileByteSource.zlength needle = 1 ->
      absent_from (FileByteSource.data (FileByteSource.stream s)) needle
        (FileByteSource.pos_ s) ->
      FileByteSource.pos_ s
      < FileByteSource.zlength (FileByteSource.data (FileByteSource.stream s)) ->
      exists s',
        FileByteSource.scanTo fuel needle s
        = FileByteSource.Throw
            (runtime_error "failed to read from new location") s') /\
  (exists s',
      FileByteSource.scanTo 10 (list_ascii_of_string "x")
        (FileByteSource.new (stream_of "abc" 100) false 256)
      = FileByteSource.Throw
          (runtime_error "failed to read from new location") s') /\
  (exists s',
      FileByteSource.scanTo 10 (list_ascii_of_string "xy")
        (FileByteSource.new (stream_of "abc" 100) false 256)
      = FileByteSource.Ok false s') /\
  (exists s',
      FileByteSource.scanTo 10 (list_ascii_of_string "bc")
        (FileByteSource.new (stream_of "abc" 100) false 256)
      = FileByteSource.Ok true s' /\
      FileByteSource.pos_ s' = 1 /\
      FileByteSource.at_cur s' = "b"%char).
Proof.
  split.
  - intros needle fuel s Hw Hp Hfuel Hone Habsent Hrem.
    now apply scanTo_absent_byte_throws.
  - split; [|split]; eexists; vm_compute; repeat split; reflexivity.
Qed.

Lemma new_plain_file (content : string) (k : Z) :
  FileByteSource.zlength (list_ascii_of_string content) < 2 ^ 62 ->
  plain_file (FileByteSource.new (stream_of content k) false 256).
Proof.
  intro Hlen. unfold plain_file. cbv zeta.
  unfold FileByteSource.limit_, FileByteSource.new, stream_of.
  cbn [FileByteSource.INIT_BUFFER_SIZE FileByteSource.bufSize_
       FileByteSource.buf_ FileByteSource.stream FileByteSource.waitForData_
       FileByteSource.data FileByteSource.seekable FileByteSource.read_fails].
  change (FileByteSource.zlength []) with 0.
  pose proof (zlength_nonneg (list_ascii_of_string content)).
  repeat split; try lia; reflexivity.
Qed.

Lemma scanTo_single_byte_needle_throws_witness :
  exists s',
    FileByteSource.scanTo 10 (list_ascii_of_string "x")
      (FileByteSource.new (stream_of "abc" 100) false 256)
    = FileByteSource.Throw (runtime_error "failed to read from new location") s'.
Proof.
  apply (proj1 scanTo_single_byte_needle_throws (list_ascii_of_string "x")
           10%nat (FileByteSource.new (stream_of "abc" 100) false 256)).
  - apply new_window; [reflexivity | vm_compute; reflexivity].
  - apply new_plain_file. vm_compute. reflexivity.
  - vm_compute. lia.
  - reflexivity.
  - intros q Hq [_ Hocc]. unfold FileByteSource.slice in Hocc.
    cbn [FileByteSource.new FileByteSource.stream FileByteSource.data stream_of
         list_ascii_of_string] in Hocc.
    destruct (Z.to_nat q) as [|[|[|k]]]; cbn in Hocc; try discriminate.
    rewrite skipn_nil in Hocc. discriminate.
  - vm_compute. reflexivity.
Defined.

(** * Further properties of the code *)

(** ** Stats.cpp : [commafy(uint64_t)] *)

Section CommafyUint64.
Import Commafy.

Lemma digit_char_value (d : Z) :
  0 <= d <= 9 ->
  digit_value (digit_char d) = d /\
  Ascii.eqb (digit_char d) "," = false /\
  JsonSaxHandler.is_digit (digit_char d) = true.
Proof.
  intros H.
  assert (Hd : d = 0 \/ d = 1 \/ d = 2 \/ d = 3 \/ d = 4 \/ d = 5 \/ d = 6
               \/ d = 7 \/ d = 8 \/ d = 9) by lia.
  repeat (destruct Hd as [Hd|Hd]; [subst d; vm_compute; auto|]).
  subst d; vm_compute; auto.
Qed.

Lemma lsd_value_snoc (buf : list ascii) (c : ascii) (rest : Z) :
  lsd_value (buf ++ [c]) rest = lsd_value buf (read_char rest c).
Proof. unfold lsd_value. rewrite fold_right_app. reflexivity. Qed.

Lemma uncommafy_rev (buf : list ascii) :
  uncommafy (string_of_list_ascii (rev buf)) = lsd_value buf 0.
Proof.
  unfold uncommafy, lsd_value.
  rewrite list_ascii_of_string_of_list_ascii.
  rewrite <- fold_left_rev_right, rev_involutive. reflexivity.
Qed.

(** The loop keeps the number: what is in the buffer, in front of the digits
    still to come, reads as the argument; [k] iterations are enough for a
    number below [10 ^ k]. *)
Lemma commafy_loop_value (k : nat) :
  forall fuel val i buf,
    (k <= fuel)%nat -> 0 <= val < 10 ^ Z.of_nat k ->
    lsd_value (commafy_loop fuel val i buf) 0 = lsd_value buf val.
Proof.
  induction k as [|k IH]; intros fuel val i buf Hk Hval.
  - assert (val = 0) by (change (10 ^ Z.of_nat 0) with 1 in Hval; lia).
    subst val. destruct fuel; reflexivity.
  - destruct fuel as [|fuel]; [lia|].
    cbn [commafy_loop]. destruct (val =? 0) eqn:E.
    + apply Z.eqb_eq in E. subst val. reflexivity.
    + apply Z.eqb_neq in E.
      assert (Hpow : 10 ^ Z.of_nat (S k) = 10 * 10 ^ Z.of_nat k).
      { rewrite Nat2Z.inj_succ, Z.pow_succ_r by lia. reflexivity. }
      assert (Hm : 0 <= val mod 10 <= 9) by (pose proof (Z.mod_pos_bound val 10); lia).
      destruct (digit_char_value _ Hm) as (Hv & Hc & _).
      rewrite IH.
      * rewrite lsd_value_snoc. unfold read_char at 1. rewrite Hc, Hv.
        replace (10 * (val / 10) + val mod 10) with val
          by (pose proof (Z.div_mod val 10); lia).
        destruct (_ && _); [|reflexivity].
        rewrite lsd_value_snoc. reflexivity.
      * lia.
      * split; [apply Z.div_pos; lia|].
        apply Z.div_lt_upper_bound; lia.
Qed.

Lemma grouped_snoc (buf : list ascii) (c : ascii) :
  grouped buf ->
  (if Z.of_nat (List.length buf) mod 4 =? 3
   then c = ","%char else JsonSaxHandler.is_digit c = true) ->
  grouped (buf ++ [c]).
Proof.
  intros Hb Hc k Hk. rewrite length_app in Hk. cbn in Hk.
  destruct (Nat.lt_ge_cases k (List.length buf)) as [Hlt|Hge].
  - rewrite app_nth1 by exact Hlt. apply Hb, Hlt.
  - assert (k = List.length buf) by lia. subst k.
    rewrite app_nth2, Nat.sub_diag by lia. exact Hc.
Qed.

(** The loop keeps the grouping, and puts at most [k] digits in the buffer. *)
Lemma commafy_loop_grouped (k : nat) :
  forall fuel val i buf,
    (k <= fuel)%nat -> 0 <= val < 10 ^ Z.of_nat k -> 0 <= i ->
    Z.of_nat (List.length buf) = groups_length i -> grouped buf ->
    exists i',
      i <= i' <= i + Z.of_nat k /\ (val <> 0 -> i < i') /\
      Z.of_nat (List.length (commafy_loop fuel val i buf)) = groups_length i' /\
      grouped (commafy_loop fuel val i buf).
Proof.
  induction k as [|k IH]; intros fuel val i buf Hk Hval Hi Hlen Hg.
  - assert (val = 0) by (change (10 ^ Z.of_nat 0) with 1 in Hval; lia).
    subst val. exists i. destruct fuel; cbn; repeat split; auto; lia.
  - destruct fuel as [|fuel]; [lia|].
    cbn [commafy_loop]. destruct (val =? 0) eqn:E.
    + apply Z.eqb_eq in E. exists i. repeat split; auto; lia.
    + apply Z.eqb_neq in E.
      assert (Hpow : 10 ^ Z.of_nat (S k) = 10 * 10 ^ Z.of_nat k).
      { rewrite Nat2Z.inj_succ, Z.pow_succ_r by lia. reflexivity. }
      assert (Hm : 0 <= val mod 10 <= 9) by (pose proof (Z.mod_pos_bound val 10); lia).
      destruct (digit_char_value _ Hm) as (_ & _ & Hd).
      assert (Hval' : 0 <= val / 10 < 10 ^ Z.of_nat k).
      { split; [apply Z.div_pos; lia|]. apply Z.div_lt_upper_bound; lia. }
      unfold groups_length in Hlen.
      destruct (Z.eqb_spec (i mod 3) 0) as [E3|E3];
        destruct (Nat.eqb_spec (List.length buf) 0) as [E0|E0];
        cbn [andb negb];
        destruct (Z.eqb_spec i 0) as [Ei|Ei];
        try (exfalso; Z.to_euclidean_division_equations; lia).
      * (* the first digit *)
        assert (Hl : Z.of_nat (List.length (buf ++ [digit_char (val mod 10)]))
                     = groups_length (i + 1)).
        { rewrite length_app. cbn. unfold groups_length.
          subst i. cbn. lia. }
        assert (Hg1 : grouped (buf ++ [digit_char (val mod 10)])).
        { apply grouped_snoc; auto. rewrite E0. exact Hd. }
        destruct (IH fuel (val / 10) (i + 1) _ ltac:(lia) Hval' ltac:(lia) Hl Hg1)
          as (i' & Hi' & _ & Hlen' & Hg').
        exists i'. repeat split; auto; lia.
      * (* a comma, then a digit *)
        assert (Hl : Z.of_nat (List.length
                                 ((buf ++ [","%char]) ++ [digit_char (val mod 10)]))
                     = groups_length (i + 1)).
        { rewrite !length_app. cbn. unfold groups_length.
          destruct (i + 1 =? 0) eqn:E1; [apply Z.eqb_eq in E1; lia|].
          Z.to_euclidean_division_equations; lia. }
        assert (Hg1 : grouped ((buf ++ [","%char]) ++ [digit_char (val mod 10)])).
        { apply grouped_snoc; [apply grouped_snoc; auto|].
          - replace (Z.of_nat (List.length buf) mod 4 =? 3) with true; auto.
            symmetry. apply Z.eqb_eq.
            Z.to_euclidean_division_equations; lia.
          - rewrite length_app. cbn.
            replace (Z.of_nat (List.length buf + 1) mod 4 =? 3) with false; auto.
            symmetry. apply Z.eqb_neq.
            Z.to_euclidean_division_equations; lia. }
        destruct (IH fuel (val / 10) (i + 1) _ ltac:(lia) Hval' ltac:(lia) Hl Hg1)
          as (i' & Hi' & _ & Hlen' & Hg').
        exists i'. repeat split; auto; lia.
      * (* a digit inside a group *)
        assert (Hl : Z.of_nat (List.length (buf ++ [digit_char (val mod 10)]))
                     = groups_length (i + 1)).
        { rewrite length_app. cbn. unfold groups_length.
          destruct (i + 1 =? 0) eqn:E1; [apply Z.eqb_eq in E1; lia|].
          Z.to_euclidean_division_equations; lia. }
        assert (Hg1 : grouped (buf ++ [digit_char (val mod 10)])).
        { apply grouped_snoc; auto.
          replace (Z.of_nat (List.length buf) mod 4 =? 3) with false; auto.
          symmetry. apply Z.eqb_neq.
          Z.to_euclidean_division_equations; lia. }
        destruct (IH fuel (val / 10) (i + 1) _ ltac:(lia) Hval' ltac:(lia) Hl Hg1)
          as (i' & Hi' & _ & Hlen' & Hg').
        exists i'. repeat split; auto; lia.
Qed.

End CommafyUint64.

(** X1.  Reading the text of [commafy(uint64_t)] back, the commas skipped,
    gives the number again, for every 64-bit value: no digit is lost or
    misplaced, and the 32 iterations the model allows are never used up. *)
Theorem commafy_uint64_reads_back (val : Z) :
  0 <= val < 2 ^ 64 -> uncommafy (Commafy.commafy_uint64 val) = val.
Proof.
  intros H. unfold Commafy.commafy_uint64.
  destruct (val =? 0) eqn:E.
  - apply Z.eqb_eq in E. subst val. reflexivity.
  - rewrite uncommafy_rev.
    rewrite (commafy_loop_value 32); [reflexivity|lia|].
    split; [lia|]. eapply Z.lt_trans; [apply H|]. reflexivity.
Qed.

Lemma commafy_uint64_reads_back_witness :
  uncommafy (Commafy.commafy_uint64 1234567) = 1234567.
Proof. apply commafy_uint64_reads_back. split; [lia|reflexivity]. Defined.

(** X2.  In the text of [commafy(uint64_t)] the commas stand exactly at the
    positions 3, 7, 11, ... counted from the right, with digits everywhere
    else (so the text neither starts nor ends with a comma), and the text has
    at most 26 characters: the buffer of 32 is never overrun. *)
Theorem commafy_uint64_grouping (val : Z) :
  0 <= val < 2 ^ 64 ->
  let lsd := rev (list_ascii_of_string (Commafy.commafy_uint64 val)) in
  grouped lsd /\ (1 <= List.length lsd <= 26)%nat.
Proof.
  intros H. unfold Commafy.commafy_uint64.
  destruct (val =? 0) eqn:E.
  - cbn. split; [|lia]. intros k Hk. cbn in Hk.
    assert (k = 0%nat) by lia. subst k. reflexivity.
  - apply Z.eqb_neq in E. cbv zeta.
    rewrite list_ascii_of_string_of_list_ascii, rev_involutive.
    assert (Hval : 0 <= val < 10 ^ Z.of_nat 20).
    { split; [lia|]. eapply Z.lt_le_trans; [apply H|]. vm_compute. discriminate. }
    assert (Hnil : grouped []) by (intros k Hk; cbn in Hk; lia).
    destruct (commafy_loop_grouped 20 32 val 0 [] ltac:(lia) Hval ltac:(lia)
                eq_refl Hnil) as (i' & Hi' & Hpos & Hlen & Hg).
    + split; [exact Hg|]. specialize (Hpos E).
      unfold groups_length in Hlen.
      destruct (i' =? 0) eqn:Ei.
      * apply Z.eqb_eq in Ei. lia.
      * apply Z.eqb_neq in Ei.
        split; Z.to_euclidean_division_equations; lia.
Qed.

Lemma commafy_uint64_grouping_witness :
  let lsd := rev (list_ascii_of_string (Commafy.commafy_uint64 1234567)) in
  grouped lsd /\ (1 <= List.length lsd <= 26)%nat.
Proof. apply commafy_uint64_grouping. split; [lia|reflexivity]. Defined.

(** ** Stats.cpp : the report of a file without integers *)

(** X3.  When the first file of [au stats] holds no integer value (an empty
    file, say), the percentages of [dumpStats] divide by a zero total: the
    run does not return, although parsing went well. *)
Theorem stats_without_integers_traps (e : Stats.Env)
  (argv fileNames : list string) :
  Stats.cmd_parse e argv = Stats.Parsed fileNames ->
  let run := Stats.parseStream e (hd "-" (stats_files fileNames))
               Stats.new_handler in
  (Stats.raised run = None \/
   exists what, Stats.raised run = Some (parse_error what)) ->
  List.length (Stats.intSizes (Stats.vh (Stats.after run))) = 12%nat ->
  Stats.totalInts (Stats.vh (Stats.after run)) = 0 ->
  snd (Stats.stats e argv) = Stats.Crashes.
Proof.
  intros Hcmd run Hraised Hlen Htotal.
  assert (Hdec : forall f rest,
             hd "-" (stats_files fileNames) = f ->
             snd (Stats.decode_all e (f :: rest) Stats.new_handler)
             = Stats.Crashes).
  { intros f rest Hf. cbn [Stats.decode_all]. unfold Stats.decode.
    subst run. rewrite Hf in *.
    set (r := Stats.parseStream e f Stats.new_handler) in *.
    assert (Hdump : Stats.dumpStats (Stats.vh (Stats.after r))
                    = (fst (Stats.dumpStats (Stats.vh (Stats.after r))), false)).
    { unfold Stats.dumpStats. rewrite Htotal.
      destruct (Stats.intSizes (Stats.vh (Stats.after r))); [discriminate Hlen|].
      reflexivity. }
    destruct Hraised as [Hr | [what Hr]]; rewrite Hr; rewrite Hdump; reflexivity. }
  unfold Stats.stats. rewrite Hcmd.
  destruct fileNames as [|f rest]; apply Hdec; reflexivity.
Qed.

Lemma stats_without_integers_traps_witness :
  snd (Stats.stats stats_env_no_ints ["au"; "stats"; "empty.au"]) = Stats.Crashes.
Proof.
  apply (stats_without_integers_traps stats_env_no_ints
           ["au"; "stats"; "empty.au"] ["empty.au"]).
  - reflexivity.
  - left. reflexivity.
  - reflexivity.
  - reflexivity.
Defined.

(** ** Json2Au.cpp : [JsonSaxHandler] *)

Section SaxHandlerLemmas.
Import SaxHandler.

Lemma strncmp_prefix : forall s1 s2,
  no_nul s1 ->
  strncmp_is_0 s1 s2 (String.length s1) = String.prefix s1 s2.
Proof.
  unfold no_nul.
  induction s1 as [|c s1 IH]; intros s2 Hn.
  - destruct s2; reflexivity.
  - cbn in Hn. apply andb_prop in Hn. destruct Hn as [Hc Hn].
    apply negb_true_iff in Hc.
    cbn [String.length strncmp_is_0 char0 chars_after0].
    destruct s2 as [|b s2].
    + cbn [char0]. rewrite Hc. reflexivity.
    + cbn [char0 chars_after0 String.prefix]. rewrite Hc.
      destruct (ascii_dec c b) as [->|Hne].
      * rewrite Ascii.eqb_refl. apply IH, Hn.
      * apply Ascii.eqb_neq in Hne. rewrite Hne. reflexivity.
Qed.

Lemma handle_toInt (tryInt : string -> option Call) (ev : Event) (h : t) :
  toInt_ h = false -> toInt_ (snd (handle tryInt ev h)) = false.
Proof.
  intros H. destruct ev; cbn; try exact H.
  - unfold String_. rewrite H.
    destruct (Nat.eqb _ 26); [destruct (JsonSaxHandler.tryTime str)|];
      cbn; auto.
  - unfold Key. repeat (destruct (_ || _)); cbn; exact H.
Qed.

Lemma key_intern (str : string) (h : t) :
  no_nul str ->
  toInt_ (snd (Key str h)) = toInt_ h /\
  intern_ (snd (Key str h))
  = if existsb (String.prefix str) hinted_names then Some false else intern_ h.
Proof.
  intros Hn. unfold Key. cbn [fst snd].
  rewrite !strncmp_prefix by exact Hn.
  unfold hinted_names. cbn [existsb].
  destruct (String.prefix str "estdEventTime"), (String.prefix str "logTime"),
    (String.prefix str "execId"), (String.prefix str "px"),
    (String.prefix str "key"), (String.prefix str "signed"),
    (String.prefix str "origFfeKey"); cbn; auto.
Qed.

Lemma handle_without_tryInt (tryInt1 tryInt2 : string -> option Call)
  (ev : Event) (h : t) :
  toInt_ h = false -> handle tryInt1 ev h = handle tryInt2 ev h.
Proof.
  intros H. destruct ev; try reflexivity.
  cbn. unfold String_. rewrite H. reflexivity.
Qed.

Lemma handle_keeps_hint (tryInt : string -> option Call) (ev : Event) (h : t) :
  toInt_ h = false -> intern_ h = Some false -> keeps_hint ev ->
  intern_ (snd (handle tryInt ev h)) = Some false.
Proof.
  intros Ht Hi Hk. destruct ev; cbn; try exact Hi.
  - cbn in Hk. unfold is_time_string in Hk. apply andb_prop in Hk.
    destruct Hk as [Hlen Htime]. unfold String_. rewrite Ht, Hlen.
    destruct (JsonSaxHandler.tryTime str); [exact Hi|discriminate].
  - unfold Key. repeat (destruct (_ || _)); cbn; auto.
Qed.

Lemma run_app_calls (tryInt : string -> option Call) (evs1 evs2 : list Event) :
  forall h,
    run tryInt (evs1 ++ evs2) h =
    (fst (run tryInt evs1 h) ++ fst (run tryInt evs2 (snd (run tryInt evs1 h))),
     snd (run tryInt evs2 (snd (run tryInt evs1 h)))).
Proof.
  induction evs1 as [|ev evs1 IH]; intros h.
  - cbn. destruct (run tryInt evs2 h). reflexivity.
  - cbn [app run]. destruct (handle tryInt ev h) as [calls h'].
    rewrite IH. destruct (run tryInt evs1 h') as [calls1 h1]. cbn.
    rewrite app_assoc. reflexivity.
Qed.

Lemma run_one (tryInt : string -> option Call) (ev : Event) (h : t) :
  snd (run tryInt [ev] h) = snd (handle tryInt ev h).
Proof. cbn [run]. destruct (handle tryInt ev h). reflexivity. Qed.

Lemma run_keeps_hint (tryInt : string -> option Call) (evs : list Event) :
  forall h,
    toInt_ h = false -> intern_ h = Some false -> Forall keeps_hint evs ->
    toInt_ (snd (run tryInt evs h)) = false /\
    intern_ (snd (run tryInt evs h)) = Some false.
Proof.
  induction evs as [|ev evs IH]; intros h Ht Hi Hall.
  - cbn. auto.
  - inversion Hall as [|? ? Hev Hrest]; subst.
    cbn [run].
    pose proof (handle_toInt tryInt ev h Ht) as Ht'.
    pose proof (handle_keeps_hint tryInt ev h Ht Hi Hev) as Hi'.
    destruct (handle tryInt ev h) as [calls h']. cbn in Ht', Hi'.
    specialize (IH h' Ht' Hi' Hrest).
    destruct (run tryInt evs h') as [calls' h'']. exact IH.
Qed.

End SaxHandlerLemmas.

(** X4.  [Key] compares the key with each of its seven names over the length
    of the key, so it is a prefix test: the interning hint is switched off for
    the next string exactly when the key is a prefix of one of the names (the
    empty key and one-letter keys such as p, e or k included), and is left as
    it was otherwise.  The key itself is always written interned. *)
Theorem key_disables_interning_for_prefixes (str : string) (h : SaxHandler.t) :
  no_nul str ->
  fst (SaxHandler.Key str h)
  = [SaxHandler.value (JsonSaxHandler.value_string str (Some true))] /\
  SaxHandler.toInt_ (snd (SaxHandler.Key str h)) = SaxHandler.toInt_ h /\
  SaxHandler.intern_ (snd (SaxHandler.Key str h))
  = if existsb (String.prefix str) hinted_names
    then Some false else SaxHandler.intern_ h.
Proof.
  intros Hn. split; [reflexivity|]. apply key_intern, Hn.
Qed.

Lemma key_disables_interning_for_prefixes_witness :
  fst (SaxHandler.Key "p" SaxHandler.new)
  = [SaxHandler.value (JsonSaxHandler.value_string "p" (Some true))] /\
  SaxHandler.toInt_ (snd (SaxHandler.Key "p" SaxHandler.new))
  = SaxHandler.toInt_ SaxHandler.new /\
  SaxHandler.intern_ (snd (SaxHandler.Key "p" SaxHandler.new))
  = if existsb (String.prefix "p") hinted_names
    then Some false else SaxHandler.intern_ SaxHandler.new.
Proof. apply key_disables_interning_for_prefixes. reflexivity. Defined.

(** X5.  Nothing ever sets [toInt_]: on the callbacks of a document a handler
    never converts a string with [tryInt], whatever [tryInt] would do, and
    without a [toInt_] to take its place a string is written as
    [JsonSaxHandler.String_] describes. *)
Theorem tryInt_is_never_called (tryInt1 tryInt2 : string -> option SaxHandler.Call)
  (evs : list SaxHandler.Event) :
  SaxHandler.run tryInt1 evs SaxHandler.new
  = SaxHandler.run tryInt2 evs SaxHandler.new /\
  SaxHandler.toInt_ (snd (SaxHandler.run tryInt1 evs SaxHandler.new)) = false /\
  (forall str,
      fst (SaxHandler.String_ tryInt1 str
             (snd (SaxHandler.run tryInt1 evs SaxHandler.new)))
      = [SaxHandler.value
           (JsonSaxHandler.String_
              (SaxHandler.intern_ (snd (SaxHandler.run tryInt1 evs SaxHandler.new)))
              str)]).
Proof.
  assert (Hgen : forall h, SaxHandler.toInt_ h = false ->
            SaxHandler.run tryInt1 evs h = SaxHandler.run tryInt2 evs h /\
            SaxHandler.toInt_ (snd (SaxHandler.run tryInt1 evs h)) = false).
  { induction evs as [|ev evs IH]; intros h Ht.
    - cbn. auto.
    - cbn [SaxHandler.run].
      rewrite (handle_without_tryInt tryInt1 tryInt2 ev h Ht).
      pose proof (handle_toInt tryInt2 ev h Ht) as Ht'.
      destruct (SaxHandler.handle tryInt2 ev h) as [calls h']. cbn in Ht'.
      destruct (IH h' Ht') as [IH1 IH2]. rewrite <- IH1.
      destruct (SaxHandler.run tryInt1 evs h') as [calls' h'']. auto. }
  destruct (Hgen SaxHandler.new eq_refl) as [H1 H2].
  split; [exact H1|]. split; [exact H2|].
  intros str. unfold SaxHandler.String_, JsonSaxHandler.String_. rewrite H2.
  destruct (Nat.eqb _ 26); [|reflexivity].
  destruct (JsonSaxHandler.tryTime str); reflexivity.
Qed.

(** X6.  [String] clears the interning hint only on the path that writes a
    string.  So once a key that is a prefix of one of the seven names has
    switched interning off, the hint outlives every value that is not written
    as a string (numbers, containers, other keys, strings written as times):
    the next string written as a string is written uninterned, also when it
    belongs to a later, unrelated key. *)
Theorem intern_hint_outlives_other_values
  (tryInt : string -> option SaxHandler.Call) (key str : string)
  (evs : list SaxHandler.Event) (h : SaxHandler.t) :
  SaxHandler.toInt_ h = false ->
  no_nul key -> existsb (String.prefix key) hinted_names = true ->
  Forall keeps_hint evs ->
  is_time_string str = false ->
  exists calls,
    fst (SaxHandler.run tryInt
           (SaxHandler.EvKey key :: evs ++ [SaxHandler.EvString str]) h)
    = calls ++ [SaxHandler.value (JsonSaxHandler.value_string str (Some false))].
Proof.
  intros Ht Hn Hp Hall Hs.
  destruct (key_intern key h Hn) as (Hk1 & Hk2). rewrite Hp in Hk2.
  change (SaxHandler.EvKey key :: evs ++ [SaxHandler.EvString str])
    with ([SaxHandler.EvKey key] ++ evs ++ [SaxHandler.EvString str]).
  rewrite !run_app_calls.
  cbn [fst snd].
  set (h1 := snd (SaxHandler.run tryInt [SaxHandler.EvKey key] h)).
  assert (Ht1 : SaxHandler.toInt_ h1 = false).
  { subst h1. rewrite run_one. cbn [SaxHandler.handle]. rewrite Hk1. exact Ht. }
  assert (Hi1 : SaxHandler.intern_ h1 = Some false).
  { subst h1. rewrite run_one. cbn [SaxHandler.handle]. exact Hk2. }
  destruct (run_keeps_hint tryInt evs h1 Ht1 Hi1 Hall) as [Ht2 Hi2].
  set (h2 := snd (SaxHandler.run tryInt evs h1)) in *.
  exists (fst (SaxHandler.run tryInt [SaxHandler.EvKey key] h)
          ++ fst (SaxHandler.run tryInt evs h1)).
  rewrite <- app_assoc. f_equal. f_equal.
  cbn [SaxHandler.run SaxHandler.handle]. unfold SaxHandler.String_.
  rewrite Ht2, Hi2.
  unfold is_time_string in Hs.
  destruct (Nat.eqb _ 26); [|reflexivity].
  destruct (JsonSaxHandler.tryTime str); [discriminate|reflexivity].
Qed.

Lemma intern_hint_outlives_other_values_witness :
  exists calls,
    fst (SaxHandler.run (fun _ => None)
           (SaxHandler.EvKey "logTime"
            :: [SaxHandler.EvString "2019-03-07T12:34:56.000001";
                SaxHandler.EvKey "msg"]
            ++ [SaxHandler.EvString "hello"]) SaxHandler.new)
    = calls
      ++ [SaxHandler.value (JsonSaxHandler.value_string "hello" (Some false))].
Proof.
  apply intern_hint_outlives_other_values.
  - reflexivity.
  - reflexivity.
  - reflexivity.
  - repeat constructor.
  - reflexivity.
Defined.

(** X7.  [tryTime] takes the [-1] of [timegm] for a failure, but [-1] is also
    the second before the epoch: a string for 1969-12-31T23:59:59 is never
    written as a time value, whatever its six last characters are; [String]
    writes it as a string. *)
Theorem second_before_epoch_is_written_as_string (micros : string)
  (intern_ : option bool) :
  let str := String.append "1969-12-31T23:59:59." micros in
  JsonSaxHandler.tryTime str = None /\
  JsonSaxHandler.String_ intern_ str = JsonSaxHandler.value_string str intern_.
Proof.
  cbv zeta.
  assert (H : JsonSaxHandler.tryTime (String.append "1969-12-31T23:59:59." micros)
              = None).
  { unfold JsonSaxHandler.tryTime.
    destruct (JsonSaxHandler.regex_match _ _); [|reflexivity].
    vm_compute. reflexivity. }
  split; [exact H|].
  unfold JsonSaxHandler.String_. rewrite H.
  destruct (Nat.eqb _ 26); reflexivity.
Qed.

(** ** Json2Au.cpp : the loop of [json2au] *)

Lemma json2au_entries_limit (docs : list Z) (maxEntries : Z) :
  Forall (fun code => code = Json2Au.kParseErrorNone) docs ->
  maxEntries < 2 ^ 64 - 1 ->
  forall n,
    0 <= n <= maxEntries -> maxEntries - n < Z.of_nat (List.length docs) ->
    json2au_entries docs n maxEntries = maxEntries + 1 /\
    Json2Au.parse_loop docs n maxEntries = Json2Au.kParseErrorNone.
Proof.
  intros Hall Hmax. induction Hall as [|code docs Hcode Hall IH]; intros n Hn Hlen.
  - cbn in Hlen. lia.
  - subst code. cbn [json2au_entries Json2Au.parse_loop].
    rewrite wrap64_small by lia.
    destruct (n + 1 >? maxEntries) eqn:E.
    + split; [lia|reflexivity].
    + cbn [Z.eqb Json2Au.kParseErrorNone].
      apply IH; [lia|]. cbn [List.length] in Hlen. lia.
Qed.

(** X8.  The loop of [json2au] tests [entriesProcessed > maxEntries] after it
    has encoded a document and counted it: with a limit of [maxEntries]
    documents it encodes [maxEntries + 1] of them when the input has that
    many (one document for a limit of 0), and ends with no error. *)
Theorem json2au_encodes_one_more_than_maxEntries (docs : list Z)
  (maxEntries : Z) :
  Forall (fun code => code = Json2Au.kParseErrorNone) docs ->
  0 <= maxEntries < Z.of_nat (List.length docs) ->
  maxEntries < 2 ^ 64 - 1 ->
  json2au_entries docs 0 maxEntries = maxEntries + 1 /\
  Json2Au.parse_loop docs 0 maxEntries = Json2Au.kParseErrorNone.
Proof.
  intros Hall Hn Hmax. apply json2au_entries_limit; auto; lia.
Qed.

Lemma json2au_encodes_one_more_than_maxEntries_witness :
  json2au_entries [0; 0; 0] 0 1 = 1 + 1 /\
  Json2Au.parse_loop [0; 0; 0] 0 1 = Json2Au.kParseErrorNone.
Proof.
  apply json2au_encodes_one_more_than_maxEntries.
  - repeat constructor.
  - cbn. lia.
  - reflexivity.
Defined.

(** ** au/FileByteSource.h : what a reader gets *)

Section ReadingPlainFiles.
Import FileByteSource.

Lemma fill_true_has_byte (fuel : nat) :
  forall s s', fill fuel s = Ok true s' -> (cur_ s' =? limit_ s') = false.
Proof.
  induction fuel as [|fuel IH]; intros s s' H.
  - cbn in H. destruct (cur_ s =? limit_ s) eqn:E; [discriminate|].
    inversion H; subst. exact E.
  - cbn [fill] in H. destruct (cur_ s =? limit_ s) eqn:E.
    + destruct (read s) as [[|] s1|e s1|s1|] eqn:R; try discriminate.
      apply (IH _ _ H).
    + inversion H; subst. exact E.
Qed.

Lemma fill_ready (fuel : nat) (s : t) :
  (cur_ s =? limit_ s) = false -> fill fuel s = Ok true s.
Proof. intros H. destruct fuel; cbn [fill]; rewrite H; reflexivity. Qed.

Lemma read_pos (s : t) (b : bool) (s' : t) :
  read s = Ok b s' -> pos_ s' = pos_ s.
Proof.
  unfold read. intros H.
  assert (Hp : pos_ (grow (compact s)) = pos_ s).
  { unfold grow, compact.
    destruct (cur_ s >? histSz s); destruct (buffFree _ =? 0); reflexivity. }
  destruct (doRead _ _) as [[n bytes] st].
  destruct (n <? 0); [discriminate|].
  destruct (n =? 0).
  - destruct (waitForData_ s); [discriminate|]. inversion H; subst. exact Hp.
  - inversion H; subst. exact Hp.
Qed.

Lemma fill_pos (fuel : nat) :
  forall s b s', fill fuel s = Ok b s' -> pos_ s' = pos_ s.
Proof.
  induction fuel as [|fuel IH]; intros s b s' H.
  - cbn in H. destruct (cur_ s =? limit_ s); [discriminate|].
    inversion H; subst. reflexivity.
  - cbn [fill] in H. destruct (cur_ s =? limit_ s).
    + destruct (read s) as [[|] s1|e s1|s1|] eqn:R; try discriminate.
      * rewrite (IH _ _ _ H). apply (read_pos _ _ _ R).
      * inversion H; subst. apply (read_pos _ _ _ R).
    + inversion H; subst. reflexivity.
Qed.

Lemma plain_file_advance (s : t) (n : Z) : plain_file s -> plain_file (advance s n).
Proof. intros H. exact H. Qed.

Lemma at_cur_window (s : t) :
  window s -> cur_ s < limit_ s -> at_cur s = file_byte s (pos_ s).
Proof.
  intros (Hc & Hcp & Hoff & Hlen & Hlen64 & Hbuf) Hlt.
  unfold at_cur, file_byte. rewrite Hbuf.
  rewrite nth_slice by lia. f_equal. f_equal. lia.
Qed.

(** On a plain file the refill loop of [next], [peek] and [readFunc] ends after
    one [read] at most, with a byte at the cursor unless the file is read to
    its end. *)
Lemma fill_plain (fuel : nat) (s : t) :
  window s -> plain_file s ->
  exists b s',
    fill (S fuel) s = Ok b s' /\
    keeps s s' /\ plain_file s' /\ pos_ s' = pos_ s /\
    (b = true -> cur_ s' < limit_ s') /\
    (b = false -> pos_ s = file_length s) /\
    (pos_ s < file_length s -> b = true).
Proof.
  intros Hw Hp.
  assert (Hgen : exists b s',
             fill (S fuel) s = Ok b s' /\
             keeps s s' /\ plain_file s' /\ pos_ s' = pos_ s /\
             (b = true -> cur_ s' < limit_ s') /\
             (b = false -> pos_ s = file_length s)).
  { cbn [fill]. destruct (cur_ s =? limit_ s) eqn:E.
    - apply Z.eqb_eq in E.
      destruct (read_plain s Hw Hp) as (b & s' & Hread & Hp' & Heof).
      destruct (read_keeps s b s' Hw Hread) as (Hk & Hpos & Hmore).
      rewrite Hread. destruct b.
      + specialize (Hmore eq_refl). unfold buffAvail in Hmore.
        assert (Hne : (cur_ s' =? limit_ s') = false) by (apply Z.eqb_neq; lia).
        rewrite (fill_ready fuel s' Hne).
        exists true, s'. split; [reflexivity|]. split; [exact Hk|].
        split; [exact Hp'|]. split; [exact Hpos|].
        split; [intros _; lia|discriminate].
      + exists false, s'. split; [reflexivity|]. split; [exact Hk|].
        split; [exact Hp'|]. split; [exact Hpos|].
        split; [discriminate|].
        intros _. destruct (Heof eq_refl) as [He _].
        unfold buffAvail in He. unfold file_length. lia.
    - apply Z.eqb_neq in E. exists true, s.
      pose proof Hw as (Hc & _).
      split; [reflexivity|]. split; [exact (keeps_refl s Hw)|].
      split; [exact Hp|]. split; [reflexivity|].
      split; [intros _; lia|discriminate]. }
  destruct Hgen as (b & s' & Hf & Hk & Hp' & Hpos & Ht & He).
  exists b, s'. split; [exact Hf|]. split; [exact Hk|].
  split; [exact Hp'|]. split; [exact Hpos|]. split; [exact Ht|].
  split; [exact He|].
  intros Hlt. destruct b; [reflexivity|]. specialize (He eq_refl). lia.
Qed.

(** [next] on a plain file: the byte of the file at the position, or [Eof] at
    the end of the file. *)
Lemma next_plain (fuel : nat) (s : t) :
  window s -> plain_file s ->
  (pos_ s < file_length s ->
   exists s',
     next (S fuel) s = Ok (Some (file_byte s (pos_ s))) s' /\
     keeps s s' /\ plain_file s' /\ pos_ s' = pos_ s + 1) /\
  (file_length s <= pos_ s ->
   exists s',
     next (S fuel) s = Ok None s' /\
     keeps s s' /\ plain_file s' /\ pos_ s' = pos_ s).
Proof.
  intros Hw Hp.
  destruct (fill_plain fuel s Hw Hp)
    as (b & s1 & Hf & Hk & Hp1 & Hpos & Ht & He & Hlt).
  unfold next. rewrite Hf. split.
  - intros H. rewrite (Hlt H). specialize (Ht (Hlt H)).
    pose proof Hk as (Hw1 & Hd1 & _).
    destruct (advance_keeps s1 1 Hw1) as [Hk2 Hpos2].
    { unfold buffAvail. lia. }
    exists (advance s1 1). split.
    + rewrite (at_cur_window s1 Hw1 Ht). unfold file_byte.
      rewrite Hd1, Hpos. reflexivity.
    + split; [exact (keeps_trans _ _ _ Hk Hk2)|].
      split; [apply plain_file_advance, Hp1|]. lia.
  - intros H. destruct b.
    + specialize (Ht eq_refl).
      pose proof Hk as ((Hc & Hcp & Hoff & Hlen & _) & Hd1 & _).
      unfold file_length in H. rewrite <- Hd1 in H. lia.
    + exists s1. split; [reflexivity|]. split; [exact Hk|].
      split; [exact Hp1|exact Hpos].
Qed.

Lemma keeps_data (s s' : t) : keeps s s' -> file_length s' = file_length s.
Proof. intros (_ & Hd & _). unfold file_length. rewrite Hd. reflexivity. Qed.

Lemma keeps_file_byte (s s' : t) (q : Z) :
  keeps s s' -> file_byte s' q = file_byte s q.
Proof. intros (_ & Hd & _). unfold file_byte. rewrite Hd. reflexivity. Qed.

Lemma slice_cons (l : list byte) (q n : Z) :
  0 <= q < zlength l -> 0 <= n ->
  slice l q (n + 1) = nth (Z.to_nat q) l zero_byte :: slice l (q + 1) n.
Proof.
  intros Hq Hn.
  replace (n + 1) with (1 + n) by lia.
  rewrite <- (slice_app l q 1 n) by lia.
  assert (H1 : slice l q 1 = [nth (Z.to_nat q) l zero_byte]).
  { unfold slice, zlength in *.
    change (Z.to_nat 1) with 1%nat.
    assert (Hlt : (Z.to_nat q < List.length l)%nat) by lia.
    revert Hlt. generalize (Z.to_nat q) as k. clear.
    induction l as [|x l IH]; intros k Hk; [cbn in Hk; lia|].
    destruct k; [reflexivity|]. cbn [skipn nth]. apply IH. cbn in Hk. lia. }
  rewrite H1. reflexivity.
Qed.

Lemma next_n_plain (fuel : nat) (n : nat) :
  forall s,
    window s -> plain_file s ->
    let len := Z.min (Z.of_nat n) (file_length s - pos_ s) in
    exists s',
      next_n (S fuel) n s = Ok (slice (data (stream s)) (pos_ s) len) s' /\
      keeps s s' /\ plain_file s' /\ pos_ s' = pos_ s + len.
Proof.
  induction n as [|n IH]; intros s Hw Hp; cbv zeta.
  - pose proof Hw as (Hc & Hcp & Hoff & Hlen & _).
    assert (Hpos : pos_ s <= file_length s) by (unfold file_length; lia).
    exists s. replace (Z.min (Z.of_nat 0) (file_length s - pos_ s)) with 0 by lia.
    cbn [next_n]. split; [reflexivity|]. split; [exact (keeps_refl s Hw)|].
    split; [exact Hp|lia].
  - destruct (next_plain fuel s Hw Hp) as [Hsome Hnone].
    pose proof Hw as (Hc & Hcp & Hoff & Hlen & _).
    cbn [next_n].
    destruct (Z.lt_ge_cases (pos_ s) (file_length s)) as [Hlt|Hge].
    + destruct (Hsome Hlt) as (s1 & Hn1 & Hk1 & Hp1 & Hpos1).
      rewrite Hn1.
      destruct (IH s1 (proj1 Hk1) Hp1) as (s2 & Hn2 & Hk2 & Hp2 & Hpos2).
      cbv zeta in Hn2, Hpos2. rewrite Hn2.
      rewrite (keeps_data _ _ Hk1) in *.
      exists s2.
      replace (Z.min (Z.of_nat (S n)) (file_length s - pos_ s))
        with (Z.min (Z.of_nat n) (file_length s - pos_ s1) + 1) by lia.
      split.
      * f_equal. destruct Hk1 as (_ & Hd1 & _). rewrite Hd1, Hpos1.
        rewrite slice_cons; [reflexivity| |lia].
        unfold file_length in Hlt. lia.
      * split; [exact (keeps_trans _ _ _ Hk1 Hk2)|]. split; [exact Hp2|]. lia.
    + destruct (Hnone ltac:(lia)) as (s1 & Hn1 & Hk1 & Hp1 & Hpos1).
      rewrite Hn1. exists s1.
      assert (file_length s = pos_ s) by (unfold file_length in *; lia).
      replace (Z.min (Z.of_nat (S n)) (file_length s - pos_ s)) with 0 by lia.
      split; [reflexivity|]. split; [exact Hk1|]. split; [exact Hp1|lia].
Qed.

End ReadingPlainFiles.

(** X9.  Calling [next()] over and over on a plain file returns the bytes of
    the file from the current position on, in order and without gap or
    repetition, wherever the buffer had to be refilled, compacted or grown in
    between; at the end of the file it returns [Eof] and stays there. *)
Theorem next_returns_the_file_in_order (fuel n : nat) (s : FileByteSource.t) :
  window s -> plain_file s ->
  let len := Z.min (Z.of_nat n) (file_length s - FileByteSource.pos_ s) in
  exists s',
    next_n (S fuel) n s
    = FileByteSource.Ok
        (FileByteSource.slice (FileByteSource.data (FileByteSource.stream s))
           (FileByteSource.pos_ s) len) s' /\
    window s' /\ plain_file s' /\
    FileByteSource.pos_ s' = FileByteSource.pos_ s + len /\
    (len < Z.of_nat n ->
     exists s'', FileByteSource.next (S fuel) s' = FileByteSource.Ok None s'').
Proof.
  intros Hw Hp. cbv zeta.
  destruct (next_n_plain fuel n s Hw Hp) as (s' & Hn & Hk & Hp' & Hpos).
  cbv zeta in Hn, Hpos.
  exists s'. split; [exact Hn|]. split; [apply Hk|]. split; [exact Hp'|].
  split; [exact Hpos|]. intros Hlt.
  destruct (next_plain fuel s' (proj1 Hk) Hp') as [_ Hnone].
  destruct Hnone as (s'' & Hn'' & _).
  - rewrite (keeps_data _ _ Hk). lia.
  - exists s''. exact Hn''.
Qed.

Lemma next_returns_the_file_in_order_witness :
  exists s',
    next_n 1 10 (FileByteSource.new (stream_of "abcdef" 4) false 256)
    = FileByteSource.Ok (list_ascii_of_string "abcdef") s' /\
    FileByteSource.pos_ s' = 6 /\
    exists s'', FileByteSource.next 1 s' = FileByteSource.Ok None s''.
Proof.
  destruct (next_returns_the_file_in_order 0 10
              (FileByteSource.new (stream_of "abcdef" 4) false 256))
    as (s' & Hn & _ & _ & Hpos & Heof).
  - apply new_window; [reflexivity|vm_compute; reflexivity].
  - apply new_plain_file. vm_compute. reflexivity.
  - exists s'. split; [exact Hn|]. split; [exact Hpos|].
    apply Heof. vm_compute. reflexivity.
Defined.

(** X10.  [peek()] does not consume: when it has returned a byte, the position
    is what it was before the call, a second [peek()] returns the same byte
    without touching the source, and the following [next()] returns that byte
    too and only moves one byte forward. *)
Theorem peek_does_not_consume (fuel : nat) (s s1 : FileByteSource.t)
  (b : FileByteSource.byte) :
  FileByteSource.peek fuel s = FileByteSource.Ok (Some b) s1 ->
  FileByteSource.pos_ s1 = FileByteSource.pos_ s /\
  forall fuel',
    FileByteSource.peek fuel' s1 = FileByteSource.Ok (Some b) s1 /\
    FileByteSource.next fuel' s1
    = FileByteSource.Ok (Some b) (FileByteSource.advance s1 1).
Proof.
  unfold FileByteSource.peek. intros H.
  destruct (FileByteSource.fill fuel s) as [[|] s2|e s2|s2|] eqn:F;
    try discriminate.
  inversion H; subst. split; [apply (fill_pos _ _ _ _ F)|].
  intros fuel'. unfold FileByteSource.next.
  rewrite (fill_ready fuel' s1 (fill_true_has_byte _ _ _ F)).
  split; reflexivity.
Qed.

Lemma peek_does_not_consume_witness :
  FileByteSource.pos_ peeked_source
  = FileByteSource.pos_ (FileByteSource.new (stream_of "abcdef" 4) false 256) /\
  forall fuel',
    FileByteSource.peek fuel' peeked_source
    = FileByteSource.Ok (Some "a"%char) peeked_source /\
    FileByteSource.next fuel' peeked_source
    = FileByteSource.Ok (Some "a"%char) (FileByteSource.advance peeked_source 1).
Proof.
  apply (peek_does_not_consume 5). vm_compute. reflexivity.
Defined.

Section ReadExact.
Import FileByteSource.

Lemma slice_of_unread (s : t) (n : Z) :
  window s -> 0 <= n <= buffAvail s ->
  slice (buf_ s) (cur_ s) n = slice (data (stream s)) (pos_ s) n.
Proof.
  intros Hw Hn. pose proof (unread_bytes s Hw) as Hu.
  unfold slice at 1. rewrite Hu. unfold slice.
  rewrite firstn_firstn. f_equal. lia.
Qed.

Lemma readFunc_plain (fuel : nat) :
  forall len s frags,
    window s -> plain_file s -> 0 <= len < 2 ^ 64 ->
    (Z.to_nat len <= fuel)%nat ->
    (pos_ s + len <= file_length s ->
     exists out s',
       readFunc fuel len s frags = Ok out s' /\
       List.concat out = List.concat frags ++ slice (data (stream s)) (pos_ s) len /\
       keeps s s' /\ plain_file s' /\ pos_ s' = pos_ s + len) /\
    (file_length s < pos_ s + len ->
     exists what s', readFunc fuel len s frags = Throw (parse_error what) s').
Proof.
  induction fuel as [|fuel IH]; intros len s frags Hw Hp Hlen Hfuel.
  - assert (len = 0) by lia. subst len. cbn. split.
    + intros _. exists frags, s. split; [reflexivity|].
      split; [unfold slice; cbn; rewrite app_nil_r; reflexivity|].
      split; [exact (keeps_refl s Hw)|]. split; [exact Hp|lia].
    + intros H. pose proof Hw as (Hc & Hcp & Hoff & Hl & _).
      unfold file_length in H. lia.
  - cbn [readFunc]. destruct (len =? 0) eqn:E.
    + apply Z.eqb_eq in E. subst len. split.
      * intros _. exists frags, s. split; [reflexivity|].
        split; [unfold slice; cbn; rewrite app_nil_r; reflexivity|].
        split; [exact (keeps_refl s Hw)|]. split; [exact Hp|lia].
      * intros H. pose proof Hw as (Hc & Hcp & Hoff & Hl & _).
        unfold file_length in H. lia.
    + apply Z.eqb_neq in E.
      destruct (fill_plain fuel s Hw Hp)
        as (b & s1 & Hf & Hk & Hp1 & Hpos & Ht & He & Hlt).
      rewrite Hf. destruct b.
      * specialize (Ht eq_refl).
        pose proof Hk as (Hw1 & Hd1 & _).
        pose proof Hw1 as (Hc1 & Hcp1 & Hoff1 & Hl1 & Hl64 & Hbuf1).
        set (first := Z.min len (limit_ s1 - cur_ s1)).
        assert (Hfirst : 1 <= first <= len) by (subst first; lia).
        assert (Hav : 0 <= first <= buffAvail s1)
          by (unfold buffAvail; subst first; lia).
        destruct (advance_keeps s1 first Hw1 Hav) as [Hk2 Hpos2].
        rewrite wrap64_small by lia.
        destruct (IH (len - first) (advance s1 first)
                    (frags ++ [slice (buf_ s1) (cur_ s1) first])
                    (proj1 Hk2) (plain_file_advance s1 first Hp1)
                    ltac:(lia) ltac:(lia)) as [IHok IHthrow].
        rewrite (keeps_data _ _ Hk2), (keeps_data _ _ Hk) in IHok, IHthrow.
        rewrite Hpos2, Hpos in IHok, IHthrow.
        split.
        -- intros H. destruct IHok as (out & s' & Hr & Hcat & Hk3 & Hp3 & Hpos3);
             [lia|].
           exists out, s'. split; [exact Hr|]. split.
           ++ rewrite Hcat, concat_app. cbn [List.concat]. rewrite app_nil_r.
              rewrite <- app_assoc. f_equal.
              rewrite (slice_of_unread s1 first Hw1 Hav).
              destruct Hk2 as (_ & Hd2 & _). cbn [advance stream] in Hd2 |- *.
              rewrite Hd1, Hpos.
              rewrite slice_app by lia. f_equal. lia.
           ++ split; [exact (keeps_trans _ _ _ Hk (keeps_trans _ _ _ Hk2 Hk3))|].
              split; [exact Hp3|lia].
        -- intros H. apply IHthrow. lia.
      * specialize (He eq_refl). split.
        -- intros H. lia.
        -- intros _. eexists. exists s1. reflexivity.
Qed.

End ReadExact.

(** X11.  [readFunc(len, func)] on a plain file is an exact read: when [len]
    bytes are left, the fragments handed to [func] are, put together, exactly
    the next [len] bytes of the file, and the position has moved by [len];
    when fewer are left it throws a [parse_error] (reached eof), never handing
    over a short read as if it were complete. *)
Theorem readFunc_reads_exactly (fuel : nat) (len : Z) (s : FileByteSource.t) :
  window s -> plain_file s -> 0 <= len < 2 ^ 64 ->
  (Z.to_nat len <= fuel)%nat ->
  (FileByteSource.pos_ s + len <= file_length s ->
   exists out s',
     FileByteSource.readFunc fuel len s [] = FileByteSource.Ok out s' /\
     List.concat out
     = FileByteSource.slice (FileByteSource.data (FileByteSource.stream s))
         (FileByteSource.pos_ s) len /\
     window s' /\ FileByteSource.pos_ s' = FileByteSource.pos_ s + len) /\
  (file_length s < FileByteSource.pos_ s + len ->
   exists what s',
     FileByteSource.readFunc fuel len s []
     = FileByteSource.Throw (parse_error what) s').
Proof.
  intros Hw Hp Hlen Hfuel.
  destruct (readFunc_plain fuel len s [] Hw Hp Hlen Hfuel) as [Hok Hthrow].
  split; [|exact Hthrow].
  intros H. destruct (Hok H) as (out & s' & Hr & Hcat & Hk & _ & Hpos).
  exists out, s'. split; [exact Hr|]. split; [exact Hcat|].
  split; [apply Hk|exact Hpos].
Qed.

Lemma readFunc_reads_exactly_witness :
  (exists out s',
      FileByteSource.readFunc 5 5
        (FileByteSource.new (stream_of "abcdef" 4) false 256) []
      = FileByteSource.Ok out s' /\
      List.concat out = list_ascii_of_string "abcde" /\
      FileByteSource.pos_ s' = 5) /\
  (exists what s',
      FileByteSource.readFunc 7 7
        (FileByteSource.new (stream_of "abcdef" 4) false 256) []
      = FileByteSource.Throw (parse_error what) s').
Proof.
  split.
  - destruct (readFunc_reads_exactly 5 5
                (FileByteSource.new (stream_of "abcdef" 4) false 256))
      as [Hok _].
    + apply new_window; [reflexivity|vm_compute; reflexivity].
    + apply new_plain_file. vm_compute. reflexivity.
    + split; [lia|reflexivity].
    + vm_compute. lia.
    + destruct Hok as (out & s' & Hr & Hcat & _ & Hpos).
      * vm_compute. discriminate.
      * exists out, s'. split; [exact Hr|]. split; [exact Hcat|exact Hpos].
  - destruct (readFunc_reads_exactly 7 7
                (FileByteSource.new (stream_of "abcdef" 4) false 256))
      as [_ Hthrow].
    + apply new_window; [reflexivity|vm_compute; reflexivity].
    + apply new_plain_file. vm_compute. reflexivity.
    + split; [lia|reflexivity].
    + vm_compute. lia.
    + apply Hthrow. vm_compute. reflexivity.
Defined.

Section SeekOnPlainFiles.
Import FileByteSource.

Lemma in_history_dec (s : t) (abspos : Z) :
  in_history s abspos \/ ~ in_history s abspos.
Proof. unfold in_history. lia. Qed.

Lemma stream_grow_compact (s : t) : stream (grow (compact s)) = stream s.
Proof.
  unfold grow, compact.
  destruct (cur_ s >? histSz s); destruct (buffFree _ =? 0); reflexivity.
Qed.

Lemma waitForData_grow_compact (s : t) :
  waitForData_ (grow (compact s)) = waitForData_ s.
Proof.
  unfold grow, compact.
  destruct (cur_ s >? histSz s); destruct (buffFree _ =? 0); reflexivity.
Qed.

(** With the kernel's offset at or beyond the end of the file, [read] gets
    nothing. *)
Lemma read_at_end (s : t) :
  zlength (data (stream s)) <= offset (stream s) ->
  read_fails (stream s) (offset (stream s)) = false ->
  waitForData_ s = false ->
  exists s', read s = Ok false s'.
Proof.
  intros Hoff Hfail Hwait. unfold read.
  assert (Hd : exists st,
             doRead (stream (grow (compact s))) (buffFree (grow (compact s)))
             = (0, [], st)).
  { rewrite stream_grow_compact. unfold doRead. rewrite Hfail.
    replace (zlength (data (stream s)) - offset (stream s) <=? 0) with true
      by (symmetry; apply Z.leb_le; lia).
    rewrite orb_true_r. eexists. reflexivity. }
  destruct Hd as [st Hd]. rewrite Hd. cbn. rewrite Hwait.
  eexists. reflexivity.
Qed.

Lemma seek_plain (s : t) (abspos : Z) :
  window s -> plain_file s -> 0 <= abspos < file_length s ->
  exists s',
    seek abspos s = Ok tt s' /\ window s' /\ plain_file s' /\
    pos_ s' = abspos /\ data (stream s') = data (stream s).
Proof.
  intros Hw Hp Habs. unfold file_length in Habs.
  assert (Hfin : forall s', seek abspos s = Ok tt s' -> plain_file s' ->
            exists s', seek abspos s = Ok tt s' /\ window s' /\ plain_file s' /\
                       pos_ s' = abspos /\ data (stream s') = data (stream s)).
  { intros s' Hs Hp'.
    destruct (seek_window s abspos s' Hw ltac:(lia) Hs) as (Hw' & Hpos & Hd).
    exists s'. split; [exact Hs|]. split; [exact Hw'|]. split; [exact Hp'|].
    split; [exact Hpos|exact Hd]. }
  destruct (in_history_dec s abspos) as [Hin|Hout].
  - eapply Hfin; [apply (seek_in_history s abspos Hin)|]. exact Hp.
  - pose proof Hw as (Hc & Hcp & Hoff & Hlen & Hlen64 & Hbuf).
    pose proof Hp as (Hinit & Hlb & Hbs & Hbound & Hlen63 & Hwait & Hseekable
                      & Hfail).
    cbv zeta in *.
    assert (Hds : doSeek (stream s) abspos
                  = Some {| data := data (stream s); offset := abspos;
                            seekable := seekable (stream s);
                            chunk := chunk (stream s);
                            read_fails := read_fails (stream s);
                            syscalls := sys_lseek abspos :: syscalls (stream s) |}).
    { unfold doSeek. rewrite Hseekable.
      destruct (abspos <? 2 ^ 63) eqn:E; [reflexivity|lia]. }
    pose proof (seek_outside_history s abspos Hout) as Hseek.
    rewrite Hds in Hseek. set (st := {| data := data (stream s) |}) in *.
    assert (Hwr : window (reseeked s abspos st)).
    { unfold window. cbv zeta. unfold limit_, reseeked.
      cbn [cur_ pos_ stream buf_ st data offset].
      change (zlength []) with 0.
      split; [lia|]. split; [lia|]. split; [lia|]. split; [lia|].
      split; [lia|reflexivity]. }
    assert (Hpr : plain_file (reseeked s abspos st)).
    { unfold plain_file. cbv zeta. unfold limit_ in *. unfold reseeked.
      cbn [INIT_BUFFER_SIZE bufSize_ buf_ stream waitForData_ st data seekable
           read_fails].
      change (zlength []) with 0. pose proof (zlength_nonneg (buf_ s)).
      split; [assumption|]. split; [lia|]. split; [assumption|].
      split; [assumption|]. split; [assumption|]. split; [assumption|].
      split; assumption. }
    destruct (read_plain _ Hwr Hpr) as (b & s' & Hread & Hp' & Heof).
    rewrite Hread in Hseek. destruct b.
    + eapply Hfin; [exact Hseek|exact Hp'].
    + destruct (Heof eq_refl) as [He _].
      cbn [pos_ stream reseeked st data] in He.
      change (buffAvail (reseeked s abspos st)) with 0 in He. lia.
Qed.

Lemma seek_beyond (s : t) (abspos : Z) :
  window s -> plain_file s -> file_length s <= abspos ->
  exists what s', seek abspos s = Throw (runtime_error what) s'.
Proof.
  intros Hw Hp Habs. unfold file_length in Habs.
  pose proof Hw as (Hc & Hcp & Hoff & Hlen & Hlen64 & Hbuf).
  pose proof Hp as (Hinit & Hlb & Hbs & Hbound & Hlen63 & Hwait & Hseekable
                    & Hfail).
  cbv zeta in *.
  assert (Hout : ~ in_history s abspos) by (unfold in_history; lia).
  rewrite (seek_outside_history s abspos Hout).
  destruct (doSeek (stream s) abspos) as [st|] eqn:Hds.
  - assert (Hst : data st = data (stream s) /\ offset st = abspos /\
                  read_fails st = read_fails (stream s)).
    { unfold doSeek in Hds. destruct (_ && _); [|discriminate].
      inversion Hds; subst. cbn. auto. }
    destruct Hst as (Hd & Ho & Hf).
    destruct (read_at_end (reseeked s abspos st)) as [s' Hread].
    + cbn [stream reseeked]. rewrite Hd, Ho. exact Habs.
    + cbn [stream reseeked]. rewrite Hf. apply Hfail.
    + exact Hwait.
    + rewrite Hread. eexists. exists s'. reflexivity.
  - eexists. exists s. reflexivity.
Qed.

End SeekOnPlainFiles.

(** X12.  On a plain file [seek] reaches every position of the file, whether
    the position is in the retained history, further back or ahead: the call
    returns, the position is the one asked for, and the next byte read is the
    byte of the file at that position. *)
Theorem seek_then_next_reads_that_byte (fuel : nat) (s : FileByteSource.t)
  (abspos : Z) :
  window s -> plain_file s -> 0 <= abspos < file_length s ->
  exists s1 s2,
    FileByteSource.seek abspos s = FileByteSource.Ok tt s1 /\
    FileByteSource.pos_ s1 = abspos /\
    FileByteSource.next (S fuel) s1
    = FileByteSource.Ok (Some (file_byte s abspos)) s2 /\
    FileByteSource.pos_ s2 = abspos + 1.
Proof.
  intros Hw Hp Habs.
  destruct (seek_plain s abspos Hw Hp Habs) as (s1 & Hs & Hw1 & Hp1 & Hpos & Hd).
  destruct (next_plain fuel s1 Hw1 Hp1) as [Hsome _].
  destruct Hsome as (s2 & Hn & _ & _ & Hpos2).
  - unfold file_length in *. rewrite Hd, Hpos. lia.
  - exists s1, s2. split; [exact Hs|]. split; [exact Hpos|].
    split; [|lia].
    rewrite Hn. unfold file_byte. rewrite Hd, Hpos. reflexivity.
Qed.

Lemma seek_then_next_reads_that_byte_witness :
  exists s1 s2,
    FileByteSource.seek 4 (FileByteSource.new (stream_of "abcdef" 4) false 256)
    = FileByteSource.Ok tt s1 /\
    FileByteSource.pos_ s1 = 4 /\
    FileByteSource.next 1 s1 = FileByteSource.Ok (Some "e"%char) s2 /\
    FileByteSource.pos_ s2 = 4 + 1.
Proof.
  apply (seek_then_next_reads_that_byte 0
           (FileByteSource.new (stream_of "abcdef" 4) false 256) 4).
  - apply new_window; [reflexivity|vm_compute; reflexivity].
  - apply new_plain_file. vm_compute. reflexivity.
  - vm_compute. split; [discriminate|reflexivity].
Defined.

(** X13.  [seek] cannot position a plain file at its end or beyond: it throws
    a [runtime_error], because the [read] it makes at the new location gets
    nothing (or because [lseek] refuses the offset).  So does [skip] when it
    would reach the end of the file or pass it, a [skip(0)] at the end of the
    file included. *)
Theorem seek_to_end_of_file_throws (s : FileByteSource.t) :
  window s -> plain_file s ->
  (forall abspos,
      file_length s <= abspos ->
      exists what s',
        FileByteSource.seek abspos s
        = FileByteSource.Throw (runtime_error what) s') /\
  (forall len,
      0 <= len -> file_length s <= FileByteSource.pos_ s + len < 2 ^ 64 ->
      exists what s',
        FileByteSource.skip len s
        = FileByteSource.Throw (runtime_error what) s').
Proof.
  intros Hw Hp. split.
  - intros abspos H. apply seek_beyond; assumption.
  - intros len Hlen H. unfold FileByteSource.skip.
    pose proof Hw as (Hc & Hcp & _).
    rewrite wrap64_small by lia. apply seek_beyond; [assumption..|lia].
Qed.

Lemma seek_to_end_of_file_throws_witness :
  exists what s',
    FileByteSource.seek 6 (FileByteSource.new (stream_of "abcdef" 4) false 256)
    = FileByteSource.Throw (runtime_error what) s'.
Proof.
  destruct (seek_to_end_of_file_throws
              (FileByteSource.new (stream_of "abcdef" 4) false 256))
    as [Hseek _].
  - apply new_window; [reflexivity|vm_compute; reflexivity].
  - apply new_plain_file. vm_compute. reflexivity.
  - apply Hseek. vm_compute. discriminate.
Defined.

Section NonSeekable.
Import FileByteSource.





End NonSeekable.



Section BufferBounds.
Import FileByteSource.

Lemma zlength_slice_le (l : list byte) (from n : Z) :
  0 <= n -> zlength (slice l from n) <= n.
Proof.
  intros Hn. unfold zlength, slice.
  pose proof (firstn_le_length (Z.to_nat n) (skipn (Z.to_nat from) l)). lia.
Qed.

Lemma doRead_count (st : Stream) (len n : Z) (bytes : list byte)
  (st' : Stream) :
  doRead st len = (n, bytes, st') ->
  n <= Z.max 0 len /\ zlength bytes <= Z.max 0 n.
Proof.
  unfold doRead. intros H.
  destruct (read_fails st (offset st)).
  { inversion H; subst. change (zlength []) with 0. lia. }
  destruct ((len <=? 0) || (zlength (data st) - offset st <=? 0)) eqn:E.
  { inversion H; subst. change (zlength []) with 0. lia. }
  apply orb_false_iff in E. destruct E as [E1 E2].
  apply Z.leb_gt in E1, E2.
  inversion H; subst. split; [lia|].
  etransitivity; [apply zlength_slice_le; lia|lia].
Qed.

End BufferBounds.

(** X15.  [read] never writes past the working buffer: provided the buffer
    is consistent before the call ([cur_] within [buf_, limit_], [limit_]
    within the allocation) it is so afterwards, whatever the stream returns.
    The allocation never shrinks, and grows by [INIT_BUFFER_SIZE] at most per
    call. *)
Theorem read_stays_within_the_buffer (s s' : FileByteSource.t) (b : bool) :
  0 <= FileByteSource.cur_ s <= FileByteSource.limit_ s ->
  FileByteSource.limit_ s <= FileByteSource.bufSize_ s ->
  0 < FileByteSource.INIT_BUFFER_SIZE s ->
  FileByteSource.bufSize_ s + FileByteSource.INIT_BUFFER_SIZE s < 2 ^ 64 ->
  FileByteSource.read s = FileByteSource.Ok b s' ->
  0 <= FileByteSource.cur_ s' <= FileByteSource.limit_ s' /\
  FileByteSource.limit_ s' <= FileByteSource.bufSize_ s' /\
  FileByteSource.bufSize_ s <= FileByteSource.bufSize_ s'
  <= FileByteSource.bufSize_ s + FileByteSource.INIT_BUFFER_SIZE s.
Proof.
  intros Hc Hl Hinit Hmax. unfold FileByteSource.read.
  set (s0 := FileByteSource.compact s).
  assert (H0 : 0 <= FileByteSource.cur_ s0 <= FileByteSource.limit_ s0 /\
               FileByteSource.limit_ s0 <= FileByteSource.bufSize_ s0 /\
               FileByteSource.bufSize_ s0 = FileByteSource.bufSize_ s /\
               FileByteSource.INIT_BUFFER_SIZE s0
               = FileByteSource.INIT_BUFFER_SIZE s).
  { subst s0. unfold FileByteSource.compact.
    pose proof (histSz_lower s) as Hh.
    unfold FileByteSource.MIN_HIST_SIZE in Hh.
    destruct (FileByteSource.cur_ s >? FileByteSource.histSz s) eqn:E.
    - apply Z.gtb_lt in E.
      unfold FileByteSource.limit_, FileByteSource.zlength in *.
      cbn [FileByteSource.with_buffer FileByteSource.cur_ FileByteSource.buf_
           FileByteSource.bufSize_ FileByteSource.INIT_BUFFER_SIZE].
      rewrite length_skipn. lia.
    - auto. }
  destruct H0 as (Hc0 & Hl0 & Hb0 & Hi0).
  set (s1 := FileByteSource.grow s0).
  assert (H1 : FileByteSource.cur_ s1 = FileByteSource.cur_ s0 /\
               FileByteSource.buf_ s1 = FileByteSource.buf_ s0 /\
               0 < FileByteSource.buffFree s1 /\
               FileByteSource.bufSize_ s <= FileByteSource.bufSize_ s1
               <= FileByteSource.bufSize_ s + FileByteSource.INIT_BUFFER_SIZE s).
  { subst s1. unfold FileByteSource.grow.
    destruct (FileByteSource.buffFree s0 =? 0) eqn:E.
    - apply Z.eqb_eq in E. unfold FileByteSource.buffFree in *.
      unfold FileByteSource.limit_ in *.
      cbn [FileByteSource.with_buffer FileByteSource.cur_ FileByteSource.buf_
           FileByteSource.bufSize_].
      rewrite Hi0, Hb0. rewrite wrap64_small by lia.
      split; [reflexivity|]. split; [reflexivity|]. lia.
    - apply Z.eqb_neq in E. unfold FileByteSource.buffFree in *.
      split; [reflexivity|]. split; [reflexivity|]. lia. }
  destruct H1 as (Hc1 & Hbuf1 & Hfree & Hb1).
  destruct (FileByteSource.doRead _ _) as [[n bytes] st] eqn:D.
  apply doRead_count in D. destruct D as [Hn Hbytes].
  assert (Hlim1 : FileByteSource.limit_ s1 = FileByteSource.limit_ s0).
  { unfold FileByteSource.limit_. rewrite Hbuf1. reflexivity. }
  unfold FileByteSource.buffFree in Hfree, Hn.
  intros H.
  destruct (n <? 0) eqn:En; [discriminate|]. apply Z.ltb_ge in En.
  destruct (n =? 0) eqn:E0.
  - destruct (FileByteSource.waitForData_ s); [discriminate|].
    inversion H; subst s'.
    unfold FileByteSource.limit_ in *.
    cbn [FileByteSource.with_buffer FileByteSource.cur_ FileByteSource.buf_
         FileByteSource.bufSize_].
    lia.
  - inversion H; subst s'.
    unfold FileByteSource.limit_, FileByteSource.zlength in *.
    cbn [FileByteSource.with_buffer FileByteSource.cur_ FileByteSource.buf_
         FileByteSource.bufSize_].
    rewrite length_app. lia.
Qed.

Lemma read_stays_within_the_buffer_witness :
  0 <= FileByteSource.cur_ peeked_source <= FileByteSource.limit_ peeked_source /\
  FileByteSource.limit_ peeked_source <= FileByteSource.bufSize_ peeked_source /\
  256 * 1024 <= FileByteSource.bufSize_ peeked_source <= 256 * 1024 + 256 * 1024.
Proof.
  apply (read_stays_within_the_buffer
           (FileByteSource.new (stream_of "abcdef" 4) false 256)
           peeked_source true).
  - vm_compute. split; discriminate.
  - vm_compute. discriminate.
  - reflexivity.
  - reflexivity.
  - reflexivity.
Defined.

Lemma scanTo_finds_first_witness :
  exists s',
    FileByteSource.scanTo 10 (list_ascii_of_string "bc")
      (FileByteSource.new (stream_of "abcbc" 100) false 256)
    = FileByteSource.Ok true s' /\
    FileByteSource.pos_ s' = 1.
Proof.
  destruct (scanTo_finds_first (list_ascii_of_string "bc") 10
              (FileByteSource.new (stream_of "abcbc" 100) false 256) 3)
    as (s' & Hs & Hpos & Hocc & Hfirst & _).
  - apply new_window; [reflexivity|vm_compute; reflexivity].
  - apply new_plain_file. vm_compute. reflexivity.
  - vm_compute. lia.
  - vm_compute. discriminate.
  - split; [lia|reflexivity].
  - exists s'. split; [exact Hs|].
    cbn [FileByteSource.pos_ FileByteSource.new] in Hpos, Hfirst.
    assert (H0 : ~ occurs_at (list_ascii_of_string "abcbc")
                   (list_ascii_of_string "bc") 0)
      by (intros [_ H]; discriminate H).
    assert (H2 : ~ occurs_at (list_ascii_of_string "abcbc")
                   (list_ascii_of_string "bc") 2)
      by (intros [_ H]; discriminate H).
    cbn [FileByteSource.stream FileByteSource.data FileByteSource.new stream_of]
      in Hocc.
    assert (Hcases : FileByteSource.pos_ s' = 0 \/ FileByteSource.pos_ s' = 1 \/
                     FileByteSource.pos_ s' = 2 \/ FileByteSource.pos_ s' = 3)
      by lia.
    destruct Hcases as [E|[E|[E|E]]]; rewrite E in *.
    + contradiction.
    + reflexivity.
    + contradiction.
    + exfalso. apply (Hfirst 1); [lia|]. split; [lia|reflexivity].
Defined.

Lemma scanTo_absent_false_witness :
  exists s',
    FileByteSource.scanTo 10 (list_ascii_of_string "xy")
      (FileByteSource.new (stream_of "abc" 100) false 256)
    = FileByteSource.Ok false s'.
Proof.
  apply (scanTo_absent_false (list_ascii_of_string "xy") 10
           (FileByteSource.new (stream_of "abc" 100) false 256)).
  - apply new_window; [reflexivity|vm_compute; reflexivity].
  - apply new_plain_file. vm_compute. reflexivity.
  - vm_compute. lia.
  - intros q Hq [_ Hocc]. unfold FileByteSource.slice in Hocc.
    cbn [FileByteSource.new FileByteSource.stream FileByteSource.data stream_of
         list_ascii_of_string] in Hocc.
    destruct (Z.to_nat q) as [|[|[|k]]]; cbn in Hocc; try discriminate.
    rewrite skipn_nil in Hocc. discriminate.
  - vm_compute. discriminate.
Defined.

(** ** GrepHandler.h : [reallyDoGrep] when counting *)

Section GrepCount.
Context {W : Type} (env : Grep.Env W).





End GrepCount.



(** ** GrepHandler.h : [doBisect] on a long record *)

(** X19.  The loop of [doBisect] does not always end.  When the record found
    from the midpoint of a window of more than [SCAN_THRESHOLD] bytes starts
    exactly at the end of the window (a record longer than half the window
    lies before it) and does not precede the pattern, the iteration sets
    [end] to the value it already has: the window is the same, and as long as
    the file answers in the same way the loop probes it again and again. *)
Theorem bisect_loop_can_make_no_progress (W : Type) (env : Grep.Env W)
  (stuck : W -> Prop) (p : Pattern) (start end_ : Z) (gfuel : nat) :
  0 <= start -> end_ < 2 ^ 64 -> end_ - start > Grep.SCAN_THRESHOLD ->
  (forall w, stuck w ->
     exists w1 w2 w3,
       Grep.seek env (start + (end_ - start) / 2) w = (Grep.Ok tt, w1) /\
       Grep.sync env w1 = (Grep.Ok true, w2) /\
       Grep.pos env w2 = end_ /\
       Grep.parseUntilValue env Grep.bisectRecordHandler w2 = (Grep.Ok true, w3) /\
       Grep.recordPrecedesPattern env w3 = false /\
       stuck w3) ->
  forall (fuel : nat) (st : @Grep.State W),
    stuck (Grep.world st) ->
    fst (Grep.bisect_loop env fuel gfuel p start end_ st) = Grep.OutOfFuel.
Proof.
  intros Hstart Hend Hbig Hstuck.
  induction fuel as [|fuel IH]; intros st Hst; [reflexivity|].
  destruct (Hstuck _ Hst) as (w1 & w2 & w3 & Hseek & Hsync & Hpos & Hparse
                              & Hless & Hst3).
  unfold Grep.SCAN_THRESHOLD in Hbig.
  cbn [Grep.bisect_loop].
  replace (end_ >? start) with true by (symmetry; apply Z.gtb_lt; lia).
  rewrite (wrap64_small (end_ - start)) by lia.
  replace (end_ - start <=? Grep.SCAN_THRESHOLD) with false
    by (symmetry; apply Z.leb_gt; unfold Grep.SCAN_THRESHOLD; lia).
  rewrite (wrap64_small (start + (end_ - start) / 2))
    by (Z.to_euclidean_division_equations; lia).
  unfold Grep.bind at 1.
  rewrite (seekSync_found env _ st w1 w2 Hseek Hsync).
  unfold Grep.bind at 1. unfold Grep.source_pos at 1.
  cbn [Grep.world Grep.trace].
  unfold Grep.bind at 1. unfold Grep.parse, Grep.call.
  cbn [Grep.world Grep.trace]. rewrite Hparse. cbn [negb].
  unfold Grep.bind at 1. unfold Grep.grep_recordPrecedesPattern at 1.
  cbn [Grep.world Grep.trace]. rewrite Hless, Hpos.
  apply IH. exact Hst3.
Qed.

Lemma bisect_loop_can_make_no_progress_witness :
  fst (Grep.bisect_loop long_record_env 1000 10 count_uint7 0 300000
         {| Grep.world := 0; Grep.trace := [] |}) = Grep.OutOfFuel.
Proof.
  apply (bisect_loop_can_make_no_progress Z long_record_env (fun _ => True)
           count_uint7 0 300000 10).
  - lia.
  - reflexivity.
  - reflexivity.
  - intros w _. exists 150000, 300000, 400000.
    repeat split; reflexivity.
  - exact I.
Defined.

(** ** GrepHandler.h : the handler on a whole value *)

(** X20.  Without a key pattern the handler finds a matching scalar wherever
    it is in the record: after the callbacks of a value, [matched()] holds if
    and only if some scalar inside the value, at any depth of objects and
    arrays, matches the pattern. *)
Theorem matched_anywhere_without_key_pattern (p : Pattern)
  (dict : list string) (v : Value) (h0 : GrepHandler.t) :
  keyPattern p = None ->
  in_range dict v = true ->
  exists h,
    onValue p dict v h0 = Some h /\
    (GrepHandler.matched h = true <->
     exists leaf, inside v leaf /\ leaf_matches p dict leaf = true).
Proof.
  intros Hkey Hrange.
  destruct (onValue_flags p dict v h0 Hrange) as (h & Hrun & Hm & _).
  exists h. split; [exact Hrun|]. rewrite Hm.
  assert (Hreq : negb (requiresKeyMatch p) = true)
    by (unfold requiresKeyMatch; rewrite Hkey; reflexivity).
  rewrite Hreq, scan_iff. split.
  - intros (leaf & Hc & Hl). exists leaf. split; [|exact Hl].
    exact (checked_inside p dict true v leaf Hc).
  - intros (leaf & Hi & Hl). exists leaf. split; [|exact Hl].
    exact (inside_checked p dict v leaf Hkey Hi).
Qed.

Lemma matched_anywhere_without_key_pattern_witness :
  exists h,
    onValue count_uint7 [] (VObject [(Inline ["k"], VArray [VUint 7])])
      GrepHandler.new = Some h /\
    (GrepHandler.matched h = true <->
     exists leaf,
       inside (VObject [(Inline ["k"], VArray [VUint 7])]) leaf /\
       leaf_matches count_uint7 [] leaf = true).
Proof.
  apply matched_anywhere_without_key_pattern; reflexivity.
Defined.

(** X21.  On the callbacks of any value whose dictionary references are in
    range the handler runs to the end: it never takes [back()] of an empty
    context stack and never reads the dictionary out of range.  Every
    [onObjectStart] and [onArrayStart] is undone by its end callback, so that
    the stack is left with the one [BARE] marker [onValue] pushed, counting
    one value. *)
Theorem handler_leaves_the_stack_balanced (p : Pattern) (dict : list string)
  (v : Value) (h0 : GrepHandler.t) :
  in_range dict v = true ->
  exists h,
    onValue p dict v h0 = Some h /\
    GrepHandler.dictionary_ h = dict /\
    GrepHandler.context_ h
    = [{| GrepHandler.context := GrepHandler.BARE;
          GrepHandler.counter := 1;
          GrepHandler.checkVal := negb (requiresKeyMatch p) |}].
Proof.
  intros Hrange.
  destruct (handler_on_value p dict v Hrange
              (GrepHandler.onValue_reset p dict h0)
              {| GrepHandler.context := GrepHandler.BARE;
                 GrepHandler.counter := 0;
                 GrepHandler.checkVal := negb (requiresKeyMatch p) |} []
              eq_refl eq_refl eq_refl)
    as (h & Hrun & Hd & Hc & _).
  exists h. split; [exact Hrun|]. split; [exact Hd|exact Hc].
Qed.

Lemma handler_leaves_the_stack_balanced_witness :
  exists h,
    onValue key_k_uint_5 [] nested_array_record GrepHandler.new = Some h /\
    GrepHandler.dictionary_ h = [] /\
    GrepHandler.context_ h
    = [{| GrepHandler.context := GrepHandler.BARE;
          GrepHandler.counter := 1;
          GrepHandler.checkVal := negb (requiresKeyMatch key_k_uint_5) |}].
Proof.
  apply handler_leaves_the_stack_balanced. reflexivity.
Defined.

(** ** Stats.cpp : an exception that is not a [parse_error] *)

(** X22.  [StatsDecoder::decode] catches [parse_error] only.  When the parser
    ends the first file with another exception (a [runtime_error] of the byte
    source, say), [stats] does not return: the exception leaves it, no report
    is printed for the file, and the files after it are not touched. *)
Theorem stats_lets_other_exceptions_through (e : Stats.Env)
  (argv fileNames : list string) (what : string) :
  Stats.cmd_parse e argv = Stats.Parsed fileNames ->
  let run := Stats.parseStream e (hd "-" (stats_files fileNames))
               Stats.new_handler in
  Stats.raised run = Some (runtime_error what) ->
  Stats.stats e argv
  = (Stats.printed_by_callbacks run, Stats.Throws (runtime_error what)) /\
  stats_runs e (stats_files fileNames) Stats.new_handler = [run].
Proof.
  intros Hcmd run Hraised.
  assert (Hdec : forall f rest,
             hd "-" (stats_files fileNames) = f ->
             Stats.decode_all e (f :: rest) Stats.new_handler
             = (Stats.printed_by_callbacks run,
                Stats.Throws (runtime_error what)) /\
             stats_runs e (f :: rest) Stats.new_handler = [run]).
  { intros f rest Hf. cbn [Stats.decode_all stats_runs]. unfold Stats.decode.
    subst run. rewrite Hf in *. rewrite Hraised. split; reflexivity. }
  unfold Stats.stats, stats_files. rewrite Hcmd.
  destruct fileNames as [|f rest]; apply Hdec; reflexivity.
Qed.

Lemma stats_lets_other_exceptions_through_witness :
  Stats.stats stats_env_io_error ["au"; "stats"; "log.au"; "next.au"]
  = ([], Stats.Throws (runtime_error "Error reading file")) /\
  List.length
    (stats_runs stats_env_io_error (stats_files ["log.au"; "next.au"])
       Stats.new_handler) = 1%nat.
Proof.
  destruct (stats_lets_other_exceptions_through stats_env_io_error
              ["au"; "stats"; "log.au"; "next.au"] ["log.au"; "next.au"]
              "Error reading file" eq_refl eq_refl) as [Hs Hr].
  split; [exact Hs|]. rewrite Hr. reflexivity.
Defined.

(** ** au/FileByteSource.h : a source that waits for data *)

Section Waiting.
Import FileByteSource.

Lemma read_waiting (s : t) (b : bool) (s' : t) :
  waitForData_ s = true -> read s = Ok b s' ->
  b = true /\ waitForData_ s' = true.
Proof.
  unfold read. intros Hwait H.
  pose proof (waitForData_grow_compact s) as Hw1.
  destruct (doRead _ _) as [[n bytes] st].
  destruct (n <? 0); [discriminate|].
  destruct (n =? 0).
  - rewrite Hwait in H. discriminate.
  - inversion H; subst. split; [reflexivity|].
    cbn [with_buffer waitForData_]. rewrite Hw1. exact Hwait.
Qed.

Lemma fill_waiting (fuel : nat) :
  forall s b s',
    waitForData_ s = true -> fill fuel s = Ok b s' ->
    b = true /\ waitForData_ s' = true.
Proof.
  induction fuel as [|fuel IH]; intros s b s' Hwait H.
  - cbn in H. destruct (cur_ s =? limit_ s); [discriminate|].
    inversion H; subst. auto.
  - cbn [fill] in H. destruct (cur_ s =? limit_ s).
    + destruct (read s) as [[|] s1|e s1|s1|] eqn:R; try discriminate.
      * destruct (read_waiting _ _ _ Hwait R) as [_ Hw1].
        apply (IH _ _ _ Hw1 H).
      * destruct (read_waiting _ _ _ Hwait R) as [Hb _]. discriminate.
    + inversion H; subst. auto.
Qed.

Lemma fill_throws (fuel : nat) :
  forall s e s', fill fuel s = Throw e s' -> exists what, e = runtime_error what.
Proof.
  induction fuel as [|fuel IH]; intros s e s' H.
  - cbn in H. destruct (cur_ s =? limit_ s); discriminate.
  - cbn [fill] in H. destruct (cur_ s =? limit_ s); [|discriminate].
    destruct (read s) as [[|] s1|e1 s1|s1|] eqn:R; try discriminate.
    + apply (IH _ _ _ H).
    + inversion H; subst. unfold read in R.
      destruct (doRead _ _) as [[n bytes] st].
      destruct (n <? 0).
      * inversion R. eexists. reflexivity.
      * destruct (n =? 0); [destruct (waitForData_ s)|]; discriminate.
Qed.

End Waiting.

(** X23.  A source opened to wait for data never reports the end of the
    stream: whenever [next()] or [peek()] returns, it returns a byte, and
    [readFunc] never throws its end-of-file [parse_error]; at the end of the
    data the calls do not return (until data arrives) instead. *)
Theorem waiting_source_never_reports_eof (fuel : nat) (s : FileByteSource.t) :
  FileByteSource.waitForData_ s = true ->
  (forall r s', FileByteSource.next fuel s = FileByteSource.Ok r s' ->
                exists b, r = Some b) /\
  (forall r s', FileByteSource.peek fuel s = FileByteSource.Ok r s' ->
                exists b, r = Some b) /\
  (forall len what s',
      FileByteSource.readFunc fuel len s []
      <> FileByteSource.Throw (parse_error what) s') /\
  (forall s', FileByteSource.read s <> FileByteSource.Ok false s').
Proof.
  intros Hwait. split; [|split; [|split]].
  - intros r s' H. unfold FileByteSource.next in H.
    destruct (FileByteSource.fill fuel s) as [[|] s1|e s1|s1|] eqn:F;
      try discriminate.
    + inversion H; subst. eexists. reflexivity.
    + destruct (fill_waiting _ _ _ _ Hwait F) as [Hb _]. discriminate.
  - intros r s' H. unfold FileByteSource.peek in H.
    destruct (FileByteSource.fill fuel s) as [[|] s1|e s1|s1|] eqn:F;
      try discriminate.
    + inversion H; subst. eexists. reflexivity.
    + destruct (fill_waiting _ _ _ _ Hwait F) as [Hb _]. discriminate.
  - assert (Hgen : forall fuel len s frags what s',
               FileByteSource.waitForData_ s = true ->
               FileByteSource.readFunc fuel len s frags
               <> FileByteSource.Throw (parse_error what) s').
    { clear. induction fuel as [|fuel IH]; intros len s frags what s' Hwait H.
      - cbn in H. destruct (len =? 0); discriminate.
      - cbn [FileByteSource.readFunc] in H.
        destruct (len =? 0); [discriminate|].
        destruct (FileByteSource.fill (S fuel) s) as [[|] s1|e s1|s1|] eqn:F;
          try discriminate.
        + destruct (fill_waiting _ _ _ _ Hwait F) as [_ Hw1].
          eapply IH; [|exact H]. exact Hw1.
        + destruct (fill_waiting _ _ _ _ Hwait F) as [Hb _]. discriminate.
        + destruct (fill_throws _ _ _ _ F) as [w Hw]. subst e.
          discriminate. }
    intros len what s'. apply Hgen, Hwait.
  - intros s' H. destruct (read_waiting _ _ _ Hwait H) as [Hb _].
    discriminate.
Qed.

Lemma waiting_source_never_reports_eof_witness :
  (forall r s', FileByteSource.next 5 tailing_source = FileByteSource.Ok r s' ->
                exists b, r = Some b) /\
  (forall r s', FileByteSource.peek 5 tailing_source = FileByteSource.Ok r s' ->
                exists b, r = Some b) /\
  (forall len what s',
      FileByteSource.readFunc 5 len tailing_source []
      <> FileByteSource.Throw (parse_error what) s') /\
  (forall s', FileByteSource.read tailing_source <> FileByteSource.Ok false s').
Proof. apply waiting_source_never_reports_eof. reflexivity. Defined.

(** ** GrepHandler.h : [reallyDoGrep] without context lines *)

Section GrepPlain.
Context {W : Type} (env : Grep.Env W).

Lemma emitted_after_skip (n : nat) (evs : list Grep.Event) :
  emitted n evs -> emitted n (evs ++ [Grep.EvParse Grep.recordHandler]).
Proof.
  induction 1 as [|n evs H IH|n evs abspos H IH]; cbn [app].
  - apply emitted_skip, emitted_none.
  - apply emitted_skip, IH.
  - apply emitted_match, IH.
Qed.

Lemma emitted_after_match (n : nat) (evs : list Grep.Event) (abspos : Z) :
  emitted n evs ->
  emitted (S n)
    (evs ++ [Grep.EvParse Grep.outputHandler; Grep.EvSeek abspos;
             Grep.EvParse Grep.recordHandler]).
Proof.
  induction 1 as [|n evs H IH|n evs abspos' H IH]; cbn [app].
  - apply emitted_match, emitted_none.
  - apply emitted_skip, IH.
  - apply emitted_match, IH.
Qed.

Lemma emitted_matches_now (st : @Grep.State W) (limit total : Z) (w : W) :
  0 <= total <= limit ->
  emitted_matches st limit total
    (Grep.Returned total, {| Grep.world := w; Grep.trace := Grep.trace st |}).
Proof.
  intros Ht t H. inversion H; subst. split; [lia|].
  exists []. split; [reflexivity|].
  rewrite Z.sub_diag. apply emitted_none.
Qed.

Lemma emitted_matches_failed (st : @Grep.State W) (limit total : Z)
  (o : @Grep.Outcome Z) (st' : @Grep.State W) :
  (forall t, o <> Grep.Returned t) -> emitted_matches st limit total (o, st').
Proof. intros Ho t H. cbn in H. destruct (Ho t H). Qed.

Lemma emitted_matches_skip (st : @Grep.State W) (limit total : Z) (w : W)
  (r : @Grep.Outcome Z * @Grep.State W) :
  emitted_matches
    {| Grep.world := w;
       Grep.trace := Grep.EvParse Grep.recordHandler :: Grep.trace st |}
    limit total r ->
  emitted_matches st limit total r.
Proof.
  intros H t Ht. destruct (H t Ht) as (Hle & evs & Htr & Hem).
  split; [exact Hle|].
  exists (evs ++ [Grep.EvParse Grep.recordHandler]). split.
  - unfold events_since in *. rewrite Htr. cbn [Grep.trace].
    rewrite <- app_assoc. reflexivity.
  - apply emitted_after_skip, Hem.
Qed.

Lemma emitted_matches_match (st : @Grep.State W) (limit total abspos : Z)
  (w : W) (r : @Grep.Outcome Z * @Grep.State W) :
  0 <= total ->
  emitted_matches
    {| Grep.world := w;
       Grep.trace := Grep.EvParse Grep.outputHandler :: Grep.EvSeek abspos
                     :: Grep.EvParse Grep.recordHandler :: Grep.trace st |}
    limit (total + 1) r ->
  emitted_matches st limit total r.
Proof.
  intros H0 H t Ht. destruct (H t Ht) as (Hle & evs & Htr & Hem).
  split; [lia|].
  exists (evs ++ [Grep.EvParse Grep.outputHandler; Grep.EvSeek abspos;
                  Grep.EvParse Grep.recordHandler]). split.
  - unfold events_since in *. rewrite Htr. cbn [Grep.trace].
    rewrite <- app_assoc. reflexivity.
  - replace (Z.to_nat (t - total)) with (S (Z.to_nat (t - (total + 1))))
      by lia.
    apply emitted_after_match, Hem.
Qed.

Lemma grep_loop_plain (p : Pattern) (nm sl : Z) (fuel : nat) :
  count p = false -> beforeContext p = 0 -> afterContext p = 0 ->
  0 <= nm < 2 ^ 64 ->
  forall posBuffer total matchPos (st : @Grep.State W),
    0 <= total <= nm -> (List.length posBuffer <= 1)%nat ->
    emitted_matches st nm total
      (Grep.grep_loop env fuel p nm sl posBuffer 0 total matchPos st).
Proof.
  intros Hcount Hbefore Hafter Hnm.
  induction fuel as [|fuel IH]; intros posBuffer total matchPos st Htotal Hlen.
  - apply emitted_matches_failed. discriminate.
  - cbn [Grep.grep_loop]. unfold Grep.bind at 1.
    unfold Grep.source_peek_is_EOF, Grep.call.
    destruct (Grep.peek_is_EOF env (Grep.world st)) as [[eof|e] w].
    2:{ apply emitted_matches_failed. discriminate. }
    destruct eof.
    { apply emitted_matches_now. exact Htotal. }
    unfold Grep.bind at 1. unfold Grep.source_pos at 1.
    cbn [Grep.world Grep.trace].
    set (here := Grep.pos env w).
    destruct ((0 =? 0) &&
              ((total >=? nm) || (wrap64 (here - matchPos) >? sl))).
    { apply emitted_matches_now. exact Htotal. }
    rewrite Hcount, Hbefore, Hafter. cbn [negb andb].
    assert (Hbuf : (if Z.of_nat (List.length posBuffer) =? Grep.wrap32 (0 + 1)
                    then tl posBuffer else posBuffer) = []).
    { destruct posBuffer as [|x [|y rest]]; [reflexivity|reflexivity|].
      cbn in Hlen. lia. }
    rewrite Hbuf. cbn [app hd last].
    unfold Grep.bind at 1. unfold Grep.parse at 1, Grep.call.
    cbn [Grep.world Grep.trace].
    destruct (Grep.parseUntilValue env Grep.recordHandler w) as [[ok|e] w1].
    2:{ apply emitted_matches_failed. discriminate. }
    destruct ok; cbn [negb].
    2:{ apply (emitted_matches_skip st nm total w1).
        apply (emitted_matches_now
                 {| Grep.world := w1;
                    Grep.trace := Grep.EvParse Grep.recordHandler
                                  :: Grep.trace st |}).
        exact Htotal. }
    unfold Grep.bind at 1. unfold Grep.grep_matched at 1.
    cbn [Grep.world Grep.trace].
    destruct (Grep.matched env w1 && (total <? nm)) eqn:Em.
    + apply andb_prop in Em. destruct Em as [_ Elt]. apply Z.ltb_lt in Elt.
      rewrite wrap64_small by lia.
      unfold Grep.bind at 1. unfold Grep.source_seek, Grep.call.
      cbn [Grep.world Grep.trace].
      destruct (Grep.seek env here w1) as [[[]|e] w2].
      2:{ apply emitted_matches_failed. discriminate. }
      cbn [Grep.replay]. unfold Grep.bind at 1. unfold Grep.bind at 1.
      unfold Grep.parse at 1, Grep.call. cbn [Grep.world Grep.trace].
      destruct (Grep.parseUntilValue env Grep.outputHandler w2) as [[b|e] w3].
      2:{ apply emitted_matches_failed. discriminate. }
      unfold Grep.ret at 1.
      apply (emitted_matches_match st nm total here w3); [lia|].
      apply IH; [lia|cbn; lia].
    + cbn [Z.eqb negb].
      apply (emitted_matches_skip st nm total w1).
      apply IH; [lia|cbn; lia].
Qed.

End GrepPlain.

(** X24.  Without context lines ([beforeContext] and [afterContext] 0, not
    counting) the loop of [reallyDoGrep] outputs each record it counts as a
    match exactly once: when it returns the total [t], it has run the output
    handler [t] times, each time right after the grep handler parsed a record
    and a seek back, and never otherwise; and [t] is within [numMatches]. *)
Theorem grep_without_context_outputs_each_match_once (W : Type)
  (env : Grep.Env W) (p : Pattern) (nm sl matchPos t : Z) (fuel : nat)
  (st st' : @Grep.State W) :
  count p = false -> beforeContext p = 0 -> afterContext p = 0 ->
  0 <= nm < 2 ^ 64 ->
  Grep.grep_loop env fuel p nm sl [] 0 0 matchPos st = (Grep.Returned t, st') ->
  0 <= t <= nm /\
  exists evs, events_since st st' evs /\ emitted (Z.to_nat t) evs.
Proof.
  intros Hcount Hbefore Hafter Hnm Hrun.
  pose proof (grep_loop_plain env p nm sl fuel Hcount Hbefore Hafter Hnm
                [] 0 matchPos st ltac:(lia) ltac:(cbn; lia)) as H.
  rewrite Hrun in H. destruct (H t eq_refl) as (Hle & evs & Htr & Hem).
  split; [lia|]. exists evs. split; [exact Htr|].
  rewrite Z.sub_0_r in Hem. exact Hem.
Qed.

Lemma grep_without_context_outputs_each_match_once_witness :
  0 <= 1 <= 1 /\
  exists evs,
    events_since {| Grep.world := 0; Grep.trace := [] |}
      (snd (Grep.grep_loop (records_env 3) 10 first_uint3 1 Grep.size_t_max
              [] 0 0 0 {| Grep.world := 0; Grep.trace := [] |})) evs /\
    emitted (Z.to_nat 1) evs.
Proof.
  apply (grep_without_context_outputs_each_match_once Z (records_env 3)
           first_uint3 1 Grep.size_t_max 0 1 10
           {| Grep.world := 0; Grep.trace := [] |}).
  - reflexivity.
  - reflexivity.
  - reflexivity.
  - split; [lia|reflexivity].
  - vm_compute. reflexivity.
Defined.

(** ** GrepHandler.h : the window of [doBisect] *)

Section BisectWindow.
Context {W : Type} (env : Grep.Env W).
Variable good : W -> Prop.
Variable B : Z.
Variable p : Pattern.
Variable gfuel : nat.

Hypothesis good_seek :
  forall w x w1, good w -> Grep.seek env x w = (Grep.Ok tt, w1) -> good w1.
Hypothesis good_sync :
  forall w b w1, good w -> Grep.sync env w = (Grep.Ok b, w1) -> good w1.
Hypothesis good_pos : forall w, good w -> 0 <= Grep.pos env w < 2 ^ 64.
Hypothesis sorted :
  forall w w',
    good w ->
    Grep.parseUntilValue env Grep.bisectRecordHandler w = (Grep.Ok true, w') ->
    good w' /\
    if Grep.recordPrecedesPattern env w'
    then Grep.pos env w < B else B <= Grep.pos env w.

Lemma bisect_post_stop (st : @Grep.State W) (o : @Grep.Outcome unit)
  (st' : @Grep.State W) (evs : list Grep.Event) :
  events_since st st' evs -> Forall is_probe evs ->
  bisect_post env good B p gfuel st (o, st').
Proof. intros H1 H2. right. exists evs. split; assumption. Qed.

Lemma bisect_post_probe (st st1 : @Grep.State W) (evs1 : list Grep.Event)
  (r : @Grep.Outcome unit * @Grep.State W) :
  events_since st st1 evs1 -> Forall is_probe evs1 ->
  bisect_post env good B p gfuel st1 r ->
  bisect_post env good B p gfuel st r.
Proof.
  unfold events_since. intros H1 Hp1 [Hscan|Hstop].
  - destruct Hscan as (start' & end' & st' & evs & Htr & Hp & Hrest).
    left. exists start', end', st', (evs ++ evs1).
    split; [unfold events_since in *; rewrite Htr, H1, app_assoc; reflexivity|].
    split; [apply Forall_app; split; assumption|]. exact Hrest.
  - destruct Hstop as (evs & Htr & Hp).
    right. exists (evs ++ evs1).
    split; [unfold events_since in *; rewrite Htr, H1, app_assoc; reflexivity|].
    apply Forall_app; split; assumption.
Qed.

Lemma bisect_loop_window (fuel : nat) :
  forall start end_ (st : @Grep.State W),
    good (Grep.world st) -> 0 <= start <= B -> B <= end_ < 2 ^ 64 ->
    bisect_post env good B p gfuel st
      (Grep.bisect_loop env fuel gfuel p start end_ st).
Proof.
  induction fuel as [|fuel IH]; intros start end_ st Hgood Hstart Hend.
  - destruct st as [w tr].
    apply (bisect_post_stop {| Grep.world := w |} _ _ []);
      [reflexivity|constructor].
  - cbn [Grep.bisect_loop].
    destruct (end_ >? start) eqn:Egt.
    2:{ destruct st as [w tr].
        apply (bisect_post_stop {| Grep.world := w |} _ _ []);
          [reflexivity|constructor]. }
    apply Z.gtb_lt in Egt.
    rewrite (wrap64_small (end_ - start)) by lia.
    destruct (end_ - start <=? Grep.SCAN_THRESHOLD) eqn:Esmall.
    + apply Z.leb_le in Esmall. left.
      exists start, end_, st, []. split; [reflexivity|].
      split; [constructor|]. split; [exact Hgood|].
      split; [lia|]. split; [lia|]. split; [lia|].
      destruct (start >? Grep.PREFIX_AMOUNT) eqn:Ep; [|reflexivity].
      apply Z.gtb_lt in Ep. unfold Grep.PREFIX_AMOUNT in Ep.
      rewrite wrap64_small; [reflexivity|].
      unfold Grep.PREFIX_AMOUNT. lia.
    + apply Z.leb_gt in Esmall.
      rewrite (wrap64_small (start + (end_ - start) / 2))
        by (Z.to_euclidean_division_equations; lia).
      set (mid := start + (end_ - start) / 2).
      unfold Grep.bind at 1. unfold Grep.seekSync.
      unfold Grep.bind at 1. unfold Grep.source_seek, Grep.call.
      destruct (Grep.seek env mid (Grep.world st)) as [[[]|e] w1] eqn:Hseek.
      2:{ apply (bisect_post_stop st _ _ [Grep.EvSeek mid]);
            [reflexivity|repeat constructor]. }
      cbn [Grep.world Grep.trace].
      unfold Grep.bind at 1. unfold Grep.tail_sync, Grep.call.
      cbn [Grep.world Grep.trace].
      pose proof (good_seek _ _ _ Hgood Hseek) as Hgood1.
      destruct (Grep.sync env w1) as [[ok|e] w2] eqn:Hsync.
      2:{ apply (bisect_post_stop st _ _ [Grep.EvSync; Grep.EvSeek mid]);
            [reflexivity|repeat constructor]. }
      pose proof (good_sync _ _ _ Hgood1 Hsync) as Hgood2.
      destruct ok.
      2:{ apply (bisect_post_stop st _ _ [Grep.EvSync; Grep.EvSeek mid]);
            [reflexivity|repeat constructor]. }
      unfold Grep.ret at 1.
      unfold Grep.bind at 1. unfold Grep.source_pos at 1.
      cbn [Grep.world Grep.trace].
      unfold Grep.bind at 1. unfold Grep.parse, Grep.call.
      cbn [Grep.world Grep.trace].
      destruct (Grep.parseUntilValue env Grep.bisectRecordHandler w2)
        as [[ok|e] w3] eqn:Hparse.
      2:{ apply (bisect_post_stop st _ _
                   [Grep.EvParse Grep.bisectRecordHandler; Grep.EvSync;
                    Grep.EvSeek mid]);
            [reflexivity|repeat constructor]. }
      destruct ok; cbn [negb].
      2:{ apply (bisect_post_stop st _ _
                   [Grep.EvParse Grep.bisectRecordHandler; Grep.EvSync;
                    Grep.EvSeek mid]);
            [reflexivity|repeat constructor]. }
      destruct (sorted _ _ Hgood2 Hparse) as [Hgood3 Hside].
      pose proof (good_pos _ Hgood2) as Hpos.
      unfold Grep.bind at 1. unfold Grep.grep_recordPrecedesPattern at 1.
      cbn [Grep.world Grep.trace].
      apply (bisect_post_probe st
               {| Grep.world := w3;
                  Grep.trace := Grep.EvParse Grep.bisectRecordHandler
                                :: Grep.EvSync :: Grep.EvSeek mid
                                :: Grep.trace st |}
               [Grep.EvParse Grep.bisectRecordHandler; Grep.EvSync;
                Grep.EvSeek mid]);
        [reflexivity|repeat constructor|].
      destruct (Grep.recordPrecedesPattern env w3).
      * apply IH; [exact Hgood3|lia|lia].
      * apply IH; [exact Hgood3|lia|lia].
Qed.

End BisectWindow.

(** X25.  On a file whose records are sorted for the pattern, with [B] the
    position where the records that do not precede the pattern begin (every
    record the bisect handler reports as preceding starts before [B], every
    other record at [B] or later), the loop of [doBisect] never loses [B]:
    [start <= B <= end] holds for every window, so when the loop comes to its
    linear scan the scan begins at or before [B], from a window of at most
    [SCAN_THRESHOLD] bytes; otherwise the loop ends having done nothing but
    probes. *)
Theorem bisect_keeps_the_boundary_in_its_window (W : Type) (env : Grep.Env W)
  (good : W -> Prop) (B : Z) (p : Pattern) (fuel gfuel : nat)
  (start end_ : Z) (st : @Grep.State W) :
  (forall w x w1, good w -> Grep.seek env x w = (Grep.Ok tt, w1) -> good w1) ->
  (forall w b w1, good w -> Grep.sync env w = (Grep.Ok b, w1) -> good w1) ->
  (forall w, good w -> 0 <= Grep.pos env w < 2 ^ 64) ->
  (forall w w',
      good w ->
      Grep.parseUntilValue env Grep.bisectRecordHandler w = (Grep.Ok true, w') ->
      good w' /\
      if Grep.recordPrecedesPattern env w'
      then Grep.pos env w < B else B <= Grep.pos env w) ->
  good (Grep.world st) -> 0 <= start <= B -> B <= end_ < 2 ^ 64 ->
  bisect_post env good B p gfuel st
    (Grep.bisect_loop env fuel gfuel p start end_ st).
Proof.
  intros H1 H2 H3 H4 Hgood Hstart Hend.
  apply (bisect_loop_window env good B p gfuel H1 H2 H3 H4); assumption.
Qed.

Lemma bisect_keeps_the_boundary_in_its_window_witness :
  bisect_post (sorted_records_env 7000) (fun _ => True) (7000 * 64)
    count_uint7 100 {| Grep.world := 0; Grep.trace := [] |}
    (Grep.bisect_loop (sorted_records_env 7000) 20 100 count_uint7 0
       (1024 * 1024) {| Grep.world := 0; Grep.trace := [] |}).
Proof.
  apply (bisect_keeps_the_boundary_in_its_window Z (sorted_records_env 7000)
           (fun _ => True) (7000 * 64) count_uint7 20 100 0 (1024 * 1024)
           {| Grep.world := 0; Grep.trace := [] |}).
  - intros; exact I.
  - intros; exact I.
  - intros w _. cbn [Grep.pos sorted_records_env]. lia.
  - intros w w' _ H. split; [exact I|].
    cbn [Grep.parseUntilValue sorted_records_env records_env] in H.
    destruct (w <? 1024 * 1024) eqn:E; [|discriminate].
    apply Z.ltb_lt in E. inversion H; subst w'.
    cbn [Grep.recordPrecedesPattern Grep.pos sorted_records_env records_env].
    replace (w + 64 - 64) with w by lia.
    destruct (w / 64 <? 7000) eqn:Eq.
    + apply Z.ltb_lt in Eq. Z.to_euclidean_division_equations; lia.
    + apply Z.ltb_ge in Eq. Z.to_euclidean_division_equations; lia.
  - exact I.
  - lia.
  - lia.
Defined.

(** ** GrepHandler.h : string patterns *)

Lemma prefix_append (pat : string) :
  forall s, String.prefix pat s = true <-> exists b, s = String.append pat b.
Proof.
  induction pat as [|c pat IH]; intros s.
  - split; [intros _; exists s; reflexivity|].
    intros _. destruct s; reflexivity.
  - destruct s as [|d s]; cbn [String.prefix String.append].
    + split; [discriminate|]. intros [b Hb]. discriminate.
    + destruct (ascii_dec c d) as [->|Hne].
      * rewrite IH. split.
        -- intros [b Hb]. exists b. rewrite Hb. reflexivity.
        -- intros [b Hb]. exists b. inversion Hb. reflexivity.
      * split; [discriminate|]. intros [b Hb].
        injection Hb as Hcd _. destruct (Hne (eq_sym Hcd)).
Qed.

Lemma contains_substring (pat : string) :
  forall sv,
    contains sv pat = true <->
    exists a b, sv = String.append a (String.append pat b).
Proof.
  induction sv as [|c sv IH].
  - cbn [contains]. rewrite orb_false_r, prefix_append. split.
    + intros [b Hb]. exists "", b. exact Hb.
    + intros (a & b & Hab). destruct a; [exists b; exact Hab|discriminate].
  - cbn [contains]. rewrite orb_true_iff, prefix_append, IH. split.
    + intros [[b Hb]|(a & b & Hab)].
      * exists "", b. exact Hb.
      * exists (String c a), b. cbn [String.append]. rewrite Hab. reflexivity.
    + intros (a & b & Hab). destruct a as [|d a].
      * left. exists b. exact Hab.
      * right. cbn [String.append] in Hab. inversion Hab. exists a, b.
        reflexivity.
Qed.

(** X26.  A string pattern matches a string value in one of two ways: with
    [fullMatch] the value must be the pattern, character for character;
    without it the pattern must occur somewhere in the value (so the empty
    pattern matches every string).  With no string pattern no string
    matches. *)
Theorem string_pattern_is_full_or_substring (p : Pattern) (sv : string) :
  matchesValue_str p sv = true <->
  exists sp,
    strPattern p = Some sp /\
    if fullMatch sp then pattern sp = sv
    else exists a b, sv = String.append a (String.append (pattern sp) b).
Proof.
  unfold matchesValue_str. destruct (strPattern p) as [sp|].
  - split.
    + intros H. exists sp. split; [reflexivity|].
      destruct (fullMatch sp).
      * apply String.eqb_eq, H.
      * apply contains_substring, H.
    + intros (sp' & Hsp & H). inversion Hsp; subst sp'.
      destruct (fullMatch sp).
      * apply String.eqb_eq, H.
      * apply contains_substring, H.
  - split; [discriminate|]. intros (sp & Hsp & _). discriminate.
Qed.

(** ** GrepHandler.h : strings by reference, strings in fragments *)

Section Resolve.
Variable p : Pattern.
Variable dict : list string.

Lemma in_range_resolve : forall v, in_range dict (resolve dict v) = true.
Proof.
  apply Value_induction; try reflexivity.
  - intros vs IH. cbn [resolve in_range]. rewrite forallb_forall.
    intros x Hx. apply in_map_iff in Hx. destruct Hx as (v & <- & Hv).
    rewrite Forall_forall in IH. apply IH, Hv.
  - intros kvs IH. cbn [resolve in_range]. rewrite forallb_forall.
    intros x Hx. apply in_map_iff in Hx. destruct Hx as (kv & <- & Hkv).
    rewrite Forall_forall in IH. cbn [fst snd].
    rewrite (IH kv Hkv). reflexivity.
Qed.

Lemma scan_resolve (hit : Value -> bool) :
  (forall s, hit (VString (resolve_str dict s)) = hit (VString s)) ->
  forall v chk,
    scan p dict hit chk (resolve dict v) = scan p dict hit chk v.
Proof.
  intros Hhit. apply (Value_induction
    (fun v => forall chk,
         scan p dict hit chk (resolve dict v) = scan p dict hit chk v));
    try reflexivity.
  - intros s chk. cbn [resolve scan]. rewrite Hhit. reflexivity.
  - intros vs IH chk. cbn [resolve scan].
    induction IH as [|v vs Hv _ IHvs]; [reflexivity|].
    cbn [map existsb]. rewrite Hv, IHvs. reflexivity.
  - intros kvs IH chk. cbn [resolve scan].
    induction IH as [|kv kvs Hkv _ IHkvs]; [reflexivity|].
    cbn [map existsb fst snd]. rewrite IHkvs.
    f_equal. rewrite Hkv. destruct (fst kv); reflexivity.
Qed.

End Resolve.

(** X27.  For the handler a string is its text: whether a key or a string
    value arrives as a dictionary reference, as one inline fragment or in
    several fragments makes no difference to [matched()] and to
    [recordPrecedesPattern()]. *)
Theorem handler_sees_strings_by_their_text (p : Pattern) (dict : list string)
  (v : Value) (h0 : GrepHandler.t) :
  in_range dict v = true ->
  exists h h',
    onValue p dict v h0 = Some h /\
    onValue p dict (resolve dict v) h0 = Some h' /\
    GrepHandler.matched h' = GrepHandler.matched h /\
    GrepHandler.recordPrecedesPattern h' = GrepHandler.recordPrecedesPattern h.
Proof.
  intros Hrange.
  destruct (onValue_flags p dict v h0 Hrange) as (h & Hrun & Hm & Hl).
  destruct (onValue_flags p dict (resolve dict v) h0 (in_range_resolve dict v))
    as (h' & Hrun' & Hm' & Hl').
  exists h, h'. split; [exact Hrun|]. split; [exact Hrun'|].
  rewrite Hm, Hm', Hl, Hl'. split.
  - apply scan_resolve. intros s. destruct s; reflexivity.
  - apply scan_resolve. intros s. reflexivity.
Qed.

Lemma handler_sees_strings_by_their_text_witness :
  exists h h',
    onValue key_k_uint_5 ["k"] (VObject [(DictRef 0, VUint 5)])
      GrepHandler.new = Some h /\
    onValue key_k_uint_5 ["k"]
      (resolve ["k"] (VObject [(DictRef 0, VUint 5)])) GrepHandler.new
    = Some h' /\
    GrepHandler.matched h' = GrepHandler.matched h /\
    GrepHandler.recordPrecedesPattern h' = GrepHandler.recordPrecedesPattern h.
Proof.
  apply handler_sees_strings_by_their_text. reflexivity.
Defined.

(** ** au/FileByteSource.h : reading what [scanTo] found *)

(** X28.  After [scanTo] has returned true the needle is the next thing to
    read: a [readFunc] of the needle's length returns at once, handing over
    the needle itself in a single fragment taken from the buffer, and moves
    the position past it. *)
Theorem scanTo_then_read_returns_the_needle (fuel fuel' : nat)
  (needle : list FileByteSource.byte) (s s' : FileByteSource.t) :
  window s ->
  FileByteSource.scanTo fuel needle s = FileByteSource.Ok true s' ->
  1 <= FileByteSource.zlength needle < 2 ^ 64 ->
  FileByteSource.readFunc (S fuel') (FileByteSource.zlength needle) s' []
  = FileByteSource.Ok [needle]
      (FileByteSource.advance s' (FileByteSource.zlength needle)).
Proof.
  intros Hw Hscan Hlen.
  destruct (scanTo_found_is_first needle fuel s s' Hw Hscan)
    as (Hw' & _ & _ & _ & _ & Hpre).
  pose proof Hw' as (Hc & _).
  apply is_prefix_firstn in Hpre.
  assert (Hav : FileByteSource.zlength needle
                <= FileByteSource.limit_ s' - FileByteSource.cur_ s').
  { unfold FileByteSource.limit_, FileByteSource.zlength in *.
    assert (Hl : (List.length needle
                  <= List.length (skipn (Z.to_nat (FileByteSource.cur_ s'))
                                    (FileByteSource.buf_ s')))%nat).
    { pose proof (f_equal (@List.length _) Hpre) as Hl.
      rewrite length_firstn in Hl. lia. }
    rewrite length_skipn in Hl. lia. }
  cbn [FileByteSource.readFunc].
  replace (FileByteSource.zlength needle =? 0) with false
    by (symmetry; apply Z.eqb_neq; lia).
  rewrite fill_ready by (apply Z.eqb_neq; lia).
  rewrite Z.min_l by exact Hav.
  rewrite Z.sub_diag. change (wrap64 0) with 0.
  assert (Hslice : FileByteSource.slice (FileByteSource.buf_ s')
                     (FileByteSource.cur_ s') (FileByteSource.zlength needle)
                   = needle).
  { unfold FileByteSource.slice, FileByteSource.zlength.
    rewrite Nat2Z.id. exact Hpre. }
  rewrite Hslice. destruct fuel'; reflexivity.
Qed.

Lemma scanTo_then_read_returns_the_needle_witness :
  FileByteSource.readFunc 1 2
    (FileByteSource.advance
       (FileByteSource.advance peeked_source 1) 0) []
  = FileByteSource.Ok [list_ascii_of_string "bc"]
      (FileByteSource.advance
         (FileByteSource.advance (FileByteSource.advance peeked_source 1) 0)
         2).
Proof.
  apply (scanTo_then_read_returns_the_needle 5 0 (list_ascii_of_string "bc")
           (FileByteSource.advance peeked_source 1)).
  - vm_compute. repeat split; discriminate.
  - reflexivity.
  - vm_compute. split; [discriminate|reflexivity].
Defined.

(** ** GrepHandler.h : one record after another *)

(** X29.  The verdict on a record does not depend on the records before it:
    whatever state the handler was left in (flags raised, markers on the
    stack, a string still in [str_], which [onValue] does not clear),
    [onValue] on a value gives the same [matched()] and the same
    [recordPrecedesPattern()] as a handler just constructed. *)
Theorem handler_verdict_ignores_earlier_records (p : Pattern)
  (dict : list string) (v : Value) (h0 : GrepHandler.t) :
  in_range dict v = true ->
  exists h h',
    onValue p dict v h0 = Some h /\
    onValue p dict v GrepHandler.new = Some h' /\
    GrepHandler.matched h = GrepHandler.matched h' /\
    GrepHandler.recordPrecedesPattern h = GrepHandler.recordPrecedesPattern h'.
Proof.
  intros Hrange.
  destruct (onValue_flags p dict v h0 Hrange) as (h & Hrun & Hm & Hl).
  destruct (onValue_flags p dict v GrepHandler.new Hrange)
    as (h' & Hrun' & Hm' & Hl').
  exists h, h'. split; [exact Hrun|]. split; [exact Hrun'|].
  rewrite Hm, Hm', Hl, Hl'. split; reflexivity.
Qed.

Lemma handler_verdict_ignores_earlier_records_witness :
  exists h h',
    onValue key_k_uint_5 [] (VObject [(Inline ["j"], VString (Inline ["x"]))])
      used_handler = Some h /\
    onValue key_k_uint_5 [] (VObject [(Inline ["j"], VString (Inline ["x"]))])
      GrepHandler.new = Some h' /\
    GrepHandler.matched h = GrepHandler.matched h' /\
    GrepHandler.recordPrecedesPattern h = GrepHandler.recordPrecedesPattern h'.
Proof.
  apply handler_verdict_ignores_earlier_records. reflexivity.
Defined.
